(** * WinOLS Damos (.a2l) translator: a shallow embedding of [main.py]

    The development follows the layout of the script:
    - text, codecs and the text layer of Python files ([open], iteration);
    - [QUOTE_RE] and [re.sub];
    - the JSON cache ([load_cache], [save_cache]);
    - the retrying translator ([translate_text_frag]);
    - the line processor ([translate_line]);
    - the streaming loop of [main].

    A Python [str] is a sequence of code points, here [list N].  Bytes on
    disk are [list byte].  Effects (the translator, the clock, sleeping,
    the diagnostic streams, the file system, an operator interruption) are
    threaded through an explicit state-and-exception monad.

    The script is followed on a Linux file system in which every path
    names a regular file or names nothing, and from a cache file that is
    absent, corrupt or a JSON object of strings; the statements about a
    run of [main] say so by their hypotheses. *)

From Stdlib Require Import ZArith NArith QArith List Ascii String Lia.
From Stdlib.Strings Require Import Byte.
From Equations.Prop Require Import Equations.
From stdpp Require Import gmap list.

Local Open Scope N_scope.
Local Set Warnings "-register-all".

(** ** Text *)

Abbreviation char := N (only parsing).
Abbreviation str := (list N) (only parsing).

(** Python string literals of the source, as code points. *)
Definition u (s : string) : str :=
  map N_of_ascii (list_ascii_of_string s).

Definition QUOTE : char := 34.
Definition LF : char := 10.
Definition CR : char := 13.

(** [str.isspace] on one code point: the characters [str.strip()] removes. *)
Definition isspace (c : char) : bool :=
  ((9 <=? c) && (c <=? 13)) || ((28 <=? c) && (c <=? 32))
  || (c =? 133) || (c =? 160) || (c =? 5760)
  || ((8192 <=? c) && (c <=? 8202))
  || (c =? 8232) || (c =? 8233) || (c =? 8239) || (c =? 8287) || (c =? 12288).

(** [s.strip()]: drop leading and trailing white space. *)
Fixpoint lstrip (s : str) : str :=
  match s with
  | [] => []
  | c :: s' => if isspace c then lstrip s' else s
  end.

Definition strip (s : str) : str := rev (lstrip (rev (lstrip s))).

(** [not inner.strip()]: the emptiness test of [_repl]. *)
Definition is_inert (inner : str) : bool :=
  match strip inner with [] => true | _ => false end.

(** ** The pattern [QUOTE_RE]: a quote, a lazy group [(.*?)], a quote

    [.] matches any character but a line feed; [*?] is lazy, so a match
    that starts at a quote ends at the nearest following quote, and there is
    none if a line feed (or the end of the text) comes first. *)

(** Match the lazy group and the closing quote at the head of [s]: the
    group and the text after the closing quote. *)
Fixpoint match_body (s : str) : option (str * str) :=
  match s with
  | [] => None
  | c :: s' =>
      if c =? QUOTE then Some ([], s')
      else if c =? LF then None
      else match match_body s' with
           | Some (inner, rest) => Some (c :: inner, rest)
           | None => None
           end
  end.

(** What [re.sub] sees in a text: the characters outside every match, and
    the successive non-overlapping matches, leftmost first. *)
Inductive seg :=
  | Lit (c : char)
  | Frag (inner : str).

(** Case analysis that remembers the equation, for the termination proof. *)
Definition inspect {A} (x : A) : {y : A | x = y} := exist _ x eq_refl.

Equations? scan (s : str) : list seg by wf (length s) lt :=
  scan [] := [];
  scan (c :: s') with inspect (if c =? QUOTE then match_body s' else None) := {
    | exist _ (Some (inner, rest)) E => Frag inner :: scan rest;
    | exist _ None E => Lit c :: scan s' }.
Proof.
  - destruct (c =? QUOTE); [|discriminate]. simpl.
    enough (∀ t i r, match_body t = Some (i, r) → (length r < length t)%nat)
      as H by (apply H in E; lia).
    clear. induction t as [|d t IH]; intros i r; simpl; [discriminate|].
    destruct (d =? QUOTE); [intros [= <- <-]; lia|].
    destruct (d =? LF); [discriminate|].
    destruct (match_body t) as [[i' r']|]; [|discriminate].
    intros [= <- <-]. specialize (IH _ _ eq_refl). lia.
  - simpl. lia.
Qed.

(** The text a segment stands for; [m.group(0)] for a match. *)
Definition render1 (x : seg) : str :=
  match x with
  | Lit c => [c]
  | Frag inner => QUOTE :: inner ++ [QUOTE]
  end.

Definition render (xs : list seg) : str := concat (map render1 xs).

(** A quoted literal of the source. *)
Definition quoted (s : str) : str := QUOTE :: s ++ [QUOTE].


(** ** Codecs

    [bytes.decode] and [str.encode] for a codec given by its table, under
    the three error policies of [open(..., errors=...)]. *)

Inductive errors := Strict | Ignore | Replace.

Fixpoint decode_with (table : byte → option N) (e : errors)
    (bs : list byte) : option str :=
  match bs with
  | [] => Some []
  | b :: bs' =>
      match table b with
      | Some c => cons c <$> decode_with table e bs'
      | None =>
          match e with
          | Strict => None
          | Ignore => decode_with table e bs'
          | Replace => cons 65533 <$> decode_with table e bs'
          end
      end
  end.

Fixpoint encode_with (table : N → option byte) (e : errors)
    (s : str) : option (list byte) :=
  match s with
  | [] => Some []
  | c :: s' =>
      match table c with
      | Some b => cons b <$> encode_with table e s'
      | None =>
          match e with
          | Strict => None
          | Ignore => encode_with table e s'
          | Replace => cons "?"%byte <$> encode_with table e s'
          end
      end
  end.

(** Latin-1: byte [b] is code point [b]; code points above 255 have no
    encoding. *)
Definition latin1_decode_table (b : byte) : option N := Some (Byte.to_N b).
Definition latin1_encode_table (c : N) : option byte := Byte.of_N c.

(** [s.encode(latin1, errors=ignore)], which cannot fail. *)
Definition output_errors : errors := Ignore.
Definition latin1_bytes (s : str) : list byte :=
  default [] (encode_with latin1_encode_table output_errors s).

(** The byte of a number below 256. *)
Definition byte_of (n : N) : byte := default "000"%byte (Byte.of_N n).

(** UTF-8, strict: no surrogates, nothing above U+10FFFF, no overlong
    forms. *)
Definition is_surrogate (c : N) : bool := (55296 <=? c) && (c <=? 57343).

Definition utf8_encode_char (c : N) : option (list byte) :=
  if c <? 128 then Some [byte_of c]
  else if c <? 2048 then
    Some [byte_of (192 + c / 64); byte_of (128 + c mod 64)]
  else if c <? 65536 then
    if is_surrogate c then None
    else Some [byte_of (224 + c / 4096); byte_of (128 + (c / 64) mod 64);
               byte_of (128 + c mod 64)]
  else if c <? 1114112 then
    Some [byte_of (240 + c / 262144); byte_of (128 + (c / 4096) mod 64);
          byte_of (128 + (c / 64) mod 64); byte_of (128 + c mod 64)]
  else None.

Fixpoint utf8_encode (s : str) : option (list byte) :=
  match s with
  | [] => Some []
  | c :: s' =>
      match utf8_encode_char c, utf8_encode s' with
      | Some bs, Some bs' => Some (bs ++ bs')
      | _, _ => None
      end
  end.

(** A Unicode scalar value: what a strict UTF-8 encoder accepts. *)
Definition scalar (c : N) : bool := (c <? 1114112) && negb (is_surrogate c).

(** A text without lone surrogates. *)
Definition encodable (s : str) : bool := forallb scalar s.

Definition is_cont (b : byte) : bool :=
  (128 <=? Byte.to_N b) && (Byte.to_N b <=? 191).

Fixpoint utf8_decode (bs : list byte) : option str :=
  match bs with
  | [] => Some []
  | b0 :: r0 =>
      let n0 := Byte.to_N b0 in
      if n0 <? 128 then cons n0 <$> utf8_decode r0
      else if (194 <=? n0) && (n0 <=? 223) then
        match r0 with
        | b1 :: r1 =>
            if is_cont b1
            then cons ((n0 - 192) * 64 + (Byte.to_N b1 - 128)) <$> utf8_decode r1
            else None
        | _ => None
        end
      else if (224 <=? n0) && (n0 <=? 239) then
        match r0 with
        | b1 :: b2 :: r2 =>
            let c := (n0 - 224) * 4096 + (Byte.to_N b1 - 128) * 64
                     + (Byte.to_N b2 - 128) in
            if is_cont b1 && is_cont b2 && (2048 <=? c) && negb (is_surrogate c)
            then cons c <$> utf8_decode r2
            else None
        | _ => None
        end
      else if (240 <=? n0) && (n0 <=? 244) then
        match r0 with
        | b1 :: b2 :: b3 :: r3 =>
            let c := (n0 - 240) * 262144 + (Byte.to_N b1 - 128) * 4096
                     + (Byte.to_N b2 - 128) * 64 + (Byte.to_N b3 - 128) in
            if is_cont b1 && is_cont b2 && is_cont b3
               && (65536 <=? c) && (c <? 1114112)
            then cons c <$> utf8_decode r3
            else None
        | _ => None
        end
      else None
  end.

(** ** The text layer of [open]

    With the default [newline=None], reading turns every [CR LF] and every
    lone [CR] into [LF]; writing leaves [LF] as it is on Linux. *)

Fixpoint universal_newlines (s : str) : str :=
  match s with
  | [] => []
  | c :: s' =>
      if c =? CR then
        LF :: match s' with
              | d :: s'' => if d =? LF then universal_newlines s''
                            else universal_newlines s'
              | [] => []
              end
      else c :: universal_newlines s'
  end.

(** Iterating over a text file: the lines, each with its terminator; only
    the last one can lack it. *)
Fixpoint iter_lines (s : str) : list str :=
  match s with
  | [] => []
  | c :: s' =>
      if c =? LF then [c] :: iter_lines s'
      else match iter_lines s' with
           | [] => [[c]]
           | l :: ls => (c :: l) :: ls
           end
  end.

(** [open(path, encoding=latin1, errors=ignore)] then iteration: the lines
    of a file from its bytes.  [None] would be a decoding error. *)
Definition input_errors : errors := Ignore.

Definition read_text_latin1 (bs : list byte) : option str :=
  universal_newlines <$> decode_with latin1_decode_table input_errors bs.

Definition file_lines (bs : list byte) : option (list str) :=
  iter_lines <$> read_text_latin1 bs.


(** [line.rstrip(LF)]: drop every trailing line feed. *)
Fixpoint rstrip_lf (s : str) : str :=
  match s with
  | [] => []
  | c :: s' =>
      match rstrip_lf s' with
      | [] => if c =? LF then [] else [c]
      | t => c :: t
      end
  end.

Definition has_quote (s : str) : bool := existsb (N.eqb QUOTE) s.

(** ** JSON as [json.dump] writes it and [json.load] reads it *)

Definition BACKSLASH : char := 92.

(** The Python value [json.load] builds; a number keeps its lexeme, an
    object its members in file order. *)
Inductive json :=
  | JNull
  | JBool (b : bool)
  | JNumber (lexeme : str)
  | JString (s : str)
  | JArray (xs : list json)
  | JObject (members : list (str * json)).

(** [ESCAPE_DCT] with [ensure_ascii=False]: the quote, the backslash and
    the control characters below 32 are escaped, everything else is kept. *)
Definition hex_digit (n : N) : char := if n <? 10 then 48 + n else 87 + n.

Definition escape_char (c : char) : str :=
  if c =? QUOTE then [BACKSLASH; QUOTE]
  else if c =? BACKSLASH then [BACKSLASH; BACKSLASH]
  else if c =? 10 then [BACKSLASH; 110]
  else if c =? 13 then [BACKSLASH; 114]
  else if c =? 9 then [BACKSLASH; 116]
  else if c =? 8 then [BACKSLASH; 98]
  else if c =? 12 then [BACKSLASH; 102]
  else if c <? 32 then
    [BACKSLASH; 117; 48; 48; hex_digit (c / 16); hex_digit (c mod 16)]
  else [c].

Definition encode_basestring (s : str) : str :=
  QUOTE :: concat (map escape_char s) ++ [QUOTE].

(** The chunks [json.dump(cache, f, ensure_ascii=False, indent=2)] hands to
    [f.write], one after the other. *)
Definition item_chunks (kv : str * str) : list str :=
  [encode_basestring kv.1; u ": "; encode_basestring kv.2].

Definition dump_chunks (items : list (str * str)) : list str :=
  match items with
  | [] => [u "{}"]
  | kv :: kvs =>
      [u "{"; LF :: u "  "] ++ item_chunks kv
      ++ concat (map (λ kv', (u "," ++ LF :: u "  ") :: item_chunks kv') kvs)
      ++ [[LF]; u "}"]
  end.

(** The text of the whole dump.  [json.dump] writes the entries in the
    order of insertion into the dict; a finite map has no such order, and
    the entries are written here in the order of [map_to_list].  What is
    stated of a dump below does not depend on the order: whether it can be
    encoded, and the mapping it is read back as. *)
Definition json_dumps (cache : gmap (list N) (list N)) : str :=
  concat (dump_chunks (map_to_list cache)).

(** The text after the first item of a dumped object. *)
Definition more_items (kvs : list (list N * list N)) : str :=
  concat (concat (map (λ kv', (u "," ++ LF :: u "  ") :: item_chunks kv') kvs)).

(** The member [json.load] builds from an entry of the cache. *)
Definition tag (kv : list N * list N) : list N * json := (kv.1, JString kv.2).

(** [json.loads].  White space is space, tab, line feed and carriage
    return. *)
Definition is_ws (c : char) : bool :=
  (c =? 32) || (c =? 9) || (c =? 10) || (c =? 13).

Fixpoint skip_ws (s : str) : str :=
  match s with
  | [] => []
  | c :: s' => if is_ws c then skip_ws s' else s
  end.

Definition is_digit (c : char) : bool := (48 <=? c) && (c <=? 57).

Definition hex_val (c : char) : option N :=
  if is_digit c then Some (c - 48)
  else if (97 <=? c) && (c <=? 102) then Some (c - 87)
  else if (65 <=? c) && (c <=? 70) then Some (c - 55)
  else None.

Definition hex4 (a b c d : char) : option N :=
  match hex_val a, hex_val b, hex_val c, hex_val d with
  | Some x, Some y, Some z, Some w => Some (((x * 16 + y) * 16 + z) * 16 + w)
  | _, _, _, _ => None
  end.

Definition is_high_surrogate (c : N) : bool := (55296 <=? c) && (c <=? 56319).
Definition is_low_surrogate (c : N) : bool := (56320 <=? c) && (c <=? 57343).
Definition join_surrogates (h l : N) : N :=
  65536 + (h - 55296) * 1024 + (l - 56320).

(** The one-letter escapes after a backslash. *)
Definition unescape (e : char) : option char :=
  if e =? QUOTE then Some QUOTE
  else if e =? BACKSLASH then Some BACKSLASH
  else if e =? 47 then Some 47
  else if e =? 98 then Some 8
  else if e =? 102 then Some 12
  else if e =? 110 then Some 10
  else if e =? 114 then Some 13
  else if e =? 116 then Some 9
  else None.

Definition prepend (c : char) (r : option (str * str)) : option (str * str) :=
  match r with
  | Some (t, rest) => Some (c :: t, rest)
  | None => None
  end.

(** [scanstring] in strict mode, after the opening quote: the decoded
    string and the text after the closing quote. *)
Fixpoint scanstring (s : str) : option (str * str) :=
  match s with
  | [] => None
  | c :: s1 =>
      if c =? QUOTE then Some ([], s1)
      else if c =? BACKSLASH then
        match s1 with
        | [] => None
        | e :: s2 =>
            if e =? 117 then
              match s2 with
              | a :: b :: c' :: d :: s3 =>
                  match hex4 a b c' d with
                  | None => None
                  | Some h =>
                      match s3 with
                      | x :: y :: a2 :: b2 :: c2 :: d2 :: s4 =>
                          if is_high_surrogate h && (x =? BACKSLASH) && (y =? 117)
                          then
                            match hex4 a2 b2 c2 d2 with
                            | None => None
                            | Some l =>
                                if is_low_surrogate l
                                then prepend (join_surrogates h l) (scanstring s4)
                                else prepend h (scanstring s3)
                            end
                          else prepend h (scanstring s3)
                      | _ => prepend h (scanstring s3)
                      end
                  end
              | _ => None
              end
            else
              match unescape e with
              | Some ch => prepend ch (scanstring s2)
              | None => None
              end
        end
      else if c <? 32 then None
      else prepend c (scanstring s1)
  end.

(** Numbers: an optional minus, an integer part without a leading zero, an
    optional fraction, an optional exponent.  The lexeme is kept. *)
Fixpoint span_digits (s : str) : str * str :=
  match s with
  | [] => ([], [])
  | c :: s' =>
      if is_digit c then let '(ds, r) := span_digits s' in (c :: ds, r)
      else ([], s)
  end.

Definition match_fraction (s : str) : str * str :=
  match s with
  | dot :: d :: s' =>
      if (dot =? 46) && is_digit d
      then let '(ds, r) := span_digits s' in (dot :: d :: ds, r)
      else ([], s)
  | _ => ([], s)
  end.

Definition match_exponent (s : str) : str * str :=
  match s with
  | e :: s1 =>
      if (e =? 101) || (e =? 69) then
        match s1 with
        | sg :: d :: s2 =>
            if ((sg =? 43) || (sg =? 45)) && is_digit d
            then let '(ds, r) := span_digits s2 in (e :: sg :: d :: ds, r)
            else if is_digit sg
            then let '(ds, r) := span_digits (d :: s2) in (e :: sg :: ds, r)
            else ([], s)
        | [d] => if is_digit d then ([e; d], []) else ([], s)
        | [] => ([], s)
        end
      else ([], s)
  | [] => ([], s)
  end.

Definition match_number (s : str) : option (str * str) :=
  let '(sign, s1) :=
    match s with
    | c :: s' => if c =? 45 then ([c], s') else ([], s)
    | [] => ([], s)
    end in
  match s1 with
  | d :: s2 =>
      if is_digit d then
        let '(int, s3) := if d =? 48 then ([d], s2)
                          else let '(ds, r) := span_digits s2 in (d :: ds, r) in
        let '(frac, s4) := match_fraction s3 in
        let '(exp, s5) := match_exponent s4 in
        Some (sign ++ int ++ frac ++ exp, s5)
      else None
  | [] => None
  end.

(** [strip_prefix p s]: the text after the literal [p] at the head of [s]. *)
Fixpoint strip_prefix (p s : str) : option str :=
  match p, s with
  | [], _ => Some s
  | a :: p', b :: s' => if a =? b then strip_prefix p' s' else None
  | _ :: _, [] => None
  end.

(** The literals and numbers of [scan_once]. *)
Definition scan_atom (s : str) : option (json * str) :=
  match strip_prefix (u "null") s with
  | Some r => Some (JNull, r)
  | None =>
  match strip_prefix (u "true") s with
  | Some r => Some (JBool true, r)
  | None =>
  match strip_prefix (u "false") s with
  | Some r => Some (JBool false, r)
  | None =>
  match strip_prefix (u "NaN") s with
  | Some r => Some (JNumber (u "NaN"), r)
  | None =>
  match strip_prefix (u "Infinity") s with
  | Some r => Some (JNumber (u "Infinity"), r)
  | None =>
  match strip_prefix (u "-Infinity") s with
  | Some r => Some (JNumber (u "-Infinity"), r)
  | None =>
  match match_number s with
  | Some (lexeme, r) => Some (JNumber lexeme, r)
  | None => None
  end end end end end end end.

(** [scan_once]: one value at the head of the text.  The fuel bounds the
    nesting depth; the length of the text is always enough. *)
Fixpoint scan_once (fuel : nat) (s : str) : option (json * str) :=
  match fuel with
  | O => None
  | S fuel' =>
      match s with
      | [] => None
      | c :: s' =>
          if c =? QUOTE then
            match scanstring s' with
            | Some (t, r) => Some (JString t, r)
            | None => None
            end
          else if c =? 123 then
            match skip_ws s' with
            | d :: r =>
                if d =? 125 then Some (JObject [], r)
                else match parse_members fuel' (d :: r) with
                     | Some (kvs, r') => Some (JObject kvs, r')
                     | None => None
                     end
            | [] => None
            end
          else if c =? 91 then
            match skip_ws s' with
            | d :: r =>
                if d =? 93 then Some (JArray [], r)
                else match parse_elements fuel' (d :: r) with
                     | Some (xs, r') => Some (JArray xs, r')
                     | None => None
                     end
            | [] => None
            end
          else scan_atom s
      end
  end

with parse_members (fuel : nat) (s : str) : option (list (str * json) * str) :=
  match fuel with
  | O => None
  | S fuel' =>
      match s with
      | q :: s1 =>
          if q =? QUOTE then
            match scanstring s1 with
            | Some (k, s2) =>
                match skip_ws s2 with
                | colon :: s3 =>
                    if colon =? 58 then
                      match scan_once fuel' (skip_ws s3) with
                      | Some (v, s4) =>
                          match skip_ws s4 with
                          | d :: s5 =>
                              if d =? 125 then Some ([(k, v)], s5)
                              else if d =? 44 then
                                match parse_members fuel' (skip_ws s5) with
                                | Some (kvs, s6) => Some ((k, v) :: kvs, s6)
                                | None => None
                                end
                              else None
                          | [] => None
                          end
                      | None => None
                      end
                    else None
                | [] => None
                end
            | None => None
            end
          else None
      | [] => None
      end
  end

with parse_elements (fuel : nat) (s : str) : option (list json * str) :=
  match fuel with
  | O => None
  | S fuel' =>
      match scan_once fuel' s with
      | Some (v, s1) =>
          match skip_ws s1 with
          | d :: s2 =>
              if d =? 93 then Some ([v], s2)
              else if d =? 44 then
                match parse_elements fuel' (skip_ws s2) with
                | Some (xs, s3) => Some (v :: xs, s3)
                | None => None
                end
              else None
          | [] => None
          end
      | None => None
      end
  end.

(** [json.loads]: white space, one value, white space, end of text.
    [None] stands for [JSONDecodeError].  The interpreter also gives up on
    a value nested deeper than its recursion limit and on a number with
    more digits than its integer limit; such a text is read here as the
    value it denotes.  It is never an object of strings, the only values
    [main] is followed on. *)
Definition json_loads (s : str) : option json :=
  match scan_once (S (length s)) (skip_ws s) with
  | Some (v, r) => match skip_ws r with [] => Some v | _ => None end
  | None => None
  end.

(** A loaded value used as [Dict[str, str]]: an object whose values are all
    strings; a repeated key keeps its last value. *)
Fixpoint dict_of_members (kvs : list (str * json))
    (acc : gmap (list N) (list N)) : option (gmap (list N) (list N)) :=
  match kvs with
  | [] => Some acc
  | (k, JString v) :: kvs' => dict_of_members kvs' (<[k := v]> acc)
  | _ => None
  end.

Definition as_cache (v : json) : option (gmap (list N) (list N)) :=
  match v with
  | JObject kvs => dict_of_members kvs ∅
  | _ => None
  end.

(** ** Paths, as [pathlib] derives them *)

Definition SLASH : char := 47.
Definition DOT : char := 46.

(** The tail of [s] that starts at the last occurrence of [d]. *)
Fixpoint rfind_tail (d : char) (s : str) : option str :=
  match s with
  | [] => None
  | c :: s' =>
      match rfind_tail d s' with
      | Some t => Some t
      | None => if c =? d then Some s else None
      end
  end.

(** [path.name]: the last component of a path as [pathlib] writes it, with
    no slash at its end and no dot component; the current directory, which
    it writes as one dot, has no name, as the root has none. *)
Definition path_name (p : str) : str :=
  match rfind_tail SLASH p with
  | Some (_ :: t) => t
  | _ => match p with
         | [c] => if c =? DOT then [] else p
         | _ => p
         end
  end.

(** [path.suffix]: from the last dot of the name, unless that dot is its
    first or its last character. *)
Definition path_suffix (p : str) : str :=
  let name := path_name p in
  match rfind_tail DOT name with
  | Some t =>
      if ((length t <? length name) && (1 <? length t))%nat then t else []
  | None => []
  end.

(** [path.with_suffix(sfx)], for a path with a name and a suffix that
    starts with a dot and has no slash.  On a path without a name, or with
    another suffix, [pathlib] raises a [ValueError]; the script derives its
    paths from one that [is_file] has accepted, which has a name, and every
    statement below about a location of its own choosing assumes that
    [path_name] of it is not empty. *)
Definition with_suffix (p sfx : str) : str :=
  take (length p - length (path_suffix p)) p ++ sfx.

Definition choose_output_path (path dest_code : str) : str :=
  let base := with_suffix path [] in
  let ext := match path_suffix path with [] => u ".a2l" | e => e end in
  base ++ u ".translated_" ++ dest_code ++ ext.

Definition cache_path_for (path dest_code : str) : str :=
  with_suffix path (u ".cache_" ++ dest_code ++ u ".json").

(** ** The world the script runs in *)

(** A regular file: whether this process may open it for reading, and its
    bytes.  Writing and renaming are taken to succeed. *)
Record file := File { readable : bool; content : list byte }.

Inductive source_tag := FromCache | FromGoogle.

(** What the script prints, by statement, with the interpolated values. *)
Inductive message :=
  | MsgBanner
  | MsgFileNotFound (path : str)
  | MsgInput (path : str)
  | MsgOutput (out_path : str)
  | MsgCache (cache_file : str) (entries : nat)
  | MsgTarget (dest : str) (language : str)
  | MsgRule
  | MsgWarnRetry (attempt limit : nat) (err : str) (sleep_s : Q)
  | MsgWarnGiveUp
  | MsgDebug (lineno : option nat) (source : source_tag) (inner out : str)
  | MsgProgress (total changed entries : nat)
  | MsgInterrupted
  | MsgPartialOutput (out_path : str)
  | MsgDone (out_path : str)
  | MsgLines (total changed : nat)
  | MsgEntries (entries : nat).

(** What an observer of the process sees, in order. *)
Inductive event :=
  | EvStdout (m : message)
  | EvStderr (m : message)
  | EvTranslate (text dest : str)
  | EvSleep (seconds : Q)
  | EvWrite (data : str)
  | EvWriteFile (path : str)
  | EvReplace (src dst : str).

Record world := World {
  files : gmap (list N) file;
  out_buffer : list byte;
  cache : gmap (list N) (list N);
  trace : list event;
  translate_calls : nat;
  clock_reads : nat;
  sigint : option nat;
}.

Definition set_files (f : gmap (list N) file) (w : world) : world :=
  World f (out_buffer w) (cache w) (trace w) (translate_calls w)
        (clock_reads w) (sigint w).
Definition set_out_buffer (b : list byte) (w : world) : world :=
  World (files w) b (cache w) (trace w) (translate_calls w)
        (clock_reads w) (sigint w).
Definition set_cache (c : gmap (list N) (list N)) (w : world) : world :=
  World (files w) (out_buffer w) c (trace w) (translate_calls w)
        (clock_reads w) (sigint w).
Definition set_trace (t : list event) (w : world) : world :=
  World (files w) (out_buffer w) (cache w) t (translate_calls w)
        (clock_reads w) (sigint w).
Definition set_translate_calls (n : nat) (w : world) : world :=
  World (files w) (out_buffer w) (cache w) (trace w) n
        (clock_reads w) (sigint w).
Definition set_clock_reads (n : nat) (w : world) : world :=
  World (files w) (out_buffer w) (cache w) (trace w) (translate_calls w)
        n (sigint w).
Definition set_sigint (s : option nat) (w : world) : world :=
  World (files w) (out_buffer w) (cache w) (trace w) (translate_calls w)
        (clock_reads w) s.

(** ** Computations: state and Python exceptions *)

Inductive exn :=
  | KeyboardInterrupt
  | SystemExit (code : Z)
  | Exception (what : str).

Inductive res (A : Type) :=
  | Ok (a : A)
  | Raise (e : exn).
Arguments Ok {A} a.
Arguments Raise {A} e.

Definition M (A : Type) : Type := world → res A * world.

#[global] Instance M_ret : MRet M := λ A a w, (Ok a, w).
#[global] Instance M_bind : MBind M := λ A B f m w,
  match m w with
  | (Ok a, w') => f a w'
  | (Raise e, w') => (Raise e, w')
  end.

Definition raise {A} (e : exn) : M A := λ w, (Raise e, w).
Definition get_world : M world := λ w, (Ok w, w).
Definition modify (f : world → world) : M unit := λ w, (Ok (), f w).
Definition emit (e : event) : M unit :=
  modify (λ w, set_trace (trace w ++ [e]) w).

(** [try: body / except Exception as e: handler e]. *)
Definition try_except_Exception {A} (body : M A) (handler : str → M A) : M A :=
  λ w, match body w with
       | (Raise (Exception e), w') => handler e w'
       | r => r
       end.

(** [try: body / except KeyboardInterrupt: handler]. *)
Definition try_except_KeyboardInterrupt {A} (body : M A) (handler : M A) : M A :=
  λ w, match body w with
       | (Raise KeyboardInterrupt, w') => handler w'
       | r => r
       end.

(** A point where a pending operator interruption is delivered:
    [sigint = Some n] raises [KeyboardInterrupt] at the [n]-th point from
    now, counting from zero. *)
Definition checkpoint : M unit := λ w,
  match sigint w with
  | None => (Ok (), w)
  | Some O => (Raise KeyboardInterrupt, set_sigint None w)
  | Some (S n) => (Ok (), set_sigint (Some n) w)
  end.

(** ** Files *)

(** [Path.is_file()] in a world where every path either names a regular
    file or names nothing.  A location whose [stat] fails for another
    reason than absence (a name that is too long, a directory that cannot
    be searched) makes [is_file] raise [OSError]; this world has no such
    location. *)
Definition is_file (fs : gmap (list N) file) (p : str) : bool :=
  match fs !! p with Some _ => true | None => false end.

(** A file this process has written, closed: it can read it back. *)
Definition write_content (p : str) (bs : list byte)
    (fs : gmap (list N) file) : gmap (list N) file :=
  <[p := File true bs]> fs.

(** [src.replace(dst)]. *)
Definition replace_file (src dst : str)
    (fs : gmap (list N) file) : gmap (list N) file :=
  match fs !! src with
  | Some f => <[dst := f]> (delete src fs)
  | None => fs
  end.

(** ** The cache file *)

Definition empty_dict : json := JObject [].

Definition load_cache (cache_file : str) : M json :=
  w ← get_world;
  if is_file (files w) cache_file then
    try_except_Exception
      (match files w !! cache_file with
       | Some f =>
           if readable f then
             match utf8_decode (content f) with
             | Some text =>
                 match json_loads (universal_newlines text) with
                 | Some v => mret v
                 | None => raise (Exception (u "JSONDecodeError"))
                 end
             | None => raise (Exception (u "UnicodeDecodeError"))
             end
           else raise (Exception (u "PermissionError"))
       | None => raise (Exception (u "FileNotFoundError"))
       end)
      (λ _, mret empty_dict)
  else mret empty_dict.

(** [f.write(chunk)] for each chunk of [json.dump], on a UTF-8 text file:
    the bytes that reach the file, and whether a chunk failed to encode. *)
Fixpoint write_chunks (chunks : list str) (acc : list byte)
    : res unit * list byte :=
  match chunks with
  | [] => (Ok (), acc)
  | c :: cs =>
      match utf8_encode c with
      | Some bs => write_chunks cs (acc ++ bs)
      | None => (Raise (Exception (u "UnicodeEncodeError")), acc)
      end
  end.

Definition tmp_path (cache_file : str) : str :=
  with_suffix cache_file (path_suffix cache_file ++ u ".tmp").

Definition save_cache (cache_file : str)
    (cache_ : gmap (list N) (list N)) : M unit :=
  let tmp := tmp_path cache_file in
  _ ← emit (EvWriteFile tmp);
  let '(r, bs) := write_chunks (dump_chunks (map_to_list cache_)) [] in
  _ ← modify (λ w, set_files (write_content tmp bs (files w)) w);
  match r with
  | Ok _ =>
      _ ← emit (EvReplace tmp cache_file);
      modify (λ w, set_files (replace_file tmp cache_file (files w)) w)
  | Raise e => raise e
  end.

(** A cache all of whose texts are encodable. *)
Definition encodable_cache (m : gmap (list N) (list N)) : Prop :=
  ∀ k v, m !! k = Some v → encodable k = true ∧ encodable v = true.

(** What the file at a location stands for as a cache: the value decoded
    from it, or the empty dict when there is no file, it cannot be read, or
    its bytes are not UTF-8 or not JSON. *)
Definition cache_file_value (fs : gmap (list N) file) (cache_file : str) : json :=
  match fs !! cache_file with
  | Some f =>
      if readable f then
        match utf8_decode (content f) with
        | Some text => default empty_dict (json_loads (universal_newlines text))
        | None => empty_dict
        end
      else empty_dict
  | None => empty_dict
  end.

(** ** Constants of the script *)

Definition CACHE_SAVE_INTERVAL_SEC : Q := 5.
Definition RETRY_LIMIT : nat := 5.
Definition BASE_BACKOFF : Q := 3 # 4.
Definition PROGRESS_EVERY_LINES : nat := 200.

(** [BASE_BACKOFF * (2 ** attempt)]. *)
Definition backoff (attempt : nat) : Q :=
  (BASE_BACKOFF * inject_Z (2 ^ Z.of_nat attempt))%Q.

(** [trunc] of the debug trace. *)
Definition trunc (s : str) : str :=
  if (length s <=? 180)%nat then s else take 180 s ++ [8230].

Record counters := Counters {
  total_lines : nat;
  changed_lines : nat;
  last_save : Q;
}.

Section Pipeline.

(** The external capability: what the [n]-th call of
    [translator.translate(text, dest=dest_code)] does, either the [.text]
    of its result or the exception it raises. *)
Variable google : nat → list N → list N → list N + list N.

(** The [n]-th reading of [time.time()]. *)
Variable clock : nat → Q.

(** [googletrans.LANGUAGES]. *)
Variable LANGUAGES : list N → option (list N).

Definition translator_translate (text dest_code : str) : M str :=
  _ ← checkpoint;
  w ← get_world;
  _ ← emit (EvTranslate text dest_code);
  _ ← modify (λ w, set_translate_calls (S (translate_calls w)) w);
  match google (translate_calls w) text dest_code with
  | inl t => mret t
  | inr e => raise (Exception e)
  end.

Definition time_sleep (seconds : Q) : M unit :=
  _ ← checkpoint;
  emit (EvSleep seconds).

Definition time_time : M Q :=
  w ← get_world;
  _ ← modify (λ w, set_clock_reads (S (clock_reads w)) w);
  mret (clock (clock_reads w)).

(** The body of [for attempt in range(RETRY_LIMIT)], over the attempts
    still to make. *)
Fixpoint retry_loop (attempts : list nat) (text dest_code : str) : M str :=
  match attempts with
  | [] =>
      _ ← emit (EvStderr MsgWarnGiveUp);
      mret text
  | attempt :: attempts' =>
      try_except_Exception
        (translator_translate text dest_code)
        (λ e,
          let sleep_s := backoff attempt in
          _ ← emit (EvStderr (MsgWarnRetry (attempt + 1) RETRY_LIMIT e sleep_s));
          _ ← time_sleep sleep_s;
          retry_loop attempts' text dest_code)
  end.

Definition translate_text_frag (text dest_code : str) : M str :=
  retry_loop (seq 0 RETRY_LIMIT) text dest_code.

(** [_repl(m)] on a match whose group is [inner]: the replacement, and
    whether it sets [changed]. *)
Definition _repl (dest : str) (debug : bool) (lineno : option nat)
    (inner : str) : M (str * bool) :=
  if is_inert inner then mret (quoted inner, false)
  else
    w ← get_world;
    '(out, source) ←
      match cache w !! inner with
      | Some out => mret (out, FromCache)
      | None =>
          out ← translate_text_frag inner dest;
          _ ← modify (λ w, set_cache (<[inner := out]> (cache w)) w);
          mret (out, FromGoogle)
      end;
    _ ← (if debug
         then emit (EvStdout (MsgDebug lineno source (trunc inner) (trunc out)))
         else mret ());
    mret (quoted out, bool_decide (out ≠ inner)).

(** [QUOTE_RE.sub(repl, line)] over the segments of the line. *)
Fixpoint sub_segments (repl : str → M (str * bool)) (xs : list seg)
    : M (str * bool) :=
  match xs with
  | [] => mret ([], false)
  | Lit c :: xs' =>
      '(t, chg) ← sub_segments repl xs';
      mret (c :: t, chg)
  | Frag inner :: xs' =>
      '(r, chg1) ← repl inner;
      '(t, chg2) ← sub_segments repl xs';
      mret (r ++ t, chg1 || chg2)
  end.

Definition translate_line (line dest : str) (debug : bool)
    (lineno : option nat) : M (str * bool) :=
  if negb (has_quote line) then mret (line, false)
  else sub_segments (_repl dest debug lineno) (scan line).

(** ** The loop of [main] *)

(** [fout.write(s)] on the Latin-1 output, errors ignored. *)
Definition fout_write (s : str) : M unit :=
  _ ← emit (EvWrite s);
  modify (λ w, set_out_buffer (out_buffer w ++ latin1_bytes s) w).

(** The branch of the loop body that writes the line out. *)
Definition write_line (dest : str) (debug : bool) (lineno : nat)
    (line : str) : M bool :=
  if has_quote line then
    '(new_line, chg) ← translate_line (rstrip_lf line) dest debug (Some lineno);
    _ ← fout_write (new_line ++ [LF]);
    mret chg
  else
    _ ← fout_write line;
    mret false.

(** The periodic cache save: the new value of [last_save]. *)
Definition periodic_save (cache_file : str) (last : Q) : M Q :=
  now ← time_time;
  if Qle_bool CACHE_SAVE_INTERVAL_SEC (now - last) then
    w ← get_world;
    _ ← save_cache cache_file (cache w);
    mret now
  else mret last.

(** The progress summary. *)
Definition report_progress (debug : bool) (total changed : nat) : M unit :=
  if (Nat.eqb (total mod PROGRESS_EVERY_LINES) 0) && negb debug then
    w ← get_world;
    emit (EvStdout (MsgProgress total changed (size (cache w))))
  else mret ().

Definition process_line (dest cache_file : str) (debug : bool)
    (lineno : nat) (line : str) (st : counters) : M counters :=
  let total := S (total_lines st) in
  chg ← write_line dest debug lineno line;
  let changed := if chg : bool then S (changed_lines st) else changed_lines st in
  _ ← checkpoint;
  last ← periodic_save cache_file (last_save st);
  _ ← report_progress debug total changed;
  mret (Counters total changed last).

(** [for lineno, line in enumerate(fin, 1)]. *)
Fixpoint process_lines (dest cache_file : str) (debug : bool)
    (lineno : nat) (lines : list str) (st : counters) : M counters :=
  match lines with
  | [] => mret st
  | line :: lines' =>
      _ ← checkpoint;
      st' ← process_line dest cache_file debug lineno line st;
      process_lines dest cache_file debug (S lineno) lines' st'
  end.

(** [with path.open(r) as fin, out_path.open(w) as fout: body]: the
    output is created or truncated, the body sees the lines of the input,
    and whatever was written reaches the file when the block is left,
    by its end or by an exception. *)
Definition with_files {A} (path out_path : str)
    (body : list str → M A) : M A :=
  w ← get_world;
  match files w !! path with
  | None => raise (Exception (u "FileNotFoundError"))
  | Some f =>
      if readable f then
        _ ← modify (λ w,
               set_out_buffer [] (set_files (write_content out_path [] (files w)) w));
        w1 ← get_world;
        match files w1 !! path ≫= (λ f1, file_lines (content f1)) with
        | None => raise (Exception (u "UnicodeDecodeError"))
        | Some lines =>
            λ w2,
              let '(r, w3) := body lines w2 in
              (r, set_files (write_content out_path (out_buffer w3) (files w3)) w3)
        end
      else raise (Exception (u "PermissionError"))
  end.

(** The handler of [except KeyboardInterrupt]. *)
Definition on_interrupt {A} (cache_file out_path : str) : M A :=
  _ ← emit (EvStdout MsgInterrupted);
  w ← get_world;
  _ ← save_cache cache_file (cache w);
  _ ← emit (EvStdout (MsgPartialOutput out_path));
  raise (SystemExit 1).

(** The final save and the summary. *)
Definition finish (cache_file out_path : str) (st : counters) : M unit :=
  w ← get_world;
  _ ← save_cache cache_file (cache w);
  _ ← emit (EvStdout MsgRule);
  _ ← emit (EvStdout (MsgDone out_path));
  _ ← emit (EvStdout (MsgLines (total_lines st) (changed_lines st)));
  _ ← emit (EvStdout (MsgEntries (size (cache w))));
  emit (EvStdout MsgRule).

(** The [try] block of [main] with its handler. *)
Definition run_loop (path dest : str) (debug : bool) (last : Q) : M counters :=
  let out_path := choose_output_path path dest in
  let cache_file := cache_path_for path dest in
  try_except_KeyboardInterrupt
    (with_files path out_path (λ lines,
       process_lines dest cache_file debug 1 lines (Counters 0 0 last)))
    (on_interrupt cache_file out_path).

(** The header [main] prints once the cache is loaded. *)
Definition header (path dest : str) (c : gmap (list N) (list N)) : list event :=
  [EvStdout (MsgInput path);
   EvStdout (MsgOutput (choose_output_path path dest));
   EvStdout (MsgCache (cache_path_for path dest) (size c));
   EvStdout (MsgTarget dest (default (u "unknown") (LANGUAGES dest)));
   EvStdout MsgRule].

(** [main], from the resolved path, destination code and debug flag on
    (the command line, the prompts and [normalize_lang] come before). *)
Definition main (path dest : str) (debug : bool) : M unit :=
  _ ← emit (EvStdout MsgBanner);
  w ← get_world;
  if negb (is_file (files w) path) then
    _ ← emit (EvStderr (MsgFileNotFound path));
    raise (SystemExit 1)
  else
    let out_path := choose_output_path path dest in
    let cache_file := cache_path_for path dest in
    loaded ← load_cache cache_file;
    match as_cache loaded with
    | None =>
        (* a cache file that holds another JSON value than an object of
           strings: the script goes on with that value as its cache (a
           number found there is written as it is, a list fails at the
           first store); such a run is not followed here, and every
           statement about a run of main assumes a cache file that is
           absent, corrupt or an object of strings *)
        raise (Exception (u "not modelled"))
    | Some c =>
        _ ← modify (set_cache c);
        last ← time_time;
        _ ← modify (λ w, set_trace (trace w ++ header path dest c) w);
        st ← run_loop path dest debug last;
        finish cache_file out_path st
    end.

End Pipeline.

(** ** Reading a trace *)

Definition sleeps_of (tr : list event) : list Q :=
  omap (λ e, match e with EvSleep d => Some d | _ => None end) tr.

Definition calls_of (tr : list event) : list (list N * list N) :=
  omap (λ e, match e with EvTranslate t d => Some (t, d) | _ => None end) tr.

Definition retry_warnings_of (tr : list event) : list (nat * Q) :=
  omap (λ e, match e with
             | EvStderr (MsgWarnRetry a _ _ s) => Some (a, s)
             | _ => None
             end) tr.

Definition give_ups_of (tr : list event) : nat :=
  length (omap (λ e, match e with
                     | EvStderr MsgWarnGiveUp => Some ()
                     | _ => None
                     end) tr).

Definition writes_of (tr : list event) : list (list N) :=
  omap (λ e, match e with EvWrite s => Some s | _ => None end) tr.

Definition replaces_of (tr : list event) : list (list N * list N) :=
  omap (λ e, match e with EvReplace a b => Some (a, b) | _ => None end) tr.

(** The events of one failed attempt of [translate_text_frag]. *)
Definition failed_attempt (text dest : str) (errs : nat → list N)
    (i : nat) : list event :=
  [EvTranslate text dest;
   EvStderr (MsgWarnRetry (i + 1) RETRY_LIMIT (errs i) (backoff i));
   EvSleep (backoff i)].

(** The world after more events and more calls of the translator. *)
Definition after_events (tr : list event) (calls : nat) (w : world) : world :=
  set_translate_calls (translate_calls w + calls) (set_trace (trace w ++ tr) w).

(** The world after a flush that went through. *)
Definition flushed (cache_file : list N) (bs : list byte) (w : world) : world :=
  set_files (<[cache_file := File true bs]> (delete (tmp_path cache_file) (files w)))
    (set_trace (trace w ++ [EvWriteFile (tmp_path cache_file);
                            EvReplace (tmp_path cache_file) cache_file]) w).

(** A world where nothing has happened yet. *)
Definition idle_world (fs : gmap (list N) file) : world :=
  World fs [] ∅ [] 0 0 None.

(** A translator that fails [k] times and then answers [t]. *)
Definition flaky (k : nat) (t : list N) : nat → list N → list N → list N + list N :=
  λ n _ _, if (n <? k)%nat then inr (u "timeout") else inl t.

(** ** Frames

    Two segmentations have the same frame when they agree on every
    character outside the matches and have their matches at the same
    places: only what is between the quotes of a match may differ. *)
Definition same_frame (a b : seg) : Prop :=
  match a, b with
  | Lit c, Lit d => c = d
  | Frag _, Frag _ => True
  | _, _ => False
  end.

Definition frame_eq (xs ys : list seg) : Prop := Forall2 same_frame xs ys.

(** [out] is [inp] with only the contents of its matches replaced. *)
Definition only_fragments_differ (inp out : str) : Prop :=
  ∃ ys, frame_eq (scan inp) ys ∧ out = render ys.

(** What [main] writes for a line it has read. *)
Definition line_image (line record : str) : Prop :=
  if has_quote line
  then ∃ ys, frame_eq (scan (rstrip_lf line)) ys ∧ record = render ys ++ [LF]
  else record = line.

(** The frame of a line is kept in its record; nothing is said of a line
    that has a quote and no line end. *)
Definition line_kept (line record : list N) : Prop :=
  (has_quote line = true → last line = Some LF) →
  only_fragments_differ line record.

(** ** What a run may change

    The outcome of a run, by kind: a value in [Q], an operator interruption
    (one was pending and has been delivered), an [Exception] if [E] allows
    it; never a [SystemExit]. *)
Definition outcome {A} (w : world) (r : res A) (w' : world)
    (Q : A → Prop) (E : Prop) : Prop :=
  match r with
  | Ok a => Q a
  | Raise KeyboardInterrupt => is_Some (sigint w) ∧ sigint w' = None
  | Raise (Exception _) => E
  | Raise (SystemExit _) => False
  end.

(** Every run of [m] is an [R]-step with such an outcome. *)
Definition spec (R : world → world → Prop) {A} (m : M A)
    (Q : A → Prop) (E : Prop) : Prop :=
  ∀ w r w', m w = (r, w') → R w w' ∧ outcome w r w' Q E.

(** The events of [translate_text_frag] on [text]. *)
Definition frag_event (text : str) (e : event) : Prop :=
  match e with
  | EvTranslate t _ => t = text
  | EvStderr (MsgWarnRetry _ _ _ _) | EvStderr MsgWarnGiveUp | EvSleep _ => True
  | _ => False
  end.

(** A step of [translate_text_frag]: diagnostics, calls and the pending
    interruption only. *)
Definition calm_step (text : str) (w w' : world) : Prop :=
  files w' = files w ∧ out_buffer w' = out_buffer w ∧ cache w' = cache w
  ∧ clock_reads w' = clock_reads w
  ∧ (sigint w = None → sigint w' = None)
  ∧ ∃ tr, trace w' = trace w ++ tr ∧ Forall (frag_event text) tr.

(** The events of [translate_line]: the translator is only ever called on
    text that is not inert. *)
Definition quiet_event (e : event) : Prop :=
  match e with
  | EvTranslate t _ => is_inert t = false
  | EvStderr (MsgWarnRetry _ _ _ _) | EvStderr MsgWarnGiveUp | EvSleep _
  | EvStdout (MsgDebug _ _ _ _) => True
  | _ => False
  end.

(** A step of [translate_line]: besides, the cache may grow, by keys that
    are not inert. *)
Definition quiet_step (w w' : world) : Prop :=
  files w' = files w ∧ out_buffer w' = out_buffer w
  ∧ clock_reads w' = clock_reads w
  ∧ cache w ⊆ cache w'
  ∧ (∀ k, is_inert k = true → cache w' !! k = cache w !! k)
  ∧ (sigint w = None → sigint w' = None)
  ∧ ∃ tr, trace w' = trace w ++ tr ∧ Forall quiet_event tr.

(** Matches whose group is inert stay as they are. *)
Definition inert_kept (xs ys : list seg) : Prop :=
  Forall2 (λ x y, match x with
                  | Frag inner => is_inert inner = true → y = x
                  | Lit _ => True
                  end) xs ys.

(** The world after the debug trace of [_repl], if enabled. *)
Definition traced (debug : bool) (lineno : option nat) (source : source_tag)
    (inner out : str) (w : world) : world :=
  if debug
  then set_trace (trace w ++ [EvStdout (MsgDebug lineno source (trunc inner) (trunc out))]) w
  else w.

(** A step of the loop of [main], with the events it adds: the output
    grows by what was written, no file changes but the cache file and its
    temporary, the cache only grows. *)
Definition loop_step (cache_file : str) (tr : list event) (w w' : world) : Prop :=
  trace w' = trace w ++ tr
  ∧ out_buffer w' = out_buffer w ++ latin1_bytes (concat (writes_of tr))
  ∧ (∀ p, p ≠ cache_file → p ≠ tmp_path cache_file → files w' !! p = files w !! p)
  ∧ cache w ⊆ cache w'
  ∧ (∀ k, is_inert k = true → cache w' !! k = cache w !! k)
  ∧ (sigint w = None → sigint w' = None).

(** A part of the loop body has written the image of [line], and nothing
    else. *)
Definition wrote (line : list N) (tr : list event) : Prop :=
  ∃ record, writes_of tr = [record] ∧ line_image line record.

(** The lines [main] reads from the bytes of its input. *)
Definition input_lines (bs : list byte) : list (list N) :=
  iter_lines (universal_newlines (map Byte.to_N bs)).

(** The world at the beginning of the [try] block of [main]. *)
Definition at_loop (LANGUAGES : list N → option (list N)) (path dest : list N)
    (c : gmap (list N) (list N)) (w : world) : world :=
  World (files w) (out_buffer w) c
    (trace w ++ EvStdout MsgBanner :: header LANGUAGES path dest c)
    (translate_calls w) (S (clock_reads w)) (sigint w).

(** Leaving the [with] block: what was written reaches the output file. *)
Definition closed (out_path : list N) (w : world) : world :=
  set_files (write_content out_path (out_buffer w) (files w)) w.

(** Entering it: the output file is created or truncated. *)
Definition opened (out_path : list N) (w : world) : world :=
  set_out_buffer [] (set_files (write_content out_path [] (files w)) w).


Section MainCases.

Variable google : nat → list N → list N → list N + list N.
Variable clock : nat → Q.
Variable LANGUAGES : list N → option (list N).

(** The ways [main] can go. *)
Inductive main_case (path dest : list N) (debug : bool) (w : world)
    : res unit → world → Prop :=
  | Main_no_input w' :
      files w !! path = None →
      files w' = files w → sigint w' = sigint w →
      main_case path dest debug w (Raise (SystemExit 1)) w'
  | Main_bad_cache f w' :
      files w !! path = Some f →
      as_cache (cache_file_value (files w) (cache_path_for path dest)) = None →
      files w' = files w → sigint w' = sigint w →
      main_case path dest debug w (Raise (Exception (u "not modelled"))) w'
  | Main_unreadable f c :
      files w !! path = Some f → readable f = false →
      as_cache (cache_file_value (files w) (cache_path_for path dest)) = Some c →
      main_case path dest debug w (Raise (Exception (u "PermissionError")))
        (at_loop LANGUAGES path dest c w)
  | Main_loop f c rl wl r w' :
      files w !! path = Some f → readable f = true →
      as_cache (cache_file_value (files w) (cache_path_for path dest)) = Some c →
      process_lines google clock dest (cache_path_for path dest) debug 1
        (input_lines (content f)) (Counters 0 0 (clock (clock_reads w)))
        (opened (choose_output_path path dest) (at_loop LANGUAGES path dest c w))
      = (rl, wl) →
      match rl with
      | Ok st =>
          finish (cache_path_for path dest) (choose_output_path path dest) st
            (closed (choose_output_path path dest) wl) = (r, w')
      | Raise KeyboardInterrupt =>
          @on_interrupt unit (cache_path_for path dest) (choose_output_path path dest)
            (closed (choose_output_path path dest) wl) = (r, w')
      | Raise e => r = Raise e ∧ w' = closed (choose_output_path path dest) wl
      end →
      main_case path dest debug w r w'.

End MainCases.

(** ** A warm cache

    What a line becomes when every fragment to translate is a cache hit. *)
Definition subst_seg (m : gmap (list N) (list N)) (x : seg) : list N :=
  match x with
  | Lit c => [c]
  | Frag inner =>
      if is_inert inner then quoted inner
      else quoted (default inner (m !! inner))
  end.

Definition subst_line (m : gmap (list N) (list N)) (line : list N) : list N :=
  if has_quote line then concat (map (subst_seg m) (scan line)) else line.

(** The record [main] writes for a line, under a warm cache. *)
Definition record_of (m : gmap (list N) (list N)) (line : list N) : list N :=
  if has_quote line then subst_line m (rstrip_lf line) ++ [LF] else line.

(** Every fragment of the segments that is not inert is a key of [m]. *)
Definition warm_segs (m : gmap (list N) (list N)) (xs : list seg) : Prop :=
  ∀ inner, Frag inner ∈ xs → is_inert inner = false → is_Some (m !! inner).

(** The cache is warm for the lines [main] is to process. *)
Definition warm (m : gmap (list N) (list N)) (lines : list (list N)) : Prop :=
  ∀ line, line ∈ lines → has_quote line = true →
    warm_segs m (scan (rstrip_lf line)).

(** Only diagnostics were added: no call, nothing written. *)
Definition only_traced (w w' : world) : Prop :=
  files w' = files w ∧ out_buffer w' = out_buffer w ∧ cache w' = cache w
  ∧ translate_calls w' = translate_calls w ∧ clock_reads w' = clock_reads w
  ∧ sigint w' = sigint w
  ∧ ∃ tr, trace w' = trace w ++ tr ∧ calls_of tr = [] ∧ writes_of tr = [].

(** A step of the loop under a warm cache: no call, the cache as it was. *)
Definition warm_step (cache_file : list N) (tr : list event) (w w' : world) : Prop :=
  loop_step cache_file tr w w'
  ∧ cache w' = cache w ∧ translate_calls w' = translate_calls w
  ∧ calls_of tr = [] ∧ sigint w' = sigint w.

(** Decision procedures for [warm] and [encodable_cache]. *)
Definition warm_segsb (m : gmap (list N) (list N)) (xs : list seg) : bool :=
  forallb (λ x, match x with
                | Lit _ => true
                | Frag inner => is_inert inner || bool_decide (is_Some (m !! inner))
                end) xs.

Definition warmb (m : gmap (list N) (list N)) (lines : list (list N)) : bool :=
  forallb (λ line, negb (has_quote line) || warm_segsb m (scan (rstrip_lf line))) lines.


(** A small run: an input of two lines, one with a fragment the cache
    holds, one with an inert fragment; a translator that is out of reach,
    a clock that stands still, no language names. *)
Definition demo_path : list N := u "map.dam".
Definition demo_cache : gmap (list N) (list N) :=
  {[ u "Engine Speed" := u "Velocidad del motor" ]}.
Definition demo_input : list N :=
  u "Name " ++ quoted (u "Engine Speed") ++ [LF] ++ u "Unit " ++ quoted (u " ") ++ [LF].
Definition demo_files : gmap (list N) file :=
  {[ demo_path := File true (latin1_bytes demo_input);
     cache_path_for demo_path (u "es")
       := File true (default [] (utf8_encode (json_dumps demo_cache))) ]}.
Definition offline : nat → list N → list N → list N + list N :=
  λ _ _ _, inr (u "unreachable").
Definition frozen : nat → Q := λ _, 0%Q.
Definition no_names : list N → option (list N) := λ _, None.

(** What reads back, as Latin-1, from a text written as Latin-1 with
    errors ignored: the text without the characters above 255. *)
Definition keep (s : list N) : list N := map Byte.to_N (latin1_bytes s).

Definition keep_seg (x : seg) : seg :=
  match x with Lit c => Lit c | Frag t => Frag (keep t) end.

Definition small (c : N) : Prop := c < 256.

Definition lit_small (x : seg) : Prop :=
  match x with Lit c => small c | Frag _ => True end.

(** No line end inside. *)
Definition no_break (s : list N) : Prop := Forall (λ c, c ≠ LF ∧ c ≠ CR) s.

(** Lines as iteration over a text gives them: none empty, each ended by
    its line feed and without another, but the last one, which may lack
    it. *)
Fixpoint well_split (ls : list (list N)) : Prop :=
  match ls with
  | [] => True
  | l :: ls' =>
      match ls' with
      | [] => l ≠ [] ∧ Forall (λ c, c ≠ LF) (removelast l)
      | _ => (∃ body, l = body ++ [LF] ∧ Forall (λ c, c ≠ LF) body) ∧ well_split ls'
      end
  end.

(** The lines of a file as its bytes give them, cut after each line
    feed. *)
Definition raw_lines (bs : list byte) : list (list N) := iter_lines (map Byte.to_N bs).

(** The frame of the input is kept in the output: as many lines, and line
    by line nothing differs but the contents of the matches. *)
Definition frame_kept (inp out : list byte) : Prop :=
  Forall2 only_fragments_differ (raw_lines inp) (raw_lines out).

(** The inputs of three small runs: one with [CR LF] line ends; one whose
    last line has a match and no line end; one with a match for which the
    cache holds a text of two lines. *)
Definition crlf_input : list byte := latin1_bytes (u "a" ++ [CR; LF] ++ u "b" ++ [CR; LF]).
Definition open_input : list byte := latin1_bytes (u "say " ++ quoted (u "hi")).
Definition plain_input : list byte := latin1_bytes (u "say " ++ quoted (u "hi") ++ [LF]).

Definition files_with (input : list byte) (c : gmap (list N) (list N))
    : gmap (list N) file :=
  {[ demo_path := File true input;
     cache_path_for demo_path (u "es")
       := File true (default [] (utf8_encode (json_dumps c))) ]}.

Definition output_of (input : list byte) (c : gmap (list N) (list N))
    : res unit * option file :=
  let run := main offline frozen no_names demo_path (u "es") false
               (idle_world (files_with input c)) in
  (run.1, files run.2 !! choose_output_path demo_path (u "es")).

(** A cache file, valid JSON, whose one value is a lone surrogate, written
    as an escape. *)
Definition surrogate_cache_file : list byte :=
  latin1_bytes (u "{" ++ quoted (u "hi") ++ u ": "
                ++ quoted (BACKSLASH :: u "ud800") ++ u "}").

Definition surrogate_files : gmap (list N) file :=
  {[ demo_path := File true plain_input;
     cache_path_for demo_path (u "es") := File true surrogate_cache_file ]}.

(** ** Further notions: calls, matches, languages *)

(** [n] calls of the translator, all on [text] for [dest], and the cache
    as it was. *)
Definition calls_step (text dest : list N) (n : nat) (w w' : world) : Prop :=
  cache w' = cache w
  ∧ translate_calls w' = (translate_calls w + n)%nat
  ∧ ∃ tr, trace w' = trace w ++ tr ∧ calls_of tr = replicate n (text, dest).

(** The matches of a segmented line. *)
Definition frags_of (xs : list seg) : list (list N) :=
  omap (λ x, match x with Frag inner => Some inner | Lit _ => None end) xs.

(** What a part of a run does with the translator and the cache, given
    the matches [fs] it goes over: the cache only grows, every call is for
    [dest] on one of the matches that is not inert, and there are at most
    [RETRY_LIMIT] calls for each match. *)
Definition run_calls (dest : list N) (fs : list (list N)) (w w' : world) : Prop :=
  cache w ⊆ cache w'
  ∧ ∃ tr, trace w' = trace w ++ tr
      ∧ translate_calls w' = (translate_calls w + length (calls_of tr))%nat
      ∧ (length (calls_of tr) ≤ RETRY_LIMIT * length fs)%nat
      ∧ Forall (λ c, c.2 = dest ∧ c.1 ∈ fs ∧ is_inert c.1 = false) (calls_of tr).

(** The matches of the lines [main] reads, in order. *)
Definition frags_in (lines : list (list N)) : list (list N) :=
  concat (map (λ line, frags_of (scan (rstrip_lf line))) lines).

(** No call of the translator, and the cache as it was. *)
Definition no_calls (w w' : world) : Prop := calls_step [] [] 0 w w'.

(** The calls of a run, whatever it does to the cache. *)
Definition calls_from (dest : list N) (fs : list (list N)) (w w' : world) : Prop :=
  ∃ tr, trace w' = trace w ++ tr
    ∧ translate_calls w' = (translate_calls w + length (calls_of tr))%nat
    ∧ (length (calls_of tr) ≤ RETRY_LIMIT * length fs)%nat
    ∧ Forall (λ c, c.2 = dest ∧ c.1 ∈ fs ∧ is_inert c.1 = false) (calls_of tr).

(** Nothing but diagnostics. *)
Definition silent (w w' : world) : Prop :=
  translate_calls w' = translate_calls w
  ∧ ∃ tr, trace w' = trace w ++ tr ∧ calls_of tr = [].

(** An input of two lines without a quote. *)
Definition bare_input : list byte := latin1_bytes (u "a = 1" ++ [LF] ++ u "b = 2").

(** ** [normalize_lang] *)

(** [p in s] on strings: [p] occurs in [s]. *)
Fixpoint starts_with (s p : list N) : bool :=
  match p, s with
  | [], _ => true
  | a :: p', b :: s' => (a =? b) && starts_with s' p'
  | _ :: _, [] => false
  end.

Fixpoint contains (s p : list N) : bool :=
  starts_with s p
  || match s with
     | [] => false
     | _ :: s' => contains s' p
     end.

(** [sep.join(parts)]. *)
Fixpoint join (sep : list N) (parts : list (list N)) : list N :=
  match parts with
  | [] => []
  | [x] => x
  | x :: rest => x ++ sep ++ join sep rest
  end.

(** The two [ValueError]s of [normalize_lang], with their messages. *)
Inductive lang_error :=
  | Ambiguous (matches : list (list N))
  | Unrecognized.

Definition error_message (e : lang_error) : list N :=
  match e with
  | Ambiguous matches =>
      u "Ambiguous language name. Did you mean one of: "
      ++ join (u ", ") matches ++ u " ?"
  | Unrecognized =>
      u "Unrecognized language. Use a 2-letter code (e.g., 'en','es') or full name (e.g., 'spanish')."
  end.

(** [str.lower] on ASCII text. *)
Definition ascii_lower (s : list N) : list N :=
  map (λ c, if (65 <=? c) && (c <=? 90) then c + 32 else c) s.

(** A few entries of [googletrans.LANGUAGES]. *)
Definition some_languages : list (list N * list N) :=
  [(u "en", u "english"); (u "es", u "spanish"); (u "eo", u "esperanto")].

Section Languages.

(** [str.lower], and the items of the dict [LANGUAGES], code and name, in
    the order of the dict. *)
Variable lower : list N → list N.
Variable languages : list (list N * list N).

Definition normalize_lang (inp : list N) : list N + lang_error :=
  let s := lower (strip inp) in
  if bool_decide (s ∈ languages.*1) then inl s
  else
    match List.find (λ kv, bool_decide (s = lower kv.2)) languages with
    | Some (code, _) => inl code
    | None =>
        let matches :=
          (List.filter (λ kv, contains (lower kv.2) s) languages).*1 in
        match matches with
        | [code] => inl code
        | [] => inr Unrecognized
        | _ => inr (Ambiguous matches)
        end
    end.

End Languages.

(** The number of quotes of a text. *)
Definition count_quotes (s : list N) : nat := length (List.filter (N.eqb QUOTE) s).

(** The number of calls of the translator on the text [t] in a trace. *)
Definition calls_on (t : list N) (tr : list event) : nat :=
  length (List.filter (λ c, bool_decide (c.1 = t)) (calls_of tr)).

(** What memoising through the cache gives, over a part of a run that
    ends normally ([ok]) or not: the cache only grows; no text is sent
    more than [RETRY_LIMIT] times; a text that is sent was not in the
    cache before and, unless the part is cut short, is in it after. *)
Definition memo (ok : bool) (w w' : world) : Prop :=
  cache w ⊆ cache w'
  ∧ ∃ tr, trace w' = trace w ++ tr
      ∧ ∀ t, (calls_on t tr ≤ RETRY_LIMIT)%nat
             ∧ (calls_on t tr ≠ 0%nat →
                cache w !! t = None ∧ (ok = true → is_Some (cache w' !! t))).

(** Whether a result is a value. *)
Definition is_ok {A} (r : res A) : bool :=
  match r with Ok _ => true | Raise _ => false end.

(** * Properties *)

Example scan_measurement :
  scan (u "MEASUREMENT " ++ quoted (u "Engine Speed") ++ u " /* rpm */")
  = map Lit (u "MEASUREMENT ") ++ [Frag (u "Engine Speed")]
    ++ map Lit (u " /* rpm */").
Proof. reflexivity. Qed.

Example lines_ex :
  file_lines (map byte_of (u "A" ++ [CR; LF] ++ u "B" ++ [CR] ++ u "C"))
  = Some [u "A" ++ [LF]; u "B" ++ [LF]; u "C"].
Proof. reflexivity. Qed.

Example utf8_ex : utf8_encode [233; 8364; 128512] ≫= utf8_decode = Some [233; 8364; 128512].
Proof. reflexivity. Qed.
Example utf8_ex2 : utf8_encode [55296] = None.
Proof. reflexivity. Qed.
Example rstrip_ex : rstrip_lf (u "ab" ++ [LF; LF]) = u "ab".
Proof. reflexivity. Qed.

Example json_ex1 :
  json_loads (json_dumps {[ u "Engine Speed" := u "Velocidad del motor" ]})
  = Some (JObject [(u "Engine Speed", JString (u "Velocidad del motor"))]).
Proof. vm_compute. reflexivity. Qed.
Example json_ex2 :
  json_dumps {[ u "a" := [LF; QUOTE; 1] ]} = [123; 10; 32; 32; 34; 97; 34; 58; 32; 34; 92; 110; 92; 34; 92; 117; 48; 48; 48; 49; 34; 10; 125].
Proof. vm_compute. reflexivity. Qed.
Example json_ex3 :
  json_loads (u "  [1, -2.5e+3, {}, null, true, [ ], 0]  ") =
  Some (JArray [JNumber (u "1"); JNumber (u "-2.5e+3"); JObject []; JNull; JBool true; JArray []; JNumber (u "0")]).
Proof. vm_compute. reflexivity. Qed.
Example json_ex4 : json_loads (u "01") = None.
Proof. vm_compute. reflexivity. Qed.
Example json_ex6 : json_loads (u "1e5") = Some (JNumber (u "1e5")) /\ json_loads (u "1e") = None /\ json_loads (u "[1,]") = None.
Proof. vm_compute. auto. Qed.

(** ** Stepping through computations *)

Lemma bind_ok {A B} (m : M A) (f : A → M B) w a w' :
  m w = (Ok a, w') → (m ≫= f) w = f a w'.
Proof. intros H. unfold mbind, M_bind. by rewrite H. Qed.

Lemma bind_raise {A B} (m : M A) (f : A → M B) w e w' :
  m w = (Raise e, w') → (m ≫= f) w = (Raise e, w').
Proof. intros H. unfold mbind, M_bind. by rewrite H. Qed.

Ltac mrun :=
  unfold mbind, M_bind, mret, M_ret, emit, modify, raise, get_world; simpl.

Ltac world_eq :=
  repeat match goal with w : world |- _ => destruct w end;
  unfold after_events, set_files, set_out_buffer, set_cache, set_trace,
    set_translate_calls, set_clock_reads, set_sigint in *;
  simpl in *; subst;
  f_equal; rewrite <-?app_assoc; simpl; try done; try lia.

(** ** The retrying translator *)

Section Retry.

Variable google : nat → list N → list N → list N + list N.

Lemma translator_translate_spec text dest w :
  sigint w = None →
  translator_translate google text dest w =
    (match google (translate_calls w) text dest with
     | inl t => Ok t
     | inr e => Raise (Exception e)
     end, after_events [EvTranslate text dest] 1 w).
Proof.
  intros Hs. unfold translator_translate, checkpoint, mbind, M_bind.
  rewrite Hs. simpl. destruct (google _ _ _); f_equal; world_eq.
Qed.

Lemma retry_loop_spec text dest errs t n : ∀ a k w,
  sigint w = None →
  (k ≤ n)%nat →
  (∀ i, (i < k)%nat →
     google (translate_calls w + i)%nat text dest = inr (errs (a + i)%nat)) →
  ((k < n)%nat → google (translate_calls w + k)%nat text dest = inl t) →
  retry_loop google (seq a n) text dest w =
    (Ok (if (k <? n)%nat then t else text),
     after_events
       (concat (map (failed_attempt text dest errs) (seq a k))
        ++ (if (k <? n)%nat then [EvTranslate text dest]
            else [EvStderr MsgWarnGiveUp]))
       (if (k <? n)%nat then S k else n) w).
Proof.
  induction n as [|n IH]; intros a k w Hs Hk Hfail Hok.
  - assert (k = 0%nat) as -> by lia. simpl. mrun. f_equal. world_eq.
  - simpl. unfold try_except_Exception.
    rewrite translator_translate_spec by done.
    destruct k as [|k].
    + specialize (Hok ltac:(lia)). rewrite Nat.add_0_r in Hok. rewrite Hok.
      simpl. done.
    + pose proof (Hfail 0%nat ltac:(lia)) as H0.
      rewrite !Nat.add_0_r in H0. rewrite H0.
      unfold time_sleep, checkpoint, emit, modify, mbind, M_bind.
      simpl. rewrite Hs.
      rewrite (IH (S a) k); simpl; try done; try lia.
      * change (S k <? S n)%nat with (k <? n)%nat.
        f_equal. world_eq. destruct (k <? n)%nat; lia.
      * intros i Hi. replace (S (a + i))%nat with (a + S i)%nat by lia.
        rewrite <-(Hfail (S i)) by lia. f_equal. lia.
      * intros Hlt. rewrite <-Hok by lia. f_equal. lia.
Qed.

Lemma sleeps_of_failed text dest errs l :
  sleeps_of (concat (map (failed_attempt text dest errs) l)) = map backoff l.
Proof. induction l as [|i l IH]; simpl; [done|]. by rewrite <-IH. Qed.

Lemma retry_warnings_of_failed text dest errs l :
  retry_warnings_of (concat (map (failed_attempt text dest errs) l))
  = map (λ i, ((i + 1)%nat, backoff i)) l.
Proof. induction l as [|i l IH]; simpl; [done|]. by rewrite <-IH. Qed.

Lemma give_ups_of_failed text dest errs l :
  give_ups_of (concat (map (failed_attempt text dest errs) l)) = 0%nat.
Proof. induction l as [|i l IH]; simpl; done. Qed.

Lemma calls_of_failed text dest errs l :
  length (calls_of (concat (map (failed_attempt text dest errs) l))) = length l.
Proof.
  induction l as [|i l IH]; simpl; [done|]. by f_equal.
Qed.

(** The successive waits are the base, twice the base, four times the
    base, and so on. *)
Lemma backoff_doubles i :
  (backoff 0 == BASE_BACKOFF)%Q ∧ (backoff (S i) == 2 * backoff i)%Q.
Proof.
  split; unfold backoff; [reflexivity|].
  rewrite Nat2Z.inj_succ, Z.pow_succ_r by lia.
  rewrite inject_Z_mult. ring.
Qed.

(** C2. With a translation capability that fails exactly [k] times and
    then succeeds, and no interruption pending, [translate_text_frag]
    returns the translation after exactly [k] waits when
    [k < RETRY_LIMIT]; otherwise it returns the fragment itself after
    exactly [RETRY_LIMIT] waits.  The wait after the failed attempt
    number [i], counted from zero, is [BASE_BACKOFF] times two to the
    [i]: the base, twice the base, four times the base, and so on.  There
    is one warning for each failed attempt, with its number and its wait,
    and one final warning when it gives up.  Nothing but the diagnostics
    and the call counter changes. *)
Theorem translate_text_frag_backoff text dest (k : nat)
    (errs : nat → list N) (t : list N) (w : world) :
  sigint w = None →
  (∀ i, (i < k)%nat →
     google (translate_calls w + i)%nat text dest = inr (errs i)) →
  google (translate_calls w + k)%nat text dest = inl t →
  let failures := Nat.min k RETRY_LIMIT in
  ∃ tr,
    translate_text_frag google text dest w
    = (Ok (if (k <? RETRY_LIMIT)%nat then t else text),
       after_events tr (if (k <? RETRY_LIMIT)%nat then S k else RETRY_LIMIT) w)
    ∧ sleeps_of tr
      = map (λ i, (BASE_BACKOFF * inject_Z (2 ^ Z.of_nat i))%Q) (seq 0 failures)
    ∧ retry_warnings_of tr
      = map (λ i, ((i + 1)%nat, (BASE_BACKOFF * inject_Z (2 ^ Z.of_nat i))%Q))
          (seq 0 failures)
    ∧ give_ups_of tr = (if (k <? RETRY_LIMIT)%nat then 0 else 1)%nat
    ∧ length (calls_of tr)
      = (if (k <? RETRY_LIMIT)%nat then S k else RETRY_LIMIT).
Proof.
  intros Hs Hfail Hok failures.
  pose proof (retry_loop_spec text dest errs t RETRY_LIMIT 0 failures w Hs)
    as Hrun.
  assert ((failures <? RETRY_LIMIT) = (k <? RETRY_LIMIT))%nat as Hlt.
  { unfold failures. destruct (Nat.ltb_spec k RETRY_LIMIT).
    - rewrite Nat.min_l by lia. by apply Nat.ltb_lt.
    - rewrite Nat.min_r by lia. by apply Nat.ltb_irrefl. }
  rewrite Hlt in Hrun.
  assert ((if (k <? RETRY_LIMIT)%nat then S failures else RETRY_LIMIT)
          = (if (k <? RETRY_LIMIT)%nat then S k else RETRY_LIMIT)) as Hn.
  { unfold failures. destruct (Nat.ltb_spec k RETRY_LIMIT); [|done].
    by rewrite Nat.min_l by lia. }
  rewrite Hn in Hrun.
  eexists. split.
  { apply Hrun.
    - unfold failures. lia.
    - intros i Hi. apply Hfail. unfold failures in Hi. lia.
    - intros Hi. unfold failures in *.
      rewrite Nat.min_l by lia. rewrite Nat.min_l in Hi by lia. done. }
  unfold sleeps_of, retry_warnings_of, give_ups_of, calls_of.
  rewrite !omap_app, !length_app.
  fold (sleeps_of (concat (map (failed_attempt text dest errs) (seq 0 failures)))).
  fold (retry_warnings_of (concat (map (failed_attempt text dest errs) (seq 0 failures)))).
  fold (give_ups_of (concat (map (failed_attempt text dest errs) (seq 0 failures)))).
  fold (calls_of (concat (map (failed_attempt text dest errs) (seq 0 failures)))).
  rewrite sleeps_of_failed, retry_warnings_of_failed, give_ups_of_failed,
    calls_of_failed, length_seq.
  destruct (k <? RETRY_LIMIT)%nat eqn:E; simpl; rewrite ?app_nil_r;
    repeat split; try done.
  - apply Nat.ltb_lt in E. unfold failures. rewrite Nat.min_l by lia. lia.
  - apply Nat.ltb_ge in E. unfold failures. rewrite Nat.min_r by lia. lia.
Qed.

End Retry.

(** ** UTF-8 *)

Lemma to_N_byte_of n : n < 256 → Byte.to_N (byte_of n) = n.
Proof.
  intros Hn. unfold byte_of. destruct (Byte.of_N n) as [b|] eqn:E; simpl.
  - by apply Byte.to_of_N in E.
  - apply Byte.of_N_None_iff in E. lia.
Qed.

Lemma split64 c : ∃ q r, c / 64 = q ∧ c mod 64 = r ∧ c = 64 * q + r ∧ r < 64.
Proof.
  exists (c / 64), (c mod 64). repeat split; [apply N.div_mod; lia | apply N.mod_lt; lia].
Qed.

Ltac bool_true := symmetry; rewrite ?andb_true_iff, ?N.leb_le, ?N.ltb_lt; lia.
Ltac bool_false :=
  symmetry; rewrite ?andb_false_iff, ?N.leb_gt, ?N.ltb_ge; lia.

Lemma utf8_decode_1 b r :
  Byte.to_N b < 128 →
  utf8_decode (b :: r) = cons (Byte.to_N b) <$> utf8_decode r.
Proof. intros H. cbn [utf8_decode]. by replace (Byte.to_N b <? 128) with true by bool_true. Qed.

Lemma utf8_decode_2 b0 b1 r :
  194 <= Byte.to_N b0 <= 223 → 128 <= Byte.to_N b1 <= 191 →
  utf8_decode (b0 :: b1 :: r)
  = cons ((Byte.to_N b0 - 192) * 64 + (Byte.to_N b1 - 128)) <$> utf8_decode r.
Proof.
  intros H0 H1. cbn [utf8_decode]. unfold is_cont.
  replace (Byte.to_N b0 <? 128) with false by bool_false.
  replace ((194 <=? Byte.to_N b0) && (Byte.to_N b0 <=? 223)) with true by bool_true.
  by replace ((128 <=? Byte.to_N b1) && (Byte.to_N b1 <=? 191)) with true by bool_true.
Qed.

Lemma utf8_decode_3 b0 b1 b2 r :
  let c := (Byte.to_N b0 - 224) * 4096 + (Byte.to_N b1 - 128) * 64
           + (Byte.to_N b2 - 128) in
  224 <= Byte.to_N b0 <= 239 → 128 <= Byte.to_N b1 <= 191 →
  128 <= Byte.to_N b2 <= 191 → 2048 <= c → is_surrogate c = false →
  utf8_decode (b0 :: b1 :: b2 :: r) = cons c <$> utf8_decode r.
Proof.
  intros c H0 H1 H2 Hc Hs. cbn [utf8_decode]. unfold is_cont. fold c.
  replace (Byte.to_N b0 <? 128) with false by bool_false.
  replace ((194 <=? Byte.to_N b0) && (Byte.to_N b0 <=? 223)) with false by bool_false.
  replace ((224 <=? Byte.to_N b0) && (Byte.to_N b0 <=? 239)) with true by bool_true.
  replace ((128 <=? Byte.to_N b1) && (Byte.to_N b1 <=? 191)) with true by bool_true.
  replace ((128 <=? Byte.to_N b2) && (Byte.to_N b2 <=? 191)) with true by bool_true.
  replace (2048 <=? c) with true by bool_true.
  by rewrite Hs.
Qed.

Lemma utf8_decode_4 b0 b1 b2 b3 r :
  let c := (Byte.to_N b0 - 240) * 262144 + (Byte.to_N b1 - 128) * 4096
           + (Byte.to_N b2 - 128) * 64 + (Byte.to_N b3 - 128) in
  240 <= Byte.to_N b0 <= 244 → 128 <= Byte.to_N b1 <= 191 →
  128 <= Byte.to_N b2 <= 191 → 128 <= Byte.to_N b3 <= 191 →
  65536 <= c < 1114112 →
  utf8_decode (b0 :: b1 :: b2 :: b3 :: r) = cons c <$> utf8_decode r.
Proof.
  intros c H0 H1 H2 H3 Hc. cbn [utf8_decode]. unfold is_cont. fold c.
  replace (Byte.to_N b0 <? 128) with false by bool_false.
  replace ((194 <=? Byte.to_N b0) && (Byte.to_N b0 <=? 223)) with false by bool_false.
  replace ((224 <=? Byte.to_N b0) && (Byte.to_N b0 <=? 239)) with false by bool_false.
  replace ((240 <=? Byte.to_N b0) && (Byte.to_N b0 <=? 244)) with true by bool_true.
  replace ((128 <=? Byte.to_N b1) && (Byte.to_N b1 <=? 191)) with true by bool_true.
  replace ((128 <=? Byte.to_N b2) && (Byte.to_N b2 <=? 191)) with true by bool_true.
  replace ((128 <=? Byte.to_N b3) && (Byte.to_N b3 <=? 191)) with true by bool_true.
  replace (65536 <=? c) with true by bool_true.
  by replace (c <? 1114112) with true by bool_true.
Qed.

Lemma utf8_decode_encode_char c bs rest :
  utf8_encode_char c = Some bs →
  utf8_decode (bs ++ rest) = cons c <$> utf8_decode rest.
Proof.
  unfold utf8_encode_char.
  destruct (N.ltb_spec c 128) as [H1|H1].
  { intros [= <-]. cbn [app]. rewrite utf8_decode_1; rewrite to_N_byte_of by lia; done. }
  replace (c / 262144) with (c / 64 / 64 / 64) by (by rewrite !N.Div0.div_div).
  replace (c / 4096) with (c / 64 / 64) by (by rewrite !N.Div0.div_div).
  destruct (split64 c) as (q0 & r0 & -> & -> & Hc0 & Hr0).
  destruct (split64 q0) as (q1 & r1 & -> & -> & Hc1 & Hr1).
  destruct (split64 q1) as (q2 & r2 & -> & -> & Hc2 & Hr2).
  destruct (N.ltb_spec c 2048) as [H2|H2].
  { intros [= <-]. cbn [app].
    rewrite utf8_decode_2; rewrite !to_N_byte_of by lia; try lia.
    do 2 f_equal. lia. }
  destruct (N.ltb_spec c 65536) as [H3|H3].
  { destruct (is_surrogate c) eqn:Hs; [discriminate|].
    intros [= <-]. cbn [app].
    assert ((224 + q1 - 224) * 4096 + (128 + r1 - 128) * 64 + (128 + r0 - 128) = c)
      as Hc by lia.
    rewrite utf8_decode_3; rewrite !to_N_byte_of by lia; rewrite ?Hc; try done; lia. }
  destruct (N.ltb_spec c 1114112) as [H4|H4]; [|discriminate].
  intros [= <-]. cbn [app].
  assert ((240 + q2 - 240) * 262144 + (128 + r2 - 128) * 4096
           + (128 + r1 - 128) * 64 + (128 + r0 - 128) = c)
    as Hc by lia.
  rewrite utf8_decode_4; rewrite !to_N_byte_of by lia; rewrite ?Hc; try done; lia.
Qed.

Lemma utf8_decode_encode s : ∀ bs,
  utf8_encode s = Some bs → utf8_decode bs = Some s.
Proof.
  induction s as [|c s IH]; intros bs; simpl.
  - by intros [= <-].
  - destruct (utf8_encode_char c) as [b1|] eqn:E1; [|discriminate].
    destruct (utf8_encode s) as [b2|] eqn:E2; [|discriminate].
    intros [= <-]. rewrite (utf8_decode_encode_char _ _ _ E1), (IH _ eq_refl).
    reflexivity.
Qed.

Lemma utf8_encode_app s t :
  utf8_encode (s ++ t)
  = match utf8_encode s, utf8_encode t with
    | Some a, Some b => Some (a ++ b)
    | _, _ => None
    end.
Proof.
  induction s as [|c s IH]; simpl.
  - by destruct (utf8_encode t).
  - rewrite IH. destruct (utf8_encode_char c), (utf8_encode s), (utf8_encode t);
      try done. by rewrite app_assoc.
Qed.

Lemma write_chunks_ok cs : ∀ acc bs,
  write_chunks cs acc = (Ok (), bs) →
  ∃ bs', utf8_encode (concat cs) = Some bs' ∧ bs = acc ++ bs'.
Proof.
  induction cs as [|c cs IH]; intros acc bs; simpl.
  - intros [= <-]. exists []. by rewrite app_nil_r.
  - rewrite utf8_encode_app.
    destruct (utf8_encode c) as [b|]; [|discriminate].
    intros H. apply IH in H as (bs' & -> & ->).
    eexists. split; [reflexivity|]. by rewrite app_assoc.
Qed.

Lemma write_chunks_encodable cs : ∀ acc bs',
  utf8_encode (concat cs) = Some bs' →
  write_chunks cs acc = (Ok (), acc ++ bs').
Proof.
  induction cs as [|c cs IH]; intros acc bs'; simpl.
  - intros [= <-]. by rewrite app_nil_r.
  - rewrite utf8_encode_app.
    destruct (utf8_encode c) as [b|]; [|discriminate].
    destruct (utf8_encode (concat cs)) as [b'|] eqn:E; [|discriminate].
    intros [= <-]. rewrite (IH _ _ eq_refl). by rewrite app_assoc.
Qed.

(** ** JSON: reading back what was dumped *)

Lemma hex_val_digit n : n < 16 → hex_val (hex_digit n) = Some n.
Proof.
  intros H. unfold hex_digit, hex_val, is_digit.
  destruct (N.ltb_spec n 10).
  - replace ((48 <=? 48 + n) && (48 + n <=? 57)) with true.
    + f_equal. lia.
    + symmetry. apply andb_true_iff. split; apply N.leb_le; lia.
  - replace ((48 <=? 87 + n) && (87 + n <=? 57)) with false.
    + replace ((97 <=? 87 + n) && (87 + n <=? 102)) with true.
      * f_equal. lia.
      * symmetry. apply andb_true_iff. split; apply N.leb_le; lia.
    + symmetry. apply andb_false_iff. right. apply N.leb_gt. lia.
Qed.

Lemma scanstring_control c rest :
  c < 32 →
  scanstring (BACKSLASH :: 117 :: 48 :: 48 :: hex_digit (c / 16) :: hex_digit (c mod 16) :: rest)
  = prepend c (scanstring rest).
Proof.
  intros Hc.
  assert (c / 16 < 16) by (apply N.Div0.div_lt_upper_bound; lia).
  assert (c mod 16 < 16) by (apply N.mod_lt; lia).
  cbn [scanstring]. 
  change (BACKSLASH =? QUOTE) with false. change (BACKSLASH =? BACKSLASH) with true.
  change (117 =? 117) with true. cbv iota.
  unfold hex4. change (hex_val 48) with (Some 0). rewrite !hex_val_digit by done.
  replace (((0 * 16 + 0) * 16 + c / 16) * 16 + c mod 16) with c.
  2:{ pose proof (N.div_mod c 16). lia. }
  assert (is_high_surrogate c = false) as Hh.
  { unfold is_high_surrogate. apply andb_false_iff. left. apply N.leb_gt. lia. }
  rewrite Hh. simpl.
  destruct rest as [|? [|? [|? [|? [|? [|? ?]]]]]]; reflexivity.
Qed.

Lemma scanstring_escape s rest :
  scanstring (concat (map escape_char s) ++ QUOTE :: rest) = Some (s, rest).
Proof.
  induction s as [|c s IH]; [reflexivity|].
  change (concat (map escape_char (c :: s))) with (escape_char c ++ concat (map escape_char s)).
  rewrite <-app_assoc. set (tl := concat (map escape_char s) ++ QUOTE :: rest) in *.
  unfold escape_char.
  destruct (N.eqb_spec c QUOTE) as [->|Hq]; [simpl; by rewrite IH|].
  destruct (N.eqb_spec c BACKSLASH) as [->|Hb]; [simpl; by rewrite IH|].
  destruct (N.eqb_spec c 10) as [->|?]; [simpl; by rewrite IH|].
  destruct (N.eqb_spec c 13) as [->|?]; [simpl; by rewrite IH|].
  destruct (N.eqb_spec c 9) as [->|?]; [simpl; by rewrite IH|].
  destruct (N.eqb_spec c 8) as [->|?]; [simpl; by rewrite IH|].
  destruct (N.eqb_spec c 12) as [->|?]; [simpl; by rewrite IH|].
  destruct (N.ltb_spec c 32) as [Hlt|Hge].
  - change ([BACKSLASH; 117; 48; 48; hex_digit (c / 16); hex_digit (c mod 16)] ++ tl)
      with (BACKSLASH :: 117 :: 48 :: 48 :: hex_digit (c / 16) :: hex_digit (c mod 16) :: tl).
    rewrite scanstring_control by done. by rewrite IH.
  - change ([c] ++ tl) with (c :: tl). cbn [scanstring].
    rewrite (proj2 (N.eqb_neq c QUOTE)), (proj2 (N.eqb_neq c BACKSLASH)) by done.
    rewrite (proj2 (N.ltb_ge c 32)) by done. by rewrite IH.
Qed.

Lemma scan_once_string fuel s rest :
  scan_once (S fuel) (encode_basestring s ++ rest) = Some (JString s, rest).
Proof.
  unfold encode_basestring. cbn [scan_once app].
  change (QUOTE =? QUOTE) with true. cbv iota.
  rewrite <-app_assoc. change ([QUOTE] ++ rest) with (QUOTE :: rest).
  by rewrite scanstring_escape.
Qed.

Lemma parse_members_step f s1 k s2 s3 v s4 :
  scanstring s1 = Some (k, s2) →
  skip_ws s2 = 58 :: s3 →
  scan_once f (skip_ws s3) = Some (v, s4) →
  parse_members (S f) (QUOTE :: s1)
  = match skip_ws s4 with
    | d :: s5 =>
        if d =? 125 then Some ([(k, v)], s5)
        else if d =? 44 then
          match parse_members f (skip_ws s5) with
          | Some (kvs, s6) => Some ((k, v) :: kvs, s6)
          | None => None
          end
        else None
    | [] => None
    end.
Proof.
  intros H1 H2 H3. cbn [parse_members].
  change (QUOTE =? QUOTE) with true. cbv iota.
  rewrite H1, H2. change (58 =? 58) with true. cbv iota. by rewrite H3.
Qed.

Lemma parse_members_item k v f rest :
  parse_members (S (S f)) (concat (item_chunks (k, v)) ++ rest)
  = match skip_ws rest with
    | d :: s5 =>
        if d =? 125 then Some ([(k, JString v)], s5)
        else if d =? 44 then
          match parse_members (S f) (skip_ws s5) with
          | Some (kvs, s6) => Some ((k, JString v) :: kvs, s6)
          | None => None
          end
        else None
    | [] => None
    end.
Proof.
  unfold item_chunks. cbn [concat fst snd]. rewrite app_nil_r.
  unfold encode_basestring at 1. rewrite <-!app_assoc.
  cbn [app].
  apply (parse_members_step _ _ _ (u ": " ++ encode_basestring v ++ rest)
           (32 :: encode_basestring v ++ rest)).
  - rewrite <-app_assoc. exact (scanstring_escape k _).
  - reflexivity.
  - change (skip_ws (32 :: ?x)) with (skip_ws x).
    unfold encode_basestring at 1. cbn [app skip_ws].
    change (is_ws QUOTE) with false. cbv iota.
    apply (scan_once_string f v rest).
Qed.

Lemma more_items_cons kv kvs :
  more_items (kv :: kvs)
  = 44 :: LF :: 32 :: 32 :: concat (item_chunks kv) ++ more_items kvs.
Proof.
  unfold more_items. cbn [map concat]. rewrite concat_app. reflexivity.
Qed.

Lemma parse_members_items kvs : ∀ kv fuel rest,
  (length kvs + 1 < fuel)%nat →
  parse_members fuel
    (concat (item_chunks kv) ++ more_items kvs ++ LF :: u "}" ++ rest)
  = Some (map tag (kv :: kvs), rest).
Proof.
  induction kvs as [|kv' kvs IH]; intros [k v] fuel rest Hfuel.
  - destruct fuel as [|[|fuel]]; [simpl in Hfuel; lia..|].
    rewrite parse_members_item. reflexivity.
  - destruct fuel as [|[|fuel]]; [simpl in Hfuel; lia..|].
    rewrite parse_members_item.
    rewrite more_items_cons. cbn [app skip_ws].
    change (is_ws 44) with false. cbv iota.
    change (44 =? 125) with false. change (44 =? 44) with true. cbv iota.
    change (skip_ws (LF :: 32 :: 32 :: ?x)) with (skip_ws x).
    assert (∀ kv x, skip_ws (concat (item_chunks kv) ++ x) = concat (item_chunks kv) ++ x) as Hsk.
    { intros [a b] x. reflexivity. }
    rewrite <-app_assoc, Hsk, IH by (simpl in *; lia). reflexivity.
Qed.

Lemma item_chunks_head kv x :
  ∃ y, concat (item_chunks kv) ++ x = QUOTE :: y.
Proof. destruct kv. eexists. reflexivity. Qed.

Lemma scan_once_dump items rest fuel :
  (length items + 2 < fuel)%nat →
  scan_once fuel (concat (dump_chunks items) ++ rest)
  = Some (JObject (map tag items), rest).
Proof.
  intros Hfuel. destruct items as [|kv kvs].
  - destruct fuel; [lia|]. reflexivity.
  - destruct fuel; [lia|].
    unfold dump_chunks. rewrite !concat_app. fold (more_items kvs).
    cbn [concat app]. rewrite <-!app_assoc.
    cbn [scan_once u map list_ascii_of_string app].
    change (N_of_ascii "{" =? QUOTE) with false. change (N_of_ascii "{" =? 123) with true.
    cbv iota.
    change (skip_ws (LF :: N_of_ascii " " :: N_of_ascii " " :: ?x)) with (skip_ws x).
    destruct (item_chunks_head kv (more_items kvs ++ LF :: N_of_ascii "}" :: rest))
      as [y Hy].
    rewrite Hy. cbn [skip_ws]. change (is_ws QUOTE) with false. cbv iota.
    change (QUOTE =? 125) with false. cbv iota. rewrite <-Hy.
    change (LF :: N_of_ascii "}" :: rest) with (LF :: u "}" ++ rest).
    rewrite (parse_members_items kvs kv fuel rest) by (simpl in *; lia).
    reflexivity.
Qed.

Lemma dump_chunks_length items :
  (length items + 2 <= length (concat (dump_chunks items)))%nat.
Proof.
  destruct items as [|kv kvs]; [simpl; lia|].
  unfold dump_chunks. rewrite !concat_app, !length_app. fold (more_items kvs).
  assert (length kvs <= length (more_items kvs))%nat.
  { induction kvs as [|kv' kvs IH]; [simpl; lia|].
    rewrite more_items_cons. simpl. rewrite length_app. lia. }
  simpl. lia.
Qed.

Lemma json_loads_dump items :
  json_loads (concat (dump_chunks items)) = Some (JObject (map tag items)).
Proof.
  unfold json_loads.
  assert (skip_ws (concat (dump_chunks items)) = concat (dump_chunks items)) as ->.
  { destruct items; reflexivity. }
  rewrite <-(app_nil_r (concat (dump_chunks items))) at 2.
  rewrite scan_once_dump; [reflexivity|].
  pose proof (dump_chunks_length items). lia.
Qed.

Lemma dict_of_members_tag items : ∀ acc,
  dict_of_members (map tag items) acc
  = Some (foldl (λ a kv, <[kv.1 := kv.2]> a) acc items).
Proof.
  induction items as [|[k v] items IH]; intros acc; [reflexivity|].
  simpl. apply IH.
Qed.

Lemma foldl_insert_list_to_map (items : list (list N * list N)) : ∀ acc : gmap (list N) (list N),
  foldl (λ a kv, <[kv.1 := kv.2]> a) acc items = list_to_map (reverse items) ∪ acc.
Proof.
  induction items as [|[k v] items IH]; intros acc.
  - simpl. by rewrite (left_id_L ∅ (∪)).
  - simpl. rewrite IH, reverse_cons, list_to_map_app. simpl.
    rewrite <-(assoc_L (∪)). f_equal.
    rewrite insert_union_singleton_l. rewrite insert_empty. done.
Qed.

Lemma as_cache_dump (m : gmap (list N) (list N)) :
  as_cache (JObject (map tag (map_to_list m))) = Some m.
Proof.
  unfold as_cache. rewrite dict_of_members_tag. f_equal.
  rewrite foldl_insert_list_to_map, (right_id_L ∅ (∪)).
  rewrite <-(list_to_map_to_list m) at 2.
  apply list_to_map_proper.
  - rewrite fmap_reverse, reverse_Permutation. apply NoDup_fst_map_to_list.
  - apply reverse_Permutation.
Qed.

(** Decoding what was dumped gives the cache back. *)
Lemma loads_dumps (m : gmap (list N) (list N)) :
  json_loads (json_dumps m) ≫= as_cache = Some m.
Proof.
  unfold json_dumps. rewrite json_loads_dump. simpl. apply as_cache_dump.
Qed.

(** ** Paths *)

Lemma rfind_tail_suffix d s t : rfind_tail d s = Some t → t `suffix_of` s.
Proof.
  revert t. induction s as [|c s IH]; intros t; simpl; [done|].
  destruct (rfind_tail d s) as [t'|].
  - intros [= <-]. by apply suffix_cons_r, IH.
  - destruct (c =? d); [|done]. by intros [= <-].
Qed.

Lemma bare_name_suffix (p : list N) :
  match p with
  | [c] => if c =? DOT then [] else p
  | _ => p
  end `suffix_of` p.
Proof.
  destruct p as [|c [|c' p]]; try done.
  destruct (c =? DOT); [apply suffix_nil|done].
Qed.

Lemma path_name_suffix p : path_name p `suffix_of` p.
Proof.
  unfold path_name.
  destruct (rfind_tail SLASH p) as [[|c t]|] eqn:E; try apply bare_name_suffix.
  apply rfind_tail_suffix in E. etrans; [|exact E]. by apply suffix_cons_r.
Qed.

Lemma path_suffix_suffix p : path_suffix p `suffix_of` p.
Proof.
  unfold path_suffix. destruct (rfind_tail DOT (path_name p)) as [t|] eqn:E.
  - destruct (_ && _)%nat; [|apply suffix_nil].
    etrans; [by apply rfind_tail_suffix in E|apply path_name_suffix].
  - apply suffix_nil.
Qed.

Lemma with_suffix_extend p t : with_suffix p (path_suffix p ++ t) = p ++ t.
Proof.
  unfold with_suffix. destruct (path_suffix_suffix p) as [k Hk].
  remember (path_suffix p) as sfx eqn:E. clear E. subst p.
  rewrite length_app, Nat.add_sub, take_app_length. by rewrite app_assoc.
Qed.

Lemma tmp_path_eq cache_file : tmp_path cache_file = cache_file ++ u ".tmp".
Proof. apply with_suffix_extend. Qed.

Lemma tmp_path_ne cache_file : tmp_path cache_file ≠ cache_file.
Proof.
  rewrite tmp_path_eq. intros H. apply (f_equal length) in H.
  rewrite length_app in H. simpl in H. lia.
Qed.

(** ** Text without carriage returns *)

Lemma universal_newlines_id s :
  Forall (λ c, c ≠ CR) s → universal_newlines s = s.
Proof.
  induction 1 as [|c s Hc _ IH]; simpl; [done|].
  rewrite (proj2 (N.eqb_neq c CR)) by done. by rewrite IH.
Qed.

Lemma hex_digit_ge n : 48 <= hex_digit n.
Proof. unfold hex_digit. destruct (n <? 10); lia. Qed.

Lemma escape_char_no_cr c : Forall (λ c, c ≠ CR) (escape_char c).
Proof.
  unfold escape_char.
  repeat match goal with
         | |- context [if ?a =? ?b then _ else _] => destruct (N.eqb_spec a b)
         | |- context [if ?a <? ?b then _ else _] => destruct (N.ltb_spec a b)
         end;
    repeat constructor; unfold CR; try done;
    try (pose proof (hex_digit_ge (c / 16)); lia);
    try (pose proof (hex_digit_ge (c mod 16)); lia).
Qed.

Lemma encode_basestring_no_cr s : Forall (λ c, c ≠ CR) (encode_basestring s).
Proof.
  unfold encode_basestring. constructor; [done|].
  apply Forall_app. split; [|by repeat constructor].
  apply Forall_concat, Forall_forall. intros x Hx.
  apply list_elem_of_fmap in Hx as (c & -> & _). apply escape_char_no_cr.
Qed.

Ltac eval_u :=
  repeat match goal with
         | |- context [u ?s] =>
             let x := eval vm_compute in (u s) in change (u s) with x
         end.

Ltac forall_list :=
  eval_u; cbn [app];
  repeat first [assumption | apply Forall_nil_2 | apply Forall_cons_2]; try done.

Lemma dump_chunks_Forall (P : N → Prop) (items : list (list N * list N)) :
  Forall P [123; 125; 44; 58; 32; LF] →
  Forall (λ kv, Forall P (encode_basestring kv.1)
                ∧ Forall P (encode_basestring kv.2)) items →
  Forall P (concat (dump_chunks items)).
Proof.
  intros Hp Hitems.
  assert (P 123 ∧ P 125 ∧ P 44 ∧ P 58 ∧ P 32 ∧ P LF) as (H1 & H2 & H3 & H4 & H5 & H6).
  { repeat (apply Forall_cons in Hp as [? Hp]). done. }
  assert (∀ kv, Forall P (encode_basestring kv.1) ∧ Forall P (encode_basestring kv.2) →
                Forall (Forall P) (item_chunks kv)) as Hitem.
  { intros kv [Hk Hv]. unfold item_chunks. forall_list. }
  apply Forall_concat. destruct Hitems as [|kv kvs Hkv Hkvs].
  { unfold dump_chunks. forall_list. }
  change (dump_chunks (kv :: kvs))
    with ([u "{"; LF :: u "  "] ++ item_chunks kv
          ++ concat (map (λ kv', (u "," ++ LF :: u "  ") :: item_chunks kv') kvs)
          ++ [[LF]; u "}"]).
  apply Forall_app. split; [forall_list|].
  apply Forall_app. split; [by apply Hitem|].
  apply Forall_app. split; [|forall_list].
  apply Forall_concat, Forall_fmap. eapply Forall_impl; [exact Hkvs|].
  intros kv' Hkv'. apply Forall_cons_2; [forall_list|].
  by apply Hitem.
Qed.

Lemma json_dumps_no_cr m : Forall (λ c, c ≠ CR) (json_dumps m).
Proof.
  apply dump_chunks_Forall; [forall_list|].
  apply Forall_forall. intros kv _. split; apply encode_basestring_no_cr.
Qed.

(** ** Encodable text *)

Lemma utf8_encode_char_scalar c :
  scalar c = true ↔ is_Some (utf8_encode_char c).
Proof.
  unfold scalar, utf8_encode_char, is_surrogate.
  destruct (N.ltb_spec c 128), (N.ltb_spec c 2048), (N.ltb_spec c 65536),
    (N.ltb_spec c 1114112), (N.leb_spec 55296 c), (N.leb_spec c 57343);
    simpl; split; intros H'; try done; try lia; try (by eexists);
    by destruct H'.
Qed.

Lemma utf8_encode_encodable s :
  encodable s = true ↔ is_Some (utf8_encode s).
Proof.
  induction s as [|c s IH]; simpl; [by split; eauto|].
  rewrite andb_true_iff, IH, utf8_encode_char_scalar.
  destruct (utf8_encode_char c), (utf8_encode s); split;
    try (intros [[? ?] [? ?]]); try (intros [? ?]); try done; eauto.
Qed.

Lemma scalar_small c : c < 55296 → scalar c = true.
Proof.
  intros H. unfold scalar, is_surrogate.
  rewrite (proj2 (N.ltb_lt c 1114112)) by lia.
  by rewrite (proj2 (N.leb_gt 55296 c)) by lia.
Qed.

Lemma hex_digit_le n : n < 16 → hex_digit n <= 102.
Proof. unfold hex_digit. destruct (N.ltb_spec n 10); lia. Qed.

Lemma escape_char_scalar c :
  scalar c = true → Forall (λ c, scalar c = true) (escape_char c).
Proof.
  intros Hc. unfold escape_char.
  repeat match goal with
         | |- context [if ?a =? ?b then _ else _] => destruct (N.eqb_spec a b)
         | |- context [if ?a <? ?b then _ else _] => destruct (N.ltb_spec a b)
         end;
    repeat constructor; try done.
  - apply scalar_small.
    assert (c / 16 < 16) by (apply N.Div0.div_lt_upper_bound; lia).
    pose proof (hex_digit_le (c / 16)). lia.
  - apply scalar_small.
    assert (c mod 16 < 16) by (apply N.mod_lt; lia).
    pose proof (hex_digit_le (c mod 16)). lia.
Qed.

Lemma encode_basestring_scalar s :
  encodable s = true → Forall (λ c, scalar c = true) (encode_basestring s).
Proof.
  intros Hs. unfold encode_basestring. constructor; [done|].
  apply Forall_app. split; [|by repeat constructor].
  apply Forall_concat, Forall_forall. intros x Hx.
  apply list_elem_of_fmap in Hx as (c & -> & Hc). apply escape_char_scalar.
  unfold encodable in Hs. rewrite forallb_forall in Hs. apply Hs.
  by apply list_elem_of_In.
Qed.

Lemma json_dumps_encodable m :
  encodable_cache m → is_Some (utf8_encode (json_dumps m)).
Proof.
  intros Hm. apply utf8_encode_encodable. unfold encodable.
  apply forallb_forall. intros c Hc. apply list_elem_of_In in Hc. revert c Hc.
  apply Forall_forall.
  apply (dump_chunks_Forall (λ c, scalar c = true)); [forall_list|].
  apply Forall_forall. intros [k v] Hkv. apply elem_of_map_to_list in Hkv.
  apply Hm in Hkv as [Hk Hv]. split; by apply encode_basestring_scalar.
Qed.

Lemma escape_char_unscalar c : scalar c = false → escape_char c = [c].
Proof.
  intros Hc. unfold escape_char.
  repeat match goal with
         | |- context [if ?a =? ?b then _ else _] =>
             destruct (N.eqb_spec a b); [subst; by vm_compute in Hc|]
         end.
  destruct (N.ltb_spec c 32); [|done].
  rewrite scalar_small in Hc by lia. done.
Qed.

Lemma encode_basestring_encodable s :
  Forall (λ c, scalar c = true) (encode_basestring s) → encodable s = true.
Proof.
  unfold encode_basestring. intros H. apply Forall_cons in H as [_ H].
  apply Forall_app in H as [H _].
  unfold encodable. apply forallb_forall. intros c Hc.
  destruct (scalar c) eqn:E; [done|].
  apply Forall_concat in H. rewrite Forall_forall in H.
  apply list_elem_of_In in Hc.
  specialize (H (escape_char c) (list_elem_of_fmap_2 escape_char _ _ Hc)).
  rewrite (escape_char_unscalar c E) in H. apply Forall_cons in H as [H _]. congruence.
Qed.

Lemma dump_chunks_items (P : N → Prop) (items : list (list N * list N)) :
  Forall P (concat (dump_chunks items)) →
  Forall (λ kv, Forall P (encode_basestring kv.1)
                ∧ Forall P (encode_basestring kv.2)) items.
Proof.
  assert (∀ kv, Forall (Forall P) (item_chunks kv) →
                Forall P (encode_basestring kv.1) ∧ Forall P (encode_basestring kv.2))
    as Hitem.
  { intros kv H. unfold item_chunks in H.
    apply Forall_cons in H as [H1 H]. apply Forall_cons in H as [_ H].
    by apply Forall_cons in H as [H2 _]. }
  intros H. apply Forall_concat in H. destruct items as [|kv kvs]; [done|].
  change (dump_chunks (kv :: kvs))
    with ([u "{"; LF :: u "  "] ++ item_chunks kv
          ++ concat (map (λ kv', (u "," ++ LF :: u "  ") :: item_chunks kv') kvs)
          ++ [[LF]; u "}"]) in H.
  apply Forall_app in H as [_ H]. apply Forall_app in H as [H1 H].
  apply Forall_app in H as [H2 _].
  constructor; [by apply Hitem|].
  clear H1. induction kvs as [|kv' kvs IH]; [done|].
  rewrite map_cons, concat_cons in H2.
  apply Forall_app in H2 as [H1 H2]. apply Forall_cons in H1 as [_ H1].
  constructor; [by apply Hitem|by apply IH].
Qed.

Lemma encodable_json_dumps m :
  is_Some (utf8_encode (json_dumps m)) → encodable_cache m.
Proof.
  intros H. apply utf8_encode_encodable in H. unfold encodable in H.
  rewrite forallb_forall in H.
  assert (Forall (λ c, scalar c = true) (json_dumps m)) as HF.
  { apply Forall_forall. intros c Hc. apply H. by apply list_elem_of_In. }
  apply dump_chunks_items in HF. rewrite Forall_forall in HF.
  intros k v Hkv. apply elem_of_map_to_list in Hkv. apply HF in Hkv as [Hk Hv].
  split; by apply encode_basestring_encodable.
Qed.

(** ** The cache file: [load_cache] and [save_cache] *)

Lemma load_cache_run cache_file w :
  load_cache cache_file w = (Ok (cache_file_value (files w) cache_file), w).
Proof.
  unfold load_cache, cache_file_value, is_file, try_except_Exception.
  mrun. destruct (files w !! cache_file) as [f|]; [|done].
  destruct (readable f); [|done].
  destruct (utf8_decode (content f)) as [text|]; [|done].
  destruct (json_loads (universal_newlines text)); done.
Qed.

Lemma save_cache_ok cache_file m w bs :
  utf8_encode (json_dumps m) = Some bs →
  save_cache cache_file m w = (Ok (), flushed cache_file bs w).
Proof.
  intros Hbs. unfold save_cache.
  rewrite (write_chunks_encodable _ [] bs Hbs). mrun.
  unfold flushed, replace_file, write_content. simpl.
  rewrite lookup_insert_eq, delete_insert_eq. f_equal. world_eq.
Qed.

Lemma save_cache_inv cache_file m w w' :
  save_cache cache_file m w = (Ok (), w') →
  ∃ bs, utf8_encode (json_dumps m) = Some bs ∧ w' = flushed cache_file bs w.
Proof.
  intros H. destruct (utf8_encode (json_dumps m)) as [bs|] eqn:E.
  - rewrite (save_cache_ok _ _ _ _ E) in H. exists bs. split; congruence.
  - exfalso. unfold save_cache in H.
    destruct (write_chunks (dump_chunks (map_to_list m)) []) as [[[]|e] bs] eqn:Ew.
    + apply write_chunks_ok in Ew as (? & ? & ?). unfold json_dumps in E. congruence.
    + revert H. mrun. discriminate.
Qed.


Lemma cache_file_value_written fs cache_file m bs :
  fs !! cache_file = Some (File true bs) →
  utf8_encode (json_dumps m) = Some bs →
  as_cache (cache_file_value fs cache_file) = Some m.
Proof.
  intros Hf Hbs. unfold cache_file_value. rewrite Hf. simpl.
  rewrite (utf8_decode_encode _ _ Hbs).
  rewrite universal_newlines_id by apply json_dumps_no_cr.
  pose proof (loads_dumps m) as H.
  destruct (json_loads (json_dumps m)) as [v|]; [|done]. exact H.
Qed.




Lemma translate_text_frag_backoff_witness :
  (∃ tr,
      translate_text_frag (flaky 2 (u "hola")) (u "hello") (u "es") (idle_world ∅)
      = (Ok (u "hola"), after_events tr 3 (idle_world ∅))
      ∧ sleeps_of tr = [3 # 4; 6 # 4]%Q
      ∧ retry_warnings_of tr = [(1%nat, 3 # 4); (2%nat, 6 # 4)]%Q
      ∧ give_ups_of tr = 0%nat
      ∧ length (calls_of tr) = 3%nat)
  ∧ (∃ tr,
      translate_text_frag (flaky 7 (u "hola")) (u "hello") (u "es") (idle_world ∅)
      = (Ok (u "hello"), after_events tr RETRY_LIMIT (idle_world ∅))
      ∧ sleeps_of tr = [3 # 4; 6 # 4; 12 # 4; 24 # 4; 48 # 4]%Q
      ∧ retry_warnings_of tr
        = [(1%nat, 3 # 4); (2%nat, 6 # 4); (3%nat, 12 # 4); (4%nat, 24 # 4);
           (5%nat, 48 # 4)]%Q
      ∧ give_ups_of tr = 1%nat
      ∧ length (calls_of tr) = RETRY_LIMIT).
Proof.
  split.
  - apply (translate_text_frag_backoff (flaky 2 (u "hola")) (u "hello") (u "es")
             2 (λ _, u "timeout") (u "hola") (idle_world ∅)).
    + reflexivity.
    + intros [|[|i]] Hi; [reflexivity | reflexivity | lia].
    + reflexivity.
  - apply (translate_text_frag_backoff (flaky 7 (u "hola")) (u "hello") (u "es")
             7 (λ _, u "timeout") (u "hola") (idle_world ∅)).
    + reflexivity.
    + intros i Hi. do 7 (destruct i as [|i]; [reflexivity|]). simpl in Hi. lia.
    + reflexivity.
Defined.

(** ** Specifications of computations *)

Lemma bind_inv {A B} (m : M A) (f : A → M B) w r w' :
  (m ≫= f) w = (r, w') →
  (∃ a w1, m w = (Ok a, w1) ∧ f a w1 = (r, w'))
  ∨ (∃ e, m w = (Raise e, w') ∧ r = Raise e).
Proof.
  unfold mbind, M_bind. destruct (m w) as [[a|e] w1] eqn:E.
  - intros H. left. eauto.
  - intros [= <- <-]. right. eauto.
Qed.

Section Spec.

Variable R : world → world → Prop.
Hypothesis R_refl : ∀ w, R w w.
Hypothesis R_trans : ∀ w1 w2 w3, R w1 w2 → R w2 w3 → R w1 w3.
Hypothesis R_sigint : ∀ w w', R w w' → sigint w = None → sigint w' = None.

Lemma spec_ret {A} (a : A) (Q : A → Prop) E : Q a → spec R (mret a) Q E.
Proof. intros HQ w r w' [= <- <-]. split; [apply R_refl|done]. Qed.

Lemma spec_bind {A B} (m : M A) (f : A → M B) (Q1 : A → Prop) (Q2 : B → Prop) E :
  spec R m Q1 E → (∀ a, Q1 a → spec R (f a) Q2 E) → spec R (m ≫= f) Q2 E.
Proof.
  intros Hm Hf w r w' Hrun.
  apply bind_inv in Hrun as [(a & w1 & H1 & H2)|(e & H1 & ->)].
  - apply Hm in H1 as [HR1 HQ1]. simpl in HQ1.
    apply (Hf a HQ1) in H2 as [HR2 HQ2]. split; [by eapply R_trans|].
    destruct r as [b|[| |]]; simpl in *; try done.
    destruct HQ2 as [Hs ?]. split; [|done].
    destruct (sigint w) eqn:Es; [done|].
    rewrite (R_sigint _ _ HR1 Es) in Hs. by destruct Hs.
  - apply Hm in H1 as [HR1 HQ1]. split; [done|]. by destruct e.
Qed.

Lemma spec_try {A} (body : M A) (handler : list N → M A) (Q : A → Prop) E :
  spec R body Q True → (∀ e, spec R (handler e) Q E) →
  spec R (try_except_Exception body handler) Q E.
Proof.
  intros Hb Hh w r w' Hrun. unfold try_except_Exception in Hrun.
  destruct (body w) as [[a|[| |e]] w1] eqn:Eb.
  - injection Hrun as <- <-. by apply Hb in Eb.
  - injection Hrun as <- <-. by apply Hb in Eb.
  - injection Hrun as <- <-. by apply Hb in Eb.
  - apply Hb in Eb as [HR1 _]. apply Hh in Hrun as [HR2 HQ2].
    split; [by eapply R_trans|].
    destruct r as [b|[| |]]; simpl in *; try done.
    destruct HQ2 as [Hs ?]. split; [|done].
    destruct (sigint w) eqn:Es; [done|].
    rewrite (R_sigint _ _ HR1 Es) in Hs. by destruct Hs.
Qed.

Lemma spec_conseq {A} (m : M A) (Q Q' : A → Prop) (E E' : Prop) :
  spec R m Q E → (∀ a, Q a → Q' a) → (E → E') → spec R m Q' E'.
Proof.
  intros Hm HQ HE w r w' Hrun. apply Hm in Hrun as [HR Ho]. split; [done|].
  destruct r as [a|[| |]]; simpl in *; auto.
Qed.

End Spec.

Lemma spec_mono (R1 R2 : world → world → Prop) {A} (m : M A) Q E :
  (∀ w w', R1 w w' → R2 w w') → spec R1 m Q E → spec R2 m Q E.
Proof. intros HR Hm w r w' Hrun. apply Hm in Hrun as [? ?]. auto. Qed.

(** ** The pattern *)

Lemma match_body_spec s inner rest :
  match_body s = Some (inner, rest) →
  s = inner ++ QUOTE :: rest ∧ Forall (λ c, c ≠ QUOTE ∧ c ≠ LF) inner.
Proof.
  revert inner rest. induction s as [|c s IH]; intros inner rest; simpl; [done|].
  destruct (N.eqb_spec c QUOTE) as [->|Hq].
  - intros [= <- <-]. split; [done|constructor].
  - destruct (N.eqb_spec c LF) as [->|Hl]; [done|].
    destruct (match_body s) as [[i r]|]; [|done].
    intros [= <- <-]. destruct (IH _ _ eq_refl) as [-> Hi].
    split; [done|]. by constructor.
Qed.

Lemma match_body_app inner rest :
  Forall (λ c, c ≠ QUOTE ∧ c ≠ LF) inner →
  match_body (inner ++ QUOTE :: rest) = Some (inner, rest).
Proof.
  induction 1 as [|c inner [Hq Hl] _ IH]; simpl.
  - done.
  - rewrite (proj2 (N.eqb_neq c QUOTE)), (proj2 (N.eqb_neq c LF)) by done.
    by rewrite IH.
Qed.

Lemma scan_nil : scan [] = [].
Proof. by simp scan. Qed.

Lemma scan_cons c s :
  scan (c :: s)
  = match (if c =? QUOTE then match_body s else None) with
    | Some (inner, rest) => Frag inner :: scan rest
    | None => Lit c :: scan s
    end.
Proof. funelim (scan (c :: s)); by rewrite E. Qed.

Lemma str_length_ind (P : list N → Prop) :
  (∀ s, (∀ t, (length t < length s)%nat → P t) → P s) → ∀ s, P s.
Proof.
  intros H s. remember (length s) as n eqn:En. revert s En.
  induction n as [n IH] using lt_wf_ind. intros s ->.
  apply H. intros t Ht. by apply (IH (length t)).
Qed.

Lemma render_scan s : render (scan s) = s.
Proof.
  induction s as [s IH] using str_length_ind.
  destruct s as [|c s]; [by rewrite scan_nil|].
  rewrite scan_cons.
  destruct (if c =? QUOTE then match_body s else None) as [[inner rest]|] eqn:E.
  - destruct (N.eqb_spec c QUOTE) as [->|]; [|done].
    apply match_body_spec in E as [-> _].
    unfold render in *. simpl. rewrite IH.
    + by rewrite <-app_assoc.
    + simpl. rewrite length_app. simpl. lia.
  - unfold render in *. simpl. rewrite IH; [done|simpl; lia].
Qed.

Lemma frame_eq_refl xs : frame_eq xs xs.
Proof. apply Forall2_same_length_lookup. split; [done|].
  intros i x y Hx Hy. rewrite Hx in Hy. injection Hy as <-. by destruct x. Qed.

Lemma only_fragments_differ_refl s : only_fragments_differ s s.
Proof. exists (scan s). split; [apply frame_eq_refl|by rewrite render_scan]. Qed.

(** ** Steps *)

Lemma calm_step_refl text w : calm_step text w w.
Proof. repeat split; try done. exists []. by rewrite app_nil_r. Qed.

Lemma calm_step_trans text w1 w2 w3 :
  calm_step text w1 w2 → calm_step text w2 w3 → calm_step text w1 w3.
Proof.
  intros (F1 & B1 & C1 & K1 & S1 & tr1 & T1 & E1) (F2 & B2 & C2 & K2 & S2 & tr2 & T2 & E2).
  repeat split; try congruence; [auto|].
  exists (tr1 ++ tr2). split; [by rewrite T2, T1, app_assoc|by apply Forall_app].
Qed.

Lemma calm_step_sigint text w w' : calm_step text w w' → sigint w = None → sigint w' = None.
Proof. intros (_ & _ & _ & _ & Sg & _). exact Sg. Qed.

Lemma quiet_step_refl w : quiet_step w w.
Proof. repeat split; try done. exists []. by rewrite app_nil_r. Qed.

Lemma quiet_step_trans w1 w2 w3 :
  quiet_step w1 w2 → quiet_step w2 w3 → quiet_step w1 w3.
Proof.
  intros (F1 & B1 & K1 & C1 & I1 & S1 & tr1 & T1 & E1) (F2 & B2 & K2 & C2 & I2 & S2 & tr2 & T2 & E2).
  repeat split; try congruence; [by etrans| |auto|].
  - intros k Hk. by rewrite I2, I1.
  - exists (tr1 ++ tr2). split; [by rewrite T2, T1, app_assoc|by apply Forall_app].
Qed.

Lemma quiet_step_sigint w w' : quiet_step w w' → sigint w = None → sigint w' = None.
Proof. intros (_ & _ & _ & _ & _ & Sg & _). exact Sg. Qed.

Lemma calm_step_quiet text w w' :
  is_inert text = false → calm_step text w w' → quiet_step w w'.
Proof.
  intros Ht (F & B & C & K & Sg & tr & T & E).
  split; [done|]. split; [done|]. split; [done|].
  split; [by rewrite C|]. split; [intros; by rewrite C|]. split; [done|].
  exists tr. split; [done|]. eapply Forall_impl; [exact E|].
  intros [] He; simpl in *; try done. by subst.
Qed.

Section Translator.

Variable google : nat → list N → list N → list N + list N.

Lemma spec_checkpoint text : spec (calm_step text) checkpoint (λ _, True) False.
Proof.
  intros w r w'. unfold checkpoint.
  destruct (sigint w) as [[|n]|] eqn:Es; intros [= <- <-]; simpl.
  - split; [|by rewrite Es; eauto].
    repeat split; try done. exists []. by rewrite app_nil_r.
  - split; [|done]. repeat split; try done; try congruence.
    exists []. by rewrite app_nil_r.
  - split; [apply calm_step_refl|done].
Qed.

Lemma spec_emit text e :
  frag_event text e → spec (calm_step text) (emit e) (λ _, True) False.
Proof.
  intros He w r w' [= <- <-]. split; [|done].
  repeat split; try done. exists [e]. split; [done|]. by constructor.
Qed.

Lemma spec_translator_translate text dest :
  spec (calm_step text) (translator_translate google text dest) (λ _, True) True.
Proof.
  unfold translator_translate.
  eapply spec_bind; [apply calm_step_trans|apply calm_step_sigint| |].
  { eapply spec_conseq; [apply spec_checkpoint|done..]. }
  intros _ _ w r w'. mrun.
  destruct (google (translate_calls w) text dest); intros [= <- <-]; (split; [|done]);
    repeat split; try done; exists [EvTranslate text dest]; split; try done;
    by constructor.
Qed.

Lemma spec_time_sleep text d :
  spec (calm_step text) (time_sleep d) (λ _, True) False.
Proof.
  unfold time_sleep.
  eapply spec_bind; [apply calm_step_trans|apply calm_step_sigint|apply spec_checkpoint|].
  intros _ _. by apply spec_emit.
Qed.

Lemma spec_retry_loop attempts text dest :
  spec (calm_step text) (retry_loop google attempts text dest) (λ _, True) False.
Proof.
  induction attempts as [|a attempts IH]; simpl.
  - eapply spec_bind; [apply calm_step_trans|apply calm_step_sigint|by apply spec_emit|].
    intros _ _. apply spec_ret; [apply calm_step_refl|done].
  - apply spec_try; [apply calm_step_trans|apply calm_step_sigint|apply spec_translator_translate|].
    intros e.
    eapply spec_bind; [apply calm_step_trans|apply calm_step_sigint|by apply spec_emit|].
    intros _ _.
    eapply spec_bind; [apply calm_step_trans|apply calm_step_sigint|apply spec_time_sleep|].
    intros _ _. apply IH.
Qed.

Lemma spec_translate_text_frag text dest :
  spec (calm_step text) (translate_text_frag google text dest) (λ _, True) False.
Proof. apply spec_retry_loop. Qed.

End Translator.

Section Line.

Variable google : nat → list N → list N → list N + list N.

(** ** One match: [_repl] *)

Lemma repl_inert dest debug lineno inner w :
  is_inert inner = true →
  _repl google dest debug lineno inner w = (Ok (quoted inner, false), w).
Proof. intros Hi. unfold _repl. by rewrite Hi. Qed.

Lemma repl_hit dest debug lineno inner out w :
  is_inert inner = false →
  cache w !! inner = Some out →
  _repl google dest debug lineno inner w
  = (Ok (quoted out, bool_decide (out ≠ inner)),
     traced debug lineno FromCache inner out w).
Proof.
  intros Hi Hc. unfold _repl, traced. rewrite Hi. mrun. rewrite Hc.
  by destruct debug.
Qed.

Lemma repl_miss dest debug lineno inner w out w1 :
  is_inert inner = false →
  cache w !! inner = None →
  translate_text_frag google inner dest w = (Ok out, w1) →
  _repl google dest debug lineno inner w
  = (Ok (quoted out, bool_decide (out ≠ inner)),
     traced debug lineno FromGoogle inner out
       (set_cache (<[inner := out]> (cache w1)) w1)).
Proof.
  intros Hi Hc Ht. unfold _repl, traced. rewrite Hi. mrun. rewrite Hc, Ht.
  by destruct debug.
Qed.

Lemma repl_miss_raise dest debug lineno inner w e w1 :
  is_inert inner = false →
  cache w !! inner = None →
  translate_text_frag google inner dest w = (Raise e, w1) →
  _repl google dest debug lineno inner w = (Raise e, w1).
Proof.
  intros Hi Hc Ht. unfold _repl. rewrite Hi. mrun. by rewrite Hc, Ht.
Qed.

Lemma quiet_step_traced debug lineno source inner out w :
  quiet_step w (traced debug lineno source inner out w).
Proof.
  unfold traced. destruct debug; [|apply quiet_step_refl].
  repeat split; try done. eexists. split; [done|]. by constructor.
Qed.

Lemma spec_repl dest debug lineno inner :
  spec quiet_step (_repl google dest debug lineno inner)
    (λ p, ∃ out, p.1 = quoted out ∧ (is_inert inner = true → out = inner)) False.
Proof.
  intros w r w' Hrun. destruct (is_inert inner) eqn:Hi.
  { rewrite repl_inert in Hrun by done. injection Hrun as <- <-.
    split; [apply quiet_step_refl|]. simpl. eauto. }
  destruct (cache w !! inner) as [out|] eqn:Hc.
  { rewrite (repl_hit _ _ _ _ out) in Hrun by done. injection Hrun as <- <-.
    split; [apply quiet_step_traced|]. simpl. by exists out. }
  destruct (translate_text_frag google inner dest w) as [[out|e] w1] eqn:Ht.
  - rewrite (repl_miss _ _ _ _ _ out w1) in Hrun by done. injection Hrun as <- <-.
    apply spec_translate_text_frag in Ht as [Hstep _].
    split; [|simpl; by exists out].
    eapply quiet_step_trans; [|apply quiet_step_traced].
    eapply quiet_step_trans; [by eapply calm_step_quiet|].
    destruct Hstep as (_ & _ & Hc1 & _).
    repeat split; try done; simpl.
    + apply insert_subseteq. by rewrite Hc1.
    + intros k Hk. apply lookup_insert_ne. intros <-. congruence.
    + exists []. by rewrite app_nil_r.
  - rewrite (repl_miss_raise _ _ _ _ _ e w1) in Hrun by done. injection Hrun as <- <-.
    apply spec_translate_text_frag in Ht as [Hstep Ho].
    split; [by eapply calm_step_quiet|]. by destruct e.
Qed.

(** ** A whole line *)

Lemma spec_sub_segments dest debug lineno xs :
  spec quiet_step (sub_segments (_repl google dest debug lineno) xs)
    (λ p, ∃ ys, frame_eq xs ys ∧ inert_kept xs ys ∧ p.1 = render ys) False.
Proof.
  induction xs as [|[c|inner] xs IH]; simpl.
  - apply spec_ret; [apply quiet_step_refl|]. exists []. by repeat constructor.
  - eapply spec_bind; [apply quiet_step_trans|apply quiet_step_sigint|exact IH|].
    intros [t chg] (ys & Hf & Hk & Ht). simpl in Ht. subst t.
    apply spec_ret; [apply quiet_step_refl|].
    exists (Lit c :: ys). by repeat constructor.
  - eapply spec_bind; [apply quiet_step_trans|apply quiet_step_sigint|apply spec_repl|].
    intros [r chg1] (out & Hr & Hout). simpl in Hr. subst r.
    eapply spec_bind; [apply quiet_step_trans|apply quiet_step_sigint|exact IH|].
    intros [t chg2] (ys & Hf & Hk & Ht). simpl in Ht. subst t.
    apply spec_ret; [apply quiet_step_refl|].
    exists (Frag out :: ys). split; [by constructor|]. split.
    + constructor; [|done]. intros Hi. by rewrite Hout.
    + unfold render, quoted. simpl. by rewrite <-app_assoc.
Qed.

Lemma inert_kept_refl xs : inert_kept xs xs.
Proof. apply Forall2_same_length_lookup. split; [done|].
  intros i x y Hx Hy. rewrite Hx in Hy. injection Hy as <-. by destruct x. Qed.

Lemma spec_translate_line line dest debug lineno :
  spec quiet_step (translate_line google line dest debug lineno)
    (λ p, ∃ ys, frame_eq (scan line) ys ∧ inert_kept (scan line) ys
                ∧ p.1 = render ys) False.
Proof.
  unfold translate_line. destruct (has_quote line); simpl.
  - apply spec_sub_segments.
  - apply spec_ret; [apply quiet_step_refl|].
    exists (scan line). split; [apply frame_eq_refl|].
    split; [apply inert_kept_refl|]. simpl. by rewrite render_scan.
Qed.

End Line.

(** ** The loop of [main] *)

Lemma encode_latin1_ignore s :
  encode_with latin1_encode_table Ignore s = Some (omap Byte.of_N s).
Proof.
  induction s as [|c s IH]; simpl; [done|].
  unfold latin1_encode_table at 1. rewrite IH.
  by destruct (Byte.of_N c).
Qed.

Lemma latin1_bytes_eq s : latin1_bytes s = omap Byte.of_N s.
Proof. unfold latin1_bytes, output_errors. by rewrite encode_latin1_ignore. Qed.

Lemma latin1_bytes_app s t : latin1_bytes (s ++ t) = latin1_bytes s ++ latin1_bytes t.
Proof. rewrite !latin1_bytes_eq. apply omap_app. Qed.

Lemma writes_of_app tr1 tr2 : writes_of (tr1 ++ tr2) = writes_of tr1 ++ writes_of tr2.
Proof. apply omap_app. Qed.

Lemma loop_step_refl cache_file w : loop_step cache_file [] w w.
Proof. repeat split; try done; simpl; by rewrite app_nil_r. Qed.

Lemma loop_step_trans cache_file tr1 tr2 w1 w2 w3 :
  loop_step cache_file tr1 w1 w2 → loop_step cache_file tr2 w2 w3 →
  loop_step cache_file (tr1 ++ tr2) w1 w3.
Proof.
  intros (T1 & B1 & F1 & C1 & I1 & S1) (T2 & B2 & F2 & C2 & I2 & S2).
  split; [by rewrite T2, T1, app_assoc|].
  split; [by rewrite B2, B1, writes_of_app, concat_app, latin1_bytes_app, app_assoc|].
  split; [intros p H1 H2; by rewrite F2, F1|].
  split; [by etrans|]. split; [intros k Hk; by rewrite I2, I1|auto].
Qed.

Lemma quiet_event_writes tr : Forall quiet_event tr → writes_of tr = [].
Proof.
  induction 1 as [|e tr He _ IH]; [done|]. unfold writes_of in *. simpl.
  destruct e; try done.
Qed.

Lemma quiet_loop_step cache_file w w' :
  quiet_step w w' → ∃ tr, loop_step cache_file tr w w' ∧ writes_of tr = [].
Proof.
  intros (F & B & K & C & I & Sg & tr & T & E).
  pose proof (quiet_event_writes tr E) as Hw.
  exists tr. split; [|done]. repeat split; try done.
  - rewrite Hw. simpl. by rewrite app_nil_r.
  - intros. by rewrite F.
Qed.

Section Loop.

Variable google : nat → list N → list N → list N + list N.
Variable clock : nat → Q.
Variable cache_file : list N.

Lemma fout_write_step s w :
  ∃ w', fout_write s w = (Ok (), w') ∧ loop_step cache_file [EvWrite s] w w'.
Proof.
  eexists. split; [reflexivity|]. repeat split; try done; simpl.
  by rewrite app_nil_r.
Qed.

Lemma write_line_spec dest debug lineno line w r w1 :
  write_line google dest debug lineno line w = (r, w1) →
  ∃ tr, loop_step cache_file tr w w1
        ∧ match r with
          | Ok _ => wrote line tr
          | Raise KeyboardInterrupt =>
              is_Some (sigint w) ∧ sigint w1 = None ∧ writes_of tr = []
          | Raise _ => False
          end.
Proof.
  unfold write_line, wrote, line_image. destruct (has_quote line).
  - intros Hrun. apply bind_inv in Hrun as [([t chg] & w2 & H1 & H2)|(e & H1 & ->)].
    + apply spec_translate_line in H1 as [Hq (ys & Hf & _ & Ht)].
      simpl in Ht. subst t.
      apply (quiet_loop_step cache_file) in Hq as (tr & Hstep & Hw).
      destruct (fout_write_step (render ys ++ [LF]) w2) as (w3 & Hfw & Hstep3).
      apply bind_inv in H2 as [([] & w4 & H3 & H4)|(e & H3 & ->)];
        rewrite Hfw in H3; [|done].
      injection H3 as <-. injection H4 as <- <-.
      exists (tr ++ [EvWrite (render ys ++ [LF])]).
      split; [by eapply loop_step_trans|].
      exists (render ys ++ [LF]). rewrite writes_of_app, Hw. split; [done|eauto].
    + apply spec_translate_line in H1 as [Hq Ho].
      apply (quiet_loop_step cache_file) in Hq as (tr & Hstep & Hw).
      exists tr. split; [done|]. destruct e; simpl in *; try done.
      by destruct Ho.
  - intros Hrun. destruct (fout_write_step line w) as (w3 & Hfw & Hstep3).
    apply bind_inv in Hrun as [([] & w4 & H3 & H4)|(e & H3 & ->)];
      rewrite Hfw in H3; [|done].
    injection H3 as <-. injection H4 as <- <-.
    exists [EvWrite line]. split; [done|]. by exists line.
Qed.

Lemma checkpoint_step w r w1 :
  checkpoint w = (r, w1) →
  loop_step cache_file [] w w1
  ∧ match r with
    | Ok _ => True
    | Raise KeyboardInterrupt => is_Some (sigint w) ∧ sigint w1 = None
    | Raise _ => False
    end.
Proof.
  unfold checkpoint. destruct (sigint w) as [[|n]|] eqn:Es; intros [= <- <-].
  - split; [|split; [eauto|done]].
    repeat split; try done; simpl; by rewrite app_nil_r.
  - split; [|done].
    repeat split; try done; simpl; try congruence;
      change (latin1_bytes []) with (@nil byte); by rewrite ?app_nil_r.
  - split; [apply loop_step_refl|done].
Qed.

Lemma save_cache_step m w r w1 :
  save_cache cache_file m w = (r, w1) →
  ∃ tr, loop_step cache_file tr w w1 ∧ writes_of tr = [] ∧ cache w1 = cache w
        ∧ match r with
          | Ok _ => is_Some (utf8_encode (json_dumps m))
          | Raise (Exception _) => utf8_encode (json_dumps m) = None
          | Raise _ => False
          end.
Proof.
  destruct (utf8_encode (json_dumps m)) as [bs|] eqn:E.
  - rewrite (save_cache_ok _ _ _ _ E). intros [= <- <-].
    exists [EvWriteFile (tmp_path cache_file); EvReplace (tmp_path cache_file) cache_file].
    split; [|by eauto]. unfold flushed. repeat split; try done; simpl.
    + by rewrite app_nil_r.
    + intros p H1 H2. by rewrite lookup_insert_ne, lookup_delete_ne.
  - unfold save_cache.
    destruct (write_chunks (dump_chunks (map_to_list m)) []) as [[[]|e] bs] eqn:Ew.
    { apply write_chunks_ok in Ew as (? & ? & ?). unfold json_dumps in E. congruence. }
    assert (∃ x, e = Exception x) as [x ->].
    { clear -Ew. revert Ew. generalize (@nil byte).
      induction (dump_chunks (map_to_list m)) as [|c cs IH]; intros acc; simpl; [done|].
      destruct (utf8_encode c); [apply IH|]. intros [= <- _]. eauto. }
    mrun. intros [= <- <-]. exists [EvWriteFile (tmp_path cache_file)].
    split; [|done].
    unfold write_content. repeat split; try done; simpl.
    + by rewrite app_nil_r.
    + intros p H1 H2. by rewrite lookup_insert_ne.
Qed.

Lemma periodic_save_spec last w r w1 :
  periodic_save clock cache_file last w = (r, w1) →
  ∃ tr, loop_step cache_file tr w w1 ∧ writes_of tr = []
        ∧ match r with
          | Ok _ => True
          | Raise (Exception _) => utf8_encode (json_dumps (cache w1)) = None
          | Raise _ => False
          end.
Proof.
  unfold periodic_save, time_time. mrun.
  set (w0 := set_clock_reads (S (clock_reads w)) w).
  assert (loop_step cache_file [] w w0) as H0.
  { repeat split; try done; simpl; by rewrite app_nil_r. }
  destruct (Qle_bool _ _).
  - destruct (save_cache cache_file (cache w0) w0) as [[[]|e] w2] eqn:Es;
      intros [= <- <-]; apply save_cache_step in Es as (tr & Hstep & Hw & Hc & Ho);
      exists tr; (split; [by apply (loop_step_trans _ [] tr w w0)|]);
      (split; [done|]); [done|].
    destruct e; try done. rewrite Hc. exact Ho.
  - intros [= <- <-]. exists []. by split.
Qed.

Lemma report_progress_spec debug total changed w r w1 :
  report_progress debug total changed w = (r, w1) →
  ∃ tr, loop_step cache_file tr w w1 ∧ writes_of tr = [] ∧ ∃ x, r = Ok x.
Proof.
  unfold report_progress. destruct (_ && _); mrun; intros [= <- <-].
  - exists [EvStdout (MsgProgress total changed (size (cache w)))].
    split; [|by eauto]. repeat split; try done; simpl. by rewrite app_nil_r.
  - exists []. split; [apply loop_step_refl|by eauto].
Qed.

(** One iteration of the loop body. *)
Lemma process_line_spec dest debug lineno line st w r w1 :
  process_line google clock dest cache_file debug lineno line st w = (r, w1) →
  ∃ tr, loop_step cache_file tr w w1
        ∧ match r with
          | Ok st' => wrote line tr ∧ total_lines st' = S (total_lines st)
          | Raise KeyboardInterrupt =>
              is_Some (sigint w) ∧ sigint w1 = None
              ∧ (writes_of tr = [] ∨ wrote line tr)
          | Raise (Exception _) =>
              wrote line tr ∧ utf8_encode (json_dumps (cache w1)) = None
          | Raise (SystemExit _) => False
          end.
Proof.
  unfold process_line. intros Hrun.
  apply bind_inv in Hrun as [(chg & w2 & H1 & Hrun)|(e & H1 & ->)]; cycle 1.
  { apply write_line_spec in H1 as (tr & Hstep & Ho). exists tr. split; [done|].
    destruct e; try done. destruct Ho as (? & ? & ?). auto. }
  apply write_line_spec in H1 as (tr1 & Hstep1 & Hw1).
  assert (sigint w = None → sigint w2 = None) as Hs12 by apply Hstep1.
  apply bind_inv in Hrun as [([] & w3 & H2 & Hrun)|(e & H2 & ->)]; cycle 1.
  { apply checkpoint_step in H2 as [Hstep2 Ho]. exists (tr1 ++ []).
    split; [by eapply loop_step_trans|]. rewrite app_nil_r.
    destruct e; try done. destruct Ho as [Hs ?]. split; [|by auto].
    destruct (sigint w); [done|]. rewrite Hs12 in Hs by done. by destruct Hs. }
  apply checkpoint_step in H2 as [Hstep2 _].
  apply bind_inv in Hrun as [(last & w4 & H3 & Hrun)|(e & H3 & ->)]; cycle 1.
  { apply periodic_save_spec in H3 as (tr3 & Hstep3 & Hw3 & Ho).
    exists ((tr1 ++ []) ++ tr3).
    split; [eapply loop_step_trans; [by eapply loop_step_trans|done]|].
    destruct e; try done. split; [|done].
    destruct Hw1 as (rec & Hrec & Himg). exists rec.
    by rewrite !writes_of_app, Hrec, Hw3. }
  apply periodic_save_spec in H3 as (tr3 & Hstep3 & Hw3 & _).
  apply bind_inv in Hrun as [([] & w5 & H4 & Hrun)|(e & H4 & ->)]; cycle 1.
  { apply report_progress_spec in H4 as (_ & _ & _ & x & Hx). done. }
  apply report_progress_spec in H4 as (tr4 & Hstep4 & Hw4 & _).
  injection Hrun as <- <-.
  exists (((tr1 ++ []) ++ tr3) ++ tr4).
  split.
  { eapply loop_step_trans; [eapply loop_step_trans; [by eapply loop_step_trans|done]|done]. }
  split; [|done]. destruct Hw1 as (rec & Hrec & Himg). exists rec.
  by rewrite !writes_of_app, Hrec, Hw3, Hw4.
Qed.

(** The loop: what was written is the image of a prefix of the lines, of
    all of them if the loop ran to its end. *)
Lemma process_lines_spec dest debug lines : ∀ lineno st w r w1,
  process_lines google clock dest cache_file debug lineno lines st w = (r, w1) →
  ∃ tr, loop_step cache_file tr w w1
        ∧ Forall2 line_image (take (length (writes_of tr)) lines) (writes_of tr)
        ∧ match r with
          | Ok st' => length (writes_of tr) = length lines
                      ∧ total_lines st' = (total_lines st + length lines)%nat
          | Raise KeyboardInterrupt => is_Some (sigint w) ∧ sigint w1 = None
          | Raise (Exception _) => utf8_encode (json_dumps (cache w1)) = None
          | Raise (SystemExit _) => False
          end.
Proof.
  induction lines as [|line lines IH]; intros lineno st w r w1; simpl.
  { intros [= <- <-]. exists []. split; [apply loop_step_refl|]. simpl.
    split; [constructor|]. split; [done|lia]. }
  intros Hrun.
  apply bind_inv in Hrun as [([] & w2 & H1 & Hrun)|(e & H1 & ->)]; cycle 1.
  { apply checkpoint_step in H1 as [Hstep Ho]. exists []. split; [done|].
    split; [constructor|]. by destruct e. }
  apply checkpoint_step in H1 as [Hstep1 _].
  assert (sigint w = None → sigint w2 = None) as Hs12 by apply Hstep1.
  apply bind_inv in Hrun as [(st' & w3 & H2 & Hrun)|(e & H2 & ->)]; cycle 1.
  { apply process_line_spec in H2 as (tr & Hstep & Ho). exists ([] ++ tr).
    split; [by eapply loop_step_trans|]. simpl.
    assert (writes_of tr = [] ∨ wrote line tr) as [Hw|(rec & Hw & Himg)].
    { destruct e; try done; [by destruct Ho as (? & ? & ?)|right; by destruct Ho]. }
    - rewrite Hw. split; [constructor|]. destruct e; try done.
      + destruct Ho as (Hs & ? & _). split; [|done].
        destruct (sigint w); [done|]. rewrite Hs12 in Hs by done. by destruct Hs.
      + by destruct Ho.
    - rewrite Hw. simpl. split; [by repeat constructor|]. destruct e; try done.
      + destruct Ho as (Hs & ? & _). split; [|done].
        destruct (sigint w); [done|]. rewrite Hs12 in Hs by done. by destruct Hs.
      + by destruct Ho. }
  apply process_line_spec in H2 as (tr2 & Hstep2 & (rec & Hrec & Himg) & Htot).
  assert (sigint w2 = None → sigint w3 = None) as Hs23 by apply Hstep2.
  apply IH in Hrun as (tr3 & Hstep3 & Himgs & Ho).
  exists (([] ++ tr2) ++ tr3).
  split; [eapply loop_step_trans; [by eapply loop_step_trans|done]|].
  simpl. rewrite writes_of_app, Hrec. simpl.
  split; [by constructor|].
  destruct r as [st''|[| |]]; try done.
  - destruct Ho as [-> ->]. split; [done|]. rewrite Htot. lia.
  - destruct Ho as [Hs ?]. split; [|done].
    destruct (sigint w); [done|].
    assert (sigint w3 = None) as Hn by auto. rewrite Hn in Hs. by destruct Hs.
Qed.

End Loop.

(** ** The derived paths are pairwise distinct *)

Lemma rfind_tail_head d s t :
  rfind_tail d s = Some t → ∃ t', t = d :: t' ∧ Forall (λ c, c ≠ d) t'.
Proof.
  revert t. induction s as [|c s IH]; intros t; simpl; [done|].
  destruct (rfind_tail d s) as [t0|] eqn:E.
  - intros [= <-]. by apply IH.
  - destruct (N.eqb_spec c d) as [->|]; [|done]. intros [= <-].
    exists s. split; [done|]. clear IH.
    induction s as [|c s IH]; [constructor|]. simpl in E.
    destruct (rfind_tail d s); [done|].
    destruct (N.eqb_spec c d); [done|]. constructor; auto.
Qed.

Lemma path_suffix_shape p :
  path_suffix p = [] ∨ ∃ t, path_suffix p = DOT :: t ∧ Forall (λ c, c ≠ DOT) t.
Proof.
  unfold path_suffix. destruct (rfind_tail DOT (path_name p)) as [t|] eqn:E; [|by left].
  destruct (_ && _)%nat; [|by left]. right. by eapply rfind_tail_head.
Qed.

Lemma with_suffix_split p :
  ∃ base, p = base ++ path_suffix p ∧ ∀ x, with_suffix p x = base ++ x.
Proof.
  destruct (path_suffix_suffix p) as [k Hk]. exists k. split; [done|].
  intros x. unfold with_suffix.
  remember (path_suffix p) as sfx eqn:E. clear E. subst p.
  by rewrite length_app, Nat.add_sub, take_app_length.
Qed.

Lemma paths_distinct path dest :
  NoDup [path; choose_output_path path dest; cache_path_for path dest;
         tmp_path (cache_path_for path dest)].
Proof.
  unfold choose_output_path, cache_path_for. rewrite tmp_path_eq.
  destruct (with_suffix_split path) as (base & Hp & Hw). rewrite !Hw, app_nil_r.
  set (sfx := path_suffix path) in *.
  assert (∀ x y : list N, base ++ x = base ++ y → x = y) as Hinj
    by (intros x y; apply app_inv_head).
  assert (∀ x : list N, Forall (λ c, c ≠ DOT) x → DOT ∈ x → False) as Hdot.
  { intros x Hx Hin. rewrite Forall_forall in Hx. by apply (Hx DOT). }
  apply NoDup_cons. split.
  { rewrite !elem_of_cons, elem_of_nil. intros [H|[H|[H|[]]]].
    - apply (f_equal length) in H. rewrite Hp, !length_app in H.
      destruct sfx; simpl in H; lia.
    - rewrite Hp in H. apply Hinj in H.
      destruct (path_suffix_shape path) as [E|(t & E & Ht)]; fold sfx in E;
        rewrite E in H; [done|].
      assert (t = u "cache_" ++ dest ++ DOT :: u "json") as ->
        by (by injection H).
      apply (Hdot _ Ht). rewrite !elem_of_app. right. right. by left.
    - rewrite Hp, <-!app_assoc in H. apply Hinj in H.
      destruct (path_suffix_shape path) as [E|(t & E & Ht)]; fold sfx in E;
        rewrite E in H; [done|].
      assert (t = u "cache_" ++ dest ++ DOT :: u "json" ++ u ".tmp") as ->
        by (by injection H).
      apply (Hdot _ Ht). rewrite !elem_of_app. right. right. by left. }
  apply NoDup_cons. split.
  { rewrite !elem_of_cons, elem_of_nil. intros [H|[H|[]]].
    - apply Hinj in H. done.
    - rewrite <-app_assoc in H. apply Hinj in H. done. }
  apply NoDup_cons. split.
  { rewrite !elem_of_cons, elem_of_nil. intros [H|[]].
    apply (f_equal length) in H. rewrite !length_app in H. simpl in H. lia. }
  apply NoDup_singleton.
Qed.

(** ** Interruptions are neither lost nor made up *)










Section Faithful.

Variable google : nat → list N → list N → list N + list N.
Variable clock : nat → Q.









End Faithful.

(** ** [main] as a whole *)

Lemma decode_latin1 e bs :
  decode_with latin1_decode_table e bs = Some (map Byte.to_N bs).
Proof. induction bs as [|b bs IH]; simpl; [done|]. by rewrite IH. Qed.

Lemma file_lines_total bs : file_lines bs = Some (input_lines bs).
Proof.
  unfold file_lines, read_text_latin1, input_lines. by rewrite decode_latin1.
Qed.

Section Main.

Variable google : nat → list N → list N → list N + list N.
Variable clock : nat → Q.
Variable LANGUAGES : list N → option (list N).

Lemma with_files_run {A} path out_path (body : list (list N) → M A) f w :
  files w !! path = Some f → readable f = true → path ≠ out_path →
  with_files path out_path body w
  = (let '(r, w3) := body (input_lines (content f)) (opened out_path w) in
     (r, closed out_path w3)).
Proof.
  intros Hf Hr Hne. unfold with_files. mrun. rewrite Hf, Hr. simpl.
  unfold write_content at 1. rewrite lookup_insert_ne by done. rewrite Hf. simpl.
  by rewrite file_lines_total.
Qed.

Lemma with_files_unreadable {A} path out_path (body : list (list N) → M A) f w :
  files w !! path = Some f → readable f = false →
  with_files path out_path body w = (Raise (Exception (u "PermissionError")), w).
Proof. intros Hf Hr. unfold with_files. mrun. by rewrite Hf, Hr. Qed.

Lemma at_loop_eq path dest c w :
  set_trace
    ((trace w ++ [EvStdout MsgBanner]) ++ header LANGUAGES path dest c)
    (set_clock_reads (S (clock_reads w))
       (set_cache c (set_trace (trace w ++ [EvStdout MsgBanner]) w)))
  = at_loop LANGUAGES path dest c w.
Proof. unfold at_loop. destruct w. simpl. f_equal. by rewrite <-app_assoc. Qed.

Lemma on_interrupt_raises cache_file out_path w :
  ∃ e w1, ∀ A, @on_interrupt A cache_file out_path w = (Raise e, w1).
Proof.
  unfold on_interrupt. mrun.
  destruct (save_cache cache_file _ _) as [[[]|e] w1]; eauto.
Qed.

Lemma main_cases path dest debug w r w' :
  main google clock LANGUAGES path dest debug w = (r, w') →
  main_case google clock LANGUAGES path dest debug w r w'.
Proof.
  unfold main. mrun. unfold is_file.
  destruct (files w !! path) as [f|] eqn:Hf; simpl.
  2:{ intros [= <- <-]. by apply Main_no_input. }
  rewrite load_cache_run. simpl.
  destruct (as_cache (cache_file_value _ _)) as [c|] eqn:Hc; simpl.
  2:{ intros [= <- <-]. by eapply Main_bad_cache. }
  rewrite at_loop_eq.
  unfold run_loop, try_except_KeyboardInterrupt.
  assert (path ≠ choose_output_path path dest) as Hne.
  { pose proof (paths_distinct path dest) as Hd.
    apply NoDup_cons in Hd as [Hd _]. intros Heq. apply Hd.
    rewrite <-Heq. by left. }
  destruct (readable f) eqn:Hr.
  - rewrite (with_files_run _ _ _ f) by done.
    destruct (process_lines _ _ _ _ _ _ _ _ _) as [rl wl] eqn:Hl.
    intros Hrun. eapply Main_loop; [done..|].
    destruct rl as [st|[| |e]]; try done.
    + destruct (on_interrupt_raises (cache_path_for path dest)
                  (choose_output_path path dest)
                  (closed (choose_output_path path dest) wl)) as (e & w1 & He).
      rewrite He in Hrun. rewrite He. done.
    + by injection Hrun as <- <-.
    + by injection Hrun as <- <-.
  - rewrite (with_files_unreadable _ _ _ f) by done.
    intros [= <- <-]. by eapply Main_unreadable.
Qed.

End Main.

(** ** Leaving the loop *)


Lemma finish_run cache_file out_path st w bs :
  utf8_encode (json_dumps (cache w)) = Some bs →
  finish cache_file out_path st w
  = (Ok (),
     set_files (<[cache_file := File true bs]> (delete (tmp_path cache_file) (files w)))
       (set_trace (trace w ++ [EvWriteFile (tmp_path cache_file);
                               EvReplace (tmp_path cache_file) cache_file;
                               EvStdout MsgRule;
                               EvStdout (MsgDone out_path);
                               EvStdout (MsgLines (total_lines st) (changed_lines st));
                               EvStdout (MsgEntries (size (cache w)));
                               EvStdout MsgRule]) w)).
Proof.
  intros Hbs. unfold finish. mrun.
  rewrite (save_cache_ok _ _ _ bs) by done. simpl. f_equal.
  unfold flushed. destruct w. simpl. f_equal. by rewrite <-!app_assoc.
Qed.



Section Interrupt.

Variable google : nat → list N → list N → list N + list N.
Variable clock : nat → Q.
Variable LANGUAGES : list N → option (list N).


End Interrupt.

(** ** Runs under a warm cache *)

Lemma only_traced_refl w : only_traced w w.
Proof. repeat split; try done. exists []. by rewrite app_nil_r. Qed.

Lemma only_traced_trans w1 w2 w3 :
  only_traced w1 w2 → only_traced w2 w3 → only_traced w1 w3.
Proof.
  intros (F1 & B1 & C1 & N1 & K1 & S1 & tr1 & T1 & X1 & Y1)
         (F2 & B2 & C2 & N2 & K2 & S2 & tr2 & T2 & X2 & Y2).
  repeat split; try congruence.
  exists (tr1 ++ tr2). split; [by rewrite T2, T1, app_assoc|].
  unfold calls_of, writes_of in *. by rewrite !omap_app, X1, X2, Y1, Y2.
Qed.

Lemma only_traced_traced debug lineno source inner out w :
  only_traced w (traced debug lineno source inner out w).
Proof.
  unfold traced. destruct debug; [|apply only_traced_refl].
  repeat split; try done. eexists. split; [done|]. done.
Qed.

Section Warm.

Variable google : nat → list N → list N → list N + list N.
Variable clock : nat → Q.
Variable cache_file : list N.

Lemma warm_sub_segments dest debug lineno xs : ∀ w,
  warm_segs (cache w) xs →
  ∃ chg w',
    sub_segments (_repl google dest debug lineno) xs w
    = (Ok (concat (map (subst_seg (cache w)) xs), chg), w')
    ∧ only_traced w w'.
Proof.
  induction xs as [|[c|inner] xs IH]; intros w Hwarm; simpl.
  - exists false, w. split; [done|apply only_traced_refl].
  - destruct (IH w) as (chg & w' & Hrun & Hw).
    { intros i Hi. apply Hwarm. by right. }
    exists chg, w'. split; [|done]. by rewrite (bind_ok _ _ _ _ _ Hrun).
  - destruct (is_inert inner) eqn:Hi.
    + destruct (IH w) as (chg & w' & Hrun & Hw).
      { intros i Hin. apply Hwarm. by right. }
      exists (false || chg), w'. split; [|done].
      rewrite (bind_ok _ _ _ _ _ (repl_inert google dest debug lineno inner w Hi)).
      by rewrite (bind_ok _ _ _ _ _ Hrun).
    + destruct (Hwarm inner) as [out Hout]; [by left|done|].
      rewrite Hout. simpl.
      pose proof (repl_hit google dest debug lineno inner out w Hi Hout) as Hr.
      set (w1 := traced debug lineno FromCache inner out w) in *.
      assert (only_traced w w1) as H1 by apply only_traced_traced.
      assert (cache w1 = cache w) as Hc1 by apply H1.
      destruct (IH w1) as (chg & w' & Hrun & Hw).
      { rewrite Hc1. intros i Hin. apply Hwarm. by right. }
      exists (bool_decide (out ≠ inner) || chg), w'.
      split; [|by eapply only_traced_trans].
      rewrite (bind_ok _ _ _ _ _ Hr), (bind_ok _ _ _ _ _ Hrun). by rewrite Hc1.
Qed.

Lemma warm_translate_line line dest debug lineno w :
  (has_quote line = true → warm_segs (cache w) (scan line)) →
  ∃ chg w',
    translate_line google line dest debug lineno w
    = (Ok (subst_line (cache w) line, chg), w')
    ∧ only_traced w w'.
Proof.
  intros Hwarm. unfold translate_line, subst_line.
  destruct (has_quote line); simpl.
  - by apply warm_sub_segments, Hwarm.
  - exists false, w. split; [done|apply only_traced_refl].
Qed.

Lemma warm_step_refl w : warm_step cache_file [] w w.
Proof. split; [apply loop_step_refl|done]. Qed.

Lemma warm_step_trans tr1 tr2 w1 w2 w3 :
  warm_step cache_file tr1 w1 w2 → warm_step cache_file tr2 w2 w3 →
  warm_step cache_file (tr1 ++ tr2) w1 w3.
Proof.
  intros (L1 & C1 & N1 & X1 & S1) (L2 & C2 & N2 & X2 & S2).
  split; [by eapply loop_step_trans|].
  repeat split; try congruence. unfold calls_of in *. by rewrite omap_app, X1, X2.
Qed.

Lemma only_traced_warm_step w w' :
  only_traced w w' → ∃ tr, warm_step cache_file tr w w' ∧ writes_of tr = [].
Proof.
  intros (F & B & C & N & K & Sg & tr & T & X & Y).
  exists tr. split; [|done]. repeat split; try done.
  - rewrite Y. simpl. change (latin1_bytes []) with (@nil byte).
    by rewrite app_nil_r.
  - intros. by rewrite F.
  - by rewrite C.
  - intros. by rewrite C.
  - congruence.
Qed.

Lemma warm_write_line dest debug lineno line w :
  (has_quote line = true → warm_segs (cache w) (scan (rstrip_lf line))) →
  ∃ chg tr w',
    write_line google dest debug lineno line w = (Ok chg, w')
    ∧ warm_step cache_file tr w w'
    ∧ writes_of tr = [record_of (cache w) line].
Proof.
  intros Hwarm. unfold write_line, record_of.
  destruct (has_quote line) eqn:Hq.
  - destruct (warm_translate_line (rstrip_lf line) dest debug (Some lineno) w)
      as (chg & w1 & Hrun & Hw); [by intros _; apply Hwarm|].
    apply only_traced_warm_step in Hw as (tr & Hstep & Hwr).
    exists chg, (tr ++ [EvWrite (subst_line (cache w) (rstrip_lf line) ++ [LF])]).
    eexists. rewrite (bind_ok _ _ _ _ _ Hrun). split; [reflexivity|].
    split; [|by rewrite writes_of_app, Hwr].
    eapply warm_step_trans; [exact Hstep|].
    repeat split; try done; simpl. by rewrite app_nil_r.
  - exists false, [EvWrite line]. eexists. split; [reflexivity|].
    split; [|done]. repeat split; try done; simpl.
    by rewrite app_nil_r.
Qed.

Lemma warm_periodic_save last w :
  sigint w = None →
  ∃ r tr w',
    periodic_save clock cache_file last w = (r, w')
    ∧ warm_step cache_file tr w w' ∧ writes_of tr = []
    ∧ match r with
      | Ok _ => True
      | Raise (Exception _) => utf8_encode (json_dumps (cache w)) = None
      | Raise _ => False
      end.
Proof.
  intros Hs. unfold periodic_save, time_time. mrun.
  set (w0 := set_clock_reads (S (clock_reads w)) w).
  assert (warm_step cache_file [] w w0) as H0.
  { split; [|done]. repeat split; try done; simpl.
    change (latin1_bytes []) with (@nil byte). by rewrite app_nil_r.
    by rewrite app_nil_r. }
  destruct (Qle_bool _ _).
  - destruct (utf8_encode (json_dumps (cache w0))) as [bs|] eqn:E.
    + rewrite (save_cache_ok _ _ _ bs) by done. simpl.
      exists (Ok (clock (clock_reads w))),
        [EvWriteFile (tmp_path cache_file); EvReplace (tmp_path cache_file) cache_file],
        (flushed cache_file bs w0).
      split; [reflexivity|]. split; [|done].
      apply (warm_step_trans [] _ w w0); [done|].
      unfold flushed. repeat split; try done; simpl.
      * by rewrite app_nil_r.
      * intros p H1 H2. by rewrite lookup_insert_ne, lookup_delete_ne.
    + destruct (save_cache cache_file (cache w0) w0) as [[[]|e] w2] eqn:Es.
      * apply save_cache_inv in Es as (bs & Hbs & _). congruence.
      * pose proof Es as Es'.
        apply (save_cache_step cache_file) in Es as (tr & Hstep & Hw & Hc & Ho).
        exists (Raise e), tr, w2. split; [done|].
        assert (translate_calls w2 = translate_calls w0 ∧ sigint w2 = sigint w0
                ∧ calls_of tr = []) as (Hn & Hsg & Hcalls).
        { unfold save_cache in Es'. revert Es'.
          destruct (write_chunks _ _) as [[|e'] bs]; mrun.
          - done.
          - intros [= <- <-]. destruct Hstep as (Ht & _). simpl in Ht.
            apply app_inv_head in Ht. subst tr. done. }
        split; [|split; [done|by destruct e]].
        apply (warm_step_trans [] tr w w0); [done|]. by split.
  - exists (Ok last), [], w0. split; [reflexivity|]. split; [done|done].
Qed.

Lemma checkpoint_idle w : sigint w = None → checkpoint w = (Ok (), w).
Proof. intros Hs. unfold checkpoint. by rewrite Hs. Qed.

Lemma warm_report_progress debug total changed w :
  ∃ tr w',
    report_progress debug total changed w = (Ok (), w')
    ∧ warm_step cache_file tr w w' ∧ writes_of tr = [].
Proof.
  unfold report_progress. destruct (_ && _); mrun.
  - exists [EvStdout (MsgProgress total changed (size (cache w)))]. eexists.
    split; [reflexivity|]. split; [|done].
    repeat split; try done; simpl. by rewrite app_nil_r.
  - exists [], w. split; [done|]. split; [apply warm_step_refl|done].
Qed.

Lemma warm_process_line dest debug lineno line st w :
  sigint w = None →
  (has_quote line = true → warm_segs (cache w) (scan (rstrip_lf line))) →
  ∃ r tr w',
    process_line google clock dest cache_file debug lineno line st w = (r, w')
    ∧ warm_step cache_file tr w w'
    ∧ writes_of tr = [record_of (cache w) line]
    ∧ match r with
      | Ok _ => True
      | Raise (Exception _) => utf8_encode (json_dumps (cache w)) = None
      | Raise _ => False
      end.
Proof.
  intros Hs Hwarm. unfold process_line.
  destruct (warm_write_line dest debug lineno line w Hwarm)
    as (chg & tr1 & w1 & H1 & Hstep1 & Hw1).
  rewrite (bind_ok _ _ _ _ _ H1).
  assert (sigint w1 = None) as Hs1 by (destruct Hstep1 as (_ & _ & _ & _ & ->); done).
  assert (cache w1 = cache w) as Hc1 by apply Hstep1.
  rewrite (bind_ok _ _ _ _ _ (checkpoint_idle w1 Hs1)).
  destruct (warm_periodic_save (last_save st) w1 Hs1)
    as (r2 & tr2 & w2 & H2 & Hstep2 & Hw2 & Ho2).
  destruct r2 as [last|e].
  - rewrite (bind_ok _ _ _ _ _ H2).
    destruct (warm_report_progress debug (S (total_lines st))
                (if chg then S (changed_lines st) else changed_lines st) w2)
      as (tr3 & w3 & H3 & Hstep3 & Hw3).
    rewrite (bind_ok _ _ _ _ _ H3).
    eexists (Ok _), ((tr1 ++ tr2) ++ tr3), w3. split; [reflexivity|].
    split; [eapply warm_step_trans; [by eapply warm_step_trans|done]|].
    split; [|done]. by rewrite !writes_of_app, Hw1, Hw2, Hw3.
  - rewrite (bind_raise _ _ _ _ _ H2).
    exists (Raise e), (tr1 ++ tr2), w2. split; [done|].
    split; [by eapply warm_step_trans|].
    split; [by rewrite !writes_of_app, Hw1, Hw2|].
    destruct e; try done. by rewrite <-Hc1.
Qed.

Lemma warm_process_lines dest debug lines : ∀ lineno st w,
  sigint w = None →
  warm (cache w) lines →
  ∃ r tr w',
    process_lines google clock dest cache_file debug lineno lines st w = (r, w')
    ∧ warm_step cache_file tr w w'
    ∧ match r with
      | Ok _ => writes_of tr = map (record_of (cache w)) lines
      | Raise (Exception _) => utf8_encode (json_dumps (cache w)) = None
      | Raise _ => False
      end.
Proof.
  induction lines as [|line lines IH]; intros lineno st w Hs Hwarm; simpl.
  - exists (Ok st), [], w. split; [done|]. split; [apply warm_step_refl|done].
  - rewrite (bind_ok _ _ _ _ _ (checkpoint_idle w Hs)).
    destruct (warm_process_line dest debug lineno line st w Hs)
      as (r1 & tr1 & w1 & H1 & Hstep1 & Hw1 & Ho1).
    { apply Hwarm. by left. }
    assert (sigint w1 = None) as Hs1 by (destruct Hstep1 as (_ & _ & _ & _ & ->); done).
    assert (cache w1 = cache w) as Hc1 by apply Hstep1.
    destruct r1 as [st'|e].
    + rewrite (bind_ok _ _ _ _ _ H1).
      destruct (IH (S lineno) st' w1 Hs1) as (r2 & tr2 & w2 & H2 & Hstep2 & Ho2).
      { rewrite Hc1. intros l Hl. apply Hwarm. by right. }
      exists r2, (tr1 ++ tr2), w2. split; [done|].
      split; [by eapply warm_step_trans|].
      destruct r2 as [st''|[| |e]]; try done.
      * by rewrite writes_of_app, Hw1, Ho2, Hc1.
      * by rewrite <-Hc1.
    + rewrite (bind_raise _ _ _ _ _ H1).
      exists (Raise e), tr1, w1. split; [done|]. split; [done|]. by destruct e.
Qed.

End Warm.

(** ** Whole runs under a warm cache *)

Lemma warmb_spec m lines : warmb m lines = true → warm m lines.
Proof.
  unfold warmb, warm, warm_segsb, warm_segs. rewrite forallb_forall.
  intros H line Hl Hq inner Hin Hni.
  apply list_elem_of_In in Hl. specialize (H line Hl).
  rewrite Hq in H. simpl in H. rewrite forallb_forall in H.
  apply list_elem_of_In in Hin. specialize (H _ Hin). simpl in H.
  rewrite Hni in H. simpl in H. by apply bool_decide_eq_true in H.
Qed.


Lemma paths_ne path dest :
  path ≠ choose_output_path path dest
  ∧ path ≠ cache_path_for path dest
  ∧ path ≠ tmp_path (cache_path_for path dest)
  ∧ choose_output_path path dest ≠ cache_path_for path dest
  ∧ choose_output_path path dest ≠ tmp_path (cache_path_for path dest)
  ∧ cache_path_for path dest ≠ tmp_path (cache_path_for path dest).
Proof.
  pose proof (paths_distinct path dest) as Hd.
  apply NoDup_cons in Hd as [H1 Hd]. apply NoDup_cons in Hd as [H2 Hd].
  apply NoDup_cons in Hd as [H3 _].
  apply not_elem_of_cons in H1 as [? H1]. apply not_elem_of_cons in H1 as [? H1].
  apply not_elem_of_cons in H1 as [? _].
  apply not_elem_of_cons in H2 as [? H2]. apply not_elem_of_cons in H2 as [? _].
  apply not_elem_of_cons in H3 as [? _].
  done.
Qed.

Lemma calls_of_app tr1 tr2 : calls_of (tr1 ++ tr2) = calls_of tr1 ++ calls_of tr2.
Proof. unfold calls_of. apply omap_app. Qed.

Section WarmRun.

Variable google : nat → list N → list N → list N + list N.
Variable clock : nat → Q.
Variable LANGUAGES : list N → option (list N).

(** A run whose cache file holds a warm mapping that can be written back:
    it ends normally, without a call, and leaves the records of the input
    under that mapping in the output file and the mapping in the cache
    file. *)
Lemma warm_main path dest debug f m bs w :
  sigint w = None →
  files w !! path = Some f → readable f = true →
  as_cache (cache_file_value (files w) (cache_path_for path dest)) = Some m →
  warm m (input_lines (content f)) →
  utf8_encode (json_dumps m) = Some bs →
  ∃ w' tr,
    main google clock LANGUAGES path dest debug w = (Ok (), w')
    ∧ files w' !! choose_output_path path dest
      = Some (File true (latin1_bytes
                (concat (map (record_of m) (input_lines (content f))))))
    ∧ files w' !! cache_path_for path dest = Some (File true bs)
    ∧ files w' !! path = Some f
    ∧ sigint w' = None
    ∧ translate_calls w' = translate_calls w
    ∧ trace w' = trace w ++ tr ∧ calls_of tr = [].
Proof.
  intros Hs Hf Hr Hc Hwarm Hbs.
  destruct (paths_ne path dest) as (N1 & N2 & N3 & N4 & N5 & N6).
  set (out_path := choose_output_path path dest) in *.
  set (cache_file := cache_path_for path dest) in *.
  unfold main. mrun. unfold is_file. rewrite Hf. simpl.
  rewrite load_cache_run. simpl. fold cache_file. rewrite Hc. simpl.
  rewrite at_loop_eq.
  unfold run_loop, try_except_KeyboardInterrupt. fold out_path cache_file.
  rewrite (with_files_run _ _ _ f) by done.
  set (w0 := opened out_path (at_loop LANGUAGES path dest m w)).
  destruct (warm_process_lines google clock cache_file dest debug
              (input_lines (content f)) 1%nat
              (Counters 0 0 (clock (clock_reads w))) w0)
    as (rl & tr & wl & Hl & Hstep & Ho); [done..|].
  rewrite Hl.
  destruct Hstep as ((Htr & Hbuf & Hfiles & _ & _ & Hsig) & Hcache & Hcalls & Hnc & _).
  destruct rl as [st|[| |e]]; try done.
  2:{ simpl in Ho. congruence. }
  simpl in Ho.
  rewrite (finish_run _ _ _ _ bs) by (simpl; by rewrite Hcache).
  eexists _, (EvStdout MsgBanner :: header LANGUAGES path dest m ++ tr ++ _).
  split; [reflexivity|]. simpl.
  split.
  { rewrite lookup_insert_ne by done. rewrite lookup_delete_ne by done.
    unfold write_content. rewrite lookup_insert_eq.
    by rewrite Hbuf, Ho. }
  split; [by rewrite lookup_insert_eq|].
  split.
  { rewrite lookup_insert_ne by done. rewrite lookup_delete_ne by done.
    unfold write_content. rewrite lookup_insert_ne by done.
    rewrite Hfiles by done. simpl. unfold write_content.
    by rewrite lookup_insert_ne. }
  split; [by apply Hsig|].
  split; [done|].
  split.
  { rewrite Htr. simpl. rewrite <-!app_assoc. reflexivity. }
  rewrite !calls_of_app, Hnc. reflexivity.
Qed.

(** A run that ended normally under a warm mapping could write it back. *)
Lemma warm_main_inv path dest debug f m w w1 :
  sigint w = None →
  files w !! path = Some f →
  as_cache (cache_file_value (files w) (cache_path_for path dest)) = Some m →
  warm m (input_lines (content f)) →
  main google clock LANGUAGES path dest debug w = (Ok (), w1) →
  readable f = true ∧ is_Some (utf8_encode (json_dumps m)).
Proof.
  intros Hs Hf Hc Hwarm Hrun. apply main_cases in Hrun.
  inversion Hrun as [| | |f' c rl wl r' w' Hf' Hr Hc' Hl Hfin]; subst.
  assert (f' = f) as -> by congruence.
  assert (c = m) as -> by congruence.
  split; [done|].
  set (w0 := opened (choose_output_path path dest) (at_loop LANGUAGES path dest m w)) in *.
  destruct (warm_process_lines google clock (cache_path_for path dest) dest debug
              (input_lines (content f)) 1%nat
              (Counters 0 0 (clock (clock_reads w))) w0)
    as (rl' & tr & wl' & Hl' & Hstep & Ho); [done..|].
  rewrite Hl in Hl'. injection Hl' as <- <-.
  destruct Hstep as (_ & Hcache & _).
  destruct rl as [st|[| |e]]; try done.
  - unfold finish in Hfin. revert Hfin. mrun.
    destruct (save_cache _ _ _) as [[[]|e] w2] eqn:Es; [|done].
    apply save_cache_inv in Es as (bs & Hbs & _). intros _.
    rewrite Hcache in Hbs. by exists bs.
  - by destruct Hfin.
Qed.

(** C3. Running [main] twice on the same input and destination, with a
    cache file that holds a mapping with every fragment of the input that
    is not inert and with no interruption pending: when the first run ends
    normally, so does the second, the second leaves in the output file the
    very bytes the first left there (the records of the input under that
    mapping), and the second makes no call of the translator. *)
Theorem warm_rerun_is_identical path dest debug f m w w1 :
  sigint w = None →
  files w !! path = Some f →
  as_cache (cache_file_value (files w) (cache_path_for path dest)) = Some m →
  warm m (input_lines (content f)) →
  main google clock LANGUAGES path dest debug w = (Ok (), w1) →
  ∃ w2 tr,
    main google clock LANGUAGES path dest debug w1 = (Ok (), w2)
    ∧ files w1 !! choose_output_path path dest
      = Some (File true (latin1_bytes
                (concat (map (record_of m) (input_lines (content f))))))
    ∧ files w2 !! choose_output_path path dest
      = files w1 !! choose_output_path path dest
    ∧ translate_calls w2 = translate_calls w1
    ∧ trace w2 = trace w1 ++ tr ∧ calls_of tr = [].
Proof.
  intros Hs Hf Hc Hwarm Hrun.
  destruct (warm_main_inv _ _ _ _ _ _ _ Hs Hf Hc Hwarm Hrun) as [Hr [bs Hbs]].
  destruct (warm_main path dest debug f m bs w Hs Hf Hr Hc Hwarm Hbs)
    as (w1' & tr1 & Hrun1 & Hout1 & Hcf1 & Hf1 & Hs1 & _).
  assert (w1' = w1) as -> by congruence.
  destruct (warm_main path dest debug f m bs w1 Hs1 Hf1 Hr
              (cache_file_value_written _ _ _ _ Hcf1 Hbs) Hwarm Hbs)
    as (w2 & tr2 & Hrun2 & Hout2 & _ & _ & _ & Hcalls & Htr & Hnc).
  exists w2, tr2. by rewrite Hout2, Hout1.
Qed.

End WarmRun.

Lemma warm_rerun_is_identical_witness :
  let w := idle_world demo_files in
  let w1 := (main offline frozen no_names demo_path (u "es") false w).2 in
  ∃ w2 tr,
    main offline frozen no_names demo_path (u "es") false w1 = (Ok (), w2)
    ∧ files w1 !! choose_output_path demo_path (u "es")
      = Some (File true (latin1_bytes
                (concat (map (record_of demo_cache) (input_lines (latin1_bytes demo_input))))))
    ∧ files w2 !! choose_output_path demo_path (u "es")
      = files w1 !! choose_output_path demo_path (u "es")
    ∧ translate_calls w2 = translate_calls w1
    ∧ trace w2 = trace w1 ++ tr ∧ calls_of tr = [].
Proof.
  intros w w1.
  apply (warm_rerun_is_identical offline frozen no_names demo_path (u "es") false
           (File true (latin1_bytes demo_input)) demo_cache w w1).
  - reflexivity.
  - vm_compute. reflexivity.
  - vm_compute. reflexivity.
  - apply warmb_spec. vm_compute. reflexivity.
  - vm_compute. reflexivity.
Defined.

(** ** Runs of the small example *)


(** ** Occurrences of a fragment: inert ones, hits, and the fallback *)

Lemma quiet_event_calls tr :
  Forall quiet_event tr → Forall (λ c, is_inert c.1 = false) (calls_of tr).
Proof.
  induction 1 as [|e tr He _ IH]; [constructor|].
  unfold calls_of. destruct e; simpl; try done. by constructor.
Qed.

Lemma inert_kept_lookup xs ys i inner :
  inert_kept xs ys → xs !! i = Some (Frag inner) → is_inert inner = true →
  ys !! i = Some (Frag inner).
Proof.
  intros H Hx Hi. unfold inert_kept in H.
  destruct (Forall2_lookup_l _ _ _ _ _ H Hx) as (y & Hy & Hk).
  simpl in Hk. by rewrite Hy, (Hk Hi).
Qed.

Section Occurrences.

Variable google : nat → list N → list N → list N + list N.
Variable clock : nat → Q.

(** C7. Whatever line [translate_line] processes, for every text that is
    empty or all whitespace: no cache entry is added (or changed) for it,
    the translator is never called on it, and when the line is returned
    every match with such a text stands in it as it stood in the input,
    between its two quotes, the rest of the frame being kept as well. *)
Theorem inert_fragments_untouched line dest debug lineno w r w' :
  translate_line google line dest debug lineno w = (r, w') →
  (∀ inner, is_inert inner = true →
     cache w' !! inner = cache w !! inner
     ∧ ∀ tr d, trace w' = trace w ++ tr → (inner, d) ∉ calls_of tr)
  ∧ (∀ out chg, r = Ok (out, chg) →
     ∃ ys, out = render ys ∧ frame_eq (scan line) ys
           ∧ ∀ i inner, scan line !! i = Some (Frag inner) →
               is_inert inner = true → ys !! i = Some (Frag inner)).
Proof.
  intros Hrun. apply spec_translate_line in Hrun as [Hstep Hout].
  destruct Hstep as (_ & _ & _ & _ & Hinert & _ & tr & Htr & Hq).
  split.
  - intros inner Hi. split; [by apply Hinert|].
    intros tr' d Htr' Hin. rewrite Htr in Htr'. apply app_inv_head in Htr' as <-.
    apply quiet_event_calls in Hq. rewrite Forall_forall in Hq.
    specialize (Hq _ Hin). simpl in Hq. congruence.
  - intros out chg ->. simpl in Hout. destruct Hout as (ys & Hf & Hk & ->).
    exists ys. split; [done|]. split; [done|].
    intros i inner Hx Hi. by eapply inert_kept_lookup.
Qed.



End Occurrences.



Lemma inert_fragments_untouched_witness :
  let line := u "Unit " ++ quoted (u " ") ++ u " of " ++ quoted (u "Engine Speed") in
  let w := idle_world ∅ in
  let run := translate_line (flaky 0 (u "Velocidad del motor")) line (u "es") false None w in
  (∀ inner, is_inert inner = true →
     cache run.2 !! inner = cache w !! inner
     ∧ ∀ tr d, trace run.2 = trace w ++ tr → (inner, d) ∉ calls_of tr)
  ∧ (∀ out chg, run.1 = Ok (out, chg) →
     ∃ ys, out = render ys ∧ frame_eq (scan line) ys
           ∧ ∀ i inner, scan line !! i = Some (Frag inner) →
               is_inert inner = true → ys !! i = Some (Frag inner)).
Proof.
  intros line w run.
  apply (inert_fragments_untouched (flaky 0 (u "Velocidad del motor")) line (u "es")
           false None w run.1 run.2).
  apply surjective_pairing.
Defined.


(** ** Reading the input *)

Lemma concat_iter_lines s : concat (iter_lines s) = s.
Proof.
  induction s as [|c s IH]; simpl; [done|].
  destruct (c =? LF); simpl; [by rewrite IH|].
  destruct (iter_lines s) as [|l ls]; simpl in *; by rewrite <-IH.
Qed.

Lemma universal_newlines_Forall (P : N → Prop) s :
  P LF → Forall P s → Forall P (universal_newlines s).
Proof.
  intros HLF. induction s as [s IH] using str_length_ind. intros Hs.
  destruct s as [|c s]; simpl; [done|].
  apply Forall_cons in Hs as [Hc Hs].
  destruct (c =? CR).
  - constructor; [done|]. destruct s as [|d s]; [done|].
    apply Forall_cons in Hs as [Hd Hs].
    destruct (d =? LF).
    + apply IH; [simpl; lia|done].
    + apply IH; [simpl; lia|by constructor].
  - constructor; [done|]. apply IH; [simpl; lia|done].
Qed.

Lemma universal_newlines_no_cr s : Forall (λ c, c ≠ CR) (universal_newlines s).
Proof.
  induction s as [s IH] using str_length_ind.
  destruct s as [|c s]; simpl; [done|].
  destruct (N.eqb_spec c CR) as [->|Hc].
  - constructor; [done|]. destruct s as [|d s]; [done|].
    destruct (d =? LF); apply IH; simpl; lia.
  - constructor; [done|]. apply IH. simpl. lia.
Qed.

Lemma input_lines_Forall (P : N → Prop) bs :
  Forall P (universal_newlines (map Byte.to_N bs)) →
  Forall (Forall P) (input_lines bs).
Proof.
  intros H. unfold input_lines.
  rewrite <-(concat_iter_lines (universal_newlines _)) in H.
  by apply Forall_concat in H.
Qed.

Lemma well_split_iter_lines s : well_split (iter_lines s).
Proof.
  induction s as [|c s IH]; simpl; [done|].
  destruct (N.eqb_spec c LF) as [->|Hc].
  - destruct (iter_lines s) as [|l ls]; simpl; [by split|].
    split; [|done]. by exists [].
  - destruct (iter_lines s) as [|l ls]; simpl; [by split|].
    simpl in IH. destruct ls as [|l' ls].
    + destruct IH as [Hl Hb]. split; [done|].
      destruct l as [|d l]; [done|]. simpl. by constructor.
    + destruct IH as [(body & -> & Hb) IH]. split; [|done].
      exists (c :: body). split; [done|]. by constructor.
Qed.




(** ** What is written to the output *)

Lemma keep_app s t : keep (s ++ t) = keep s ++ keep t.
Proof. unfold keep. by rewrite latin1_bytes_app, map_app. Qed.

Lemma keep_cons_small c s : small c → keep (c :: s) = c :: keep s.
Proof.
  intros Hc. unfold keep. rewrite !latin1_bytes_eq. simpl.
  destruct (Byte.of_N c) as [b|] eqn:E; simpl.
  - apply Byte.to_of_N in E. by rewrite E.
  - apply Byte.of_N_None_iff in E. unfold small in Hc. lia.
Qed.

Lemma keep_small s : Forall small s → keep s = s.
Proof.
  induction 1 as [|c s Hc _ IH]; [done|]. by rewrite keep_cons_small, IH.
Qed.

Lemma keep_concat rs : keep (concat rs) = concat (map keep rs).
Proof.
  induction rs as [|r rs IH]; simpl; [done|]. by rewrite keep_app, IH.
Qed.

Lemma keep_Forall (P : N → Prop) s : Forall P s → Forall P (keep s).
Proof.
  induction 1 as [|c s Hc _ IH]; [done|].
  unfold keep in *. rewrite latin1_bytes_eq in *. simpl.
  destruct (Byte.of_N c) as [b|] eqn:E; simpl; [|done].
  apply Byte.to_of_N in E. rewrite E. by constructor.
Qed.

Lemma keep_render ys :
  Forall lit_small ys → keep (render ys) = render (map keep_seg ys).
Proof.
  unfold render. induction 1 as [|y ys Hy _ IH]; simpl; [done|].
  rewrite keep_app, IH. f_equal. destruct y as [c|t]; simpl in *.
  - by rewrite keep_cons_small.
  - unfold quoted. rewrite keep_cons_small by (by vm_compute).
    by rewrite keep_app, (keep_cons_small QUOTE []) by (by vm_compute).
Qed.

Lemma frame_eq_keep xs ys :
  frame_eq xs ys → Forall lit_small xs →
  frame_eq xs (map keep_seg ys) ∧ Forall lit_small ys.
Proof.
  unfold frame_eq. induction 1 as [|x y xs ys Hxy _ IH]; intros Hs; simpl.
  - split; constructor.
  - apply Forall_cons in Hs as [Hx Hs]. destruct (IH Hs) as [IH1 IH2].
    split; constructor; try done; destruct x, y; simpl in *; try done.
    by subst.
Qed.

Lemma render_lits (P : N → Prop) xs :
  Forall P (render xs) → Forall (λ x, match x with Lit c => P c | Frag _ => True end) xs.
Proof.
  unfold render. induction xs as [|x xs IH]; simpl; [done|].
  intros H. apply Forall_app in H as [H1 H2].
  constructor; [|by apply IH]. destruct x; [|done]. by apply Forall_cons in H1 as [? _].
Qed.

Lemma rstrip_lf_Forall (P : N → Prop) s : Forall P s → Forall P (rstrip_lf s).
Proof.
  induction 1 as [|c s Hc _ IH]; simpl; [done|].
  destruct (rstrip_lf s) as [|d t].
  - destruct (c =? LF); [done|by constructor].
  - by constructor.
Qed.

Lemma line_image_keep line record :
  Forall small line → line_image line record → line_image line (keep record).
Proof.
  intros Hs. unfold line_image. destruct (has_quote line).
  - intros (ys & Hf & ->).
    assert (Forall lit_small (scan (rstrip_lf line))) as Hl.
    { apply (render_lits small). rewrite render_scan. by apply rstrip_lf_Forall. }
    destruct (frame_eq_keep _ _ Hf Hl) as [Hf' Hy].
    exists (map keep_seg ys). split; [done|].
    rewrite keep_app, keep_render by done.
    by rewrite (keep_small [LF]) by (repeat constructor; by vm_compute).
  - intros ->. by apply keep_small.
Qed.

Lemma input_lines_small bs : Forall (Forall small) (input_lines bs).
Proof.
  apply input_lines_Forall. apply universal_newlines_Forall; [by vm_compute|].
  apply Forall_map, Forall_forall. intros b _. unfold small. simpl.
  pose proof (Byte.to_N_bounded b). lia.
Qed.

Lemma Forall2_line_image_keep lines records :
  Forall (Forall small) lines → Forall2 line_image lines records →
  Forall2 line_image lines (map keep records).
Proof.
  intros Hs H. induction H as [|l r ls rs Hlr _ IH]; simpl; [constructor|].
  apply Forall_cons in Hs as [Hl Hs].
  constructor; [by apply line_image_keep|by apply IH].
Qed.

(** ** Counting lines *)

Lemma iter_lines_single l :
  l ≠ [] → Forall (λ c, c ≠ LF) (removelast l) → iter_lines l = [l].
Proof.
  induction l as [|c l IH]; [done|]. intros _ Hb.
  destruct l as [|d l].
  - simpl. by destruct (c =? LF).
  - change (removelast (c :: d :: l)) with (c :: removelast (d :: l)) in Hb.
    apply Forall_cons in Hb as [Hc Hb].
    change (iter_lines (c :: d :: l))
      with (if c =? LF then [c] :: iter_lines (d :: l)
            else match iter_lines (d :: l) with
                 | [] => [[c]]
                 | l0 :: ls => (c :: l0) :: ls
                 end).
    rewrite (proj2 (N.eqb_neq c LF)) by done. by rewrite IH.
Qed.

Lemma iter_lines_terminated body rest :
  Forall (λ c, c ≠ LF) body →
  iter_lines (body ++ LF :: rest) = (body ++ [LF]) :: iter_lines rest.
Proof.
  induction 1 as [|c body Hc _ IH]; simpl; [done|].
  rewrite (proj2 (N.eqb_neq c LF)) by done. by rewrite IH.
Qed.

Lemma iter_lines_concat ls : well_split ls → iter_lines (concat ls) = ls.
Proof.
  induction ls as [|l ls IH]; [done|].
  destruct ls as [|l' ls].
  - intros [Hl Hb]. simpl. rewrite app_nil_r. by apply iter_lines_single.
  - intros [(body & -> & Hb) Hw].
    change (concat ((body ++ [LF]) :: l' :: ls))
      with ((body ++ [LF]) ++ concat (l' :: ls)).
    rewrite <-app_assoc.
    change ([LF] ++ concat (l' :: ls)) with (LF :: concat (l' :: ls)).
    rewrite iter_lines_terminated by done. by rewrite IH.
Qed.

Lemma line_image_nonempty line record :
  line ≠ [] → line_image line record → record ≠ [].
Proof.
  intros Hl. unfold line_image. destruct (has_quote line).
  - intros (ys & _ & ->). by destruct (render ys).
  - by intros ->.
Qed.

Lemma line_image_terminated line record body :
  line = body ++ [LF] → line_image line record →
  ∃ body', record = body' ++ [LF].
Proof.
  intros ->. unfold line_image. destruct (has_quote _).
  - intros (ys & _ & ->). by eexists.
  - intros ->. by eexists.
Qed.

Lemma line_image_last line record :
  Forall (λ c, c ≠ CR) line → line_image line record → last record ≠ Some CR.
Proof.
  intros Hl. unfold line_image. destruct (has_quote line).
  - intros (ys & _ & ->). rewrite last_snoc. by intros [=].
  - intros -> Hlast. apply last_Some in Hlast as (l' & ->).
    apply Forall_app in Hl as [_ Hl]. by apply Forall_cons in Hl as [? _].
Qed.

Lemma well_split_records lines records :
  well_split lines → Forall2 line_image lines records →
  Forall (λ r, no_break (removelast r)) records →
  well_split records.
Proof.
  intros Hw H. induction H as [|l r ls rs Hlr Hrest IH]; [done|].
  intros Hb. apply Forall_cons in Hb as [Hr Hb].
  assert (Forall (λ c, c ≠ LF) (removelast r)) as Hr'.
  { eapply Forall_impl; [exact Hr|]. by intros c [? _]. }
  simpl in Hw. destruct Hrest as [|l' r' ls rs Hlr' Hrest].
  - destruct Hw as [Hl _]. simpl. split; [|done]. by eapply line_image_nonempty.
  - destruct Hw as [(body & Hbody & _) Hw].
    change (well_split (r :: r' :: rs))
      with ((∃ body, r = body ++ [LF] ∧ Forall (λ c, c ≠ LF) body)
            ∧ well_split (r' :: rs)).
    split; [|apply IH; [done|done]].
    destruct (line_image_terminated _ _ _ Hbody Hlr) as (body' & ->).
    exists body'. split; [done|]. by rewrite removelast_last in Hr'.
Qed.

Lemma records_no_cr lines records :
  Forall (Forall (λ c, c ≠ CR)) lines → Forall2 line_image lines records →
  Forall (λ r, no_break (removelast r)) records →
  Forall (λ c, c ≠ CR) (concat records).
Proof.
  intros Hl H Hb. apply Forall_concat.
  induction H as [|l r ls rs Hlr _ IH]; [done|].
  apply Forall_cons in Hl as [Hl Hls]. apply Forall_cons in Hb as [Hr Hb].
  constructor; [|by apply IH].
  pose proof (line_image_last _ _ Hl Hlr) as Hlast.
  destruct (decide (r = [])) as [->|Hne]; [done|].
  rewrite (app_removelast_last 0 Hne). apply Forall_app. split.
  - eapply Forall_impl; [exact Hr|]. by intros c [_ ?].
  - constructor; [|done]. intros Heq. apply Hlast.
    rewrite (app_removelast_last 0 Hne), last_snoc. by rewrite Heq.
Qed.

(** When no record has a line end inside, the records are the lines of the
    output. *)
Lemma records_are_lines bs records out :
  map Byte.to_N out = concat records →
  Forall2 line_image (input_lines bs) records →
  Forall (λ r, no_break (removelast r)) records →
  input_lines out = records.
Proof.
  intros Hout H Hb. unfold input_lines at 1. rewrite Hout.
  rewrite universal_newlines_id.
  - apply iter_lines_concat. eapply well_split_records; [|done..].
    apply well_split_iter_lines.
  - eapply records_no_cr; [|done..].
    apply input_lines_Forall, universal_newlines_no_cr.
Qed.

(** ** The frame of the input in the output *)

Lemma scan_no_quote s : has_quote s = false → scan s = map Lit s.
Proof.
  induction s as [|c s IH]; [by rewrite scan_nil|].
  change (has_quote (c :: s)) with (N.eqb QUOTE c || has_quote s).
  intros H. apply orb_false_iff in H as [Hc Hs].
  rewrite scan_cons. rewrite N.eqb_sym in Hc. rewrite Hc. by rewrite IH.
Qed.

Lemma frame_eq_lits s ys : frame_eq (map Lit s) ys → render ys = s.
Proof.
  revert ys. induction s as [|c s IH]; intros ys H; inversion H as [|x y xs ys' Hxy Hrest]; subst.
  - done.
  - destruct y as [d|]; [|done]. simpl in Hxy. subst d.
    unfold render in *. simpl. f_equal. by apply IH.
Qed.

Lemma only_fragments_differ_no_quote inp out :
  has_quote inp = false → only_fragments_differ inp out → out = inp.
Proof.
  intros Hq (ys & Hf & ->). rewrite (scan_no_quote _ Hq) in Hf.
  by apply frame_eq_lits.
Qed.

Lemma only_fragments_differ_last inp out xs a :
  scan inp = xs ++ [Frag a] → only_fragments_differ inp out →
  last out = Some QUOTE.
Proof.
  intros Hs (ys & Hf & ->). rewrite Hs in Hf.
  apply Forall2_app_inv_l in Hf as (ys1 & ys2 & _ & H2 & ->).
  inversion H2 as [|x y ? ? Hxy Hnil]; subst. inversion Hnil; subst.
  destruct y as [|b]; [done|].
  unfold render. rewrite map_app, concat_app. simpl. rewrite app_nil_r.
  unfold quoted. by rewrite app_comm_cons, app_assoc, last_snoc.
Qed.

Lemma match_body_app_lf s :
  match_body (s ++ [LF]) = (λ p, (p.1, p.2 ++ [LF])) <$> match_body s.
Proof.
  induction s as [|c s IH]; [done|].
  change ((c :: s) ++ [LF]) with (c :: (s ++ [LF])).
  cbn [match_body]. destruct (c =? QUOTE); [done|].
  destruct (c =? LF); [done|]. rewrite IH.
  by destruct (match_body s) as [[i r]|].
Qed.

Lemma scan_app_lf s : scan (s ++ [LF]) = scan s ++ [Lit LF].
Proof.
  induction s as [s IH] using str_length_ind.
  destruct s as [|c s].
  { change ([] ++ [LF]) with [LF]. by rewrite scan_cons, !scan_nil. }
  change ((c :: s) ++ [LF]) with (c :: (s ++ [LF])).
  rewrite !scan_cons, match_body_app_lf.
  destruct (c =? QUOTE); cycle 1.
  { rewrite IH by (simpl; lia). done. }
  destruct (match_body s) as [[inner rest]|] eqn:E; simpl.
  - apply match_body_spec in E as [-> _].
    rewrite IH; [done|]. simpl. rewrite length_app. simpl. lia.
  - rewrite IH by (simpl; lia). done.
Qed.

Lemma rstrip_lf_snoc body :
  Forall (λ c, c ≠ LF) body → rstrip_lf (body ++ [LF]) = body.
Proof.
  induction 1 as [|c body Hc _ IH]; [done|].
  change ((c :: body) ++ [LF]) with (c :: (body ++ [LF])).
  cbn [rstrip_lf]. rewrite IH.
  destruct body; [|done]. by rewrite (proj2 (N.eqb_neq c LF)).
Qed.

Lemma render_snoc ys c : render (ys ++ [Lit c]) = render ys ++ [c].
Proof. unfold render. by rewrite map_app, concat_app. Qed.

Lemma line_image_kept line record :
  Forall (λ c, c ≠ LF) (removelast line) →
  line_image line record → line_kept line record.
Proof.
  intros Hb. unfold line_image, line_kept. destruct (has_quote line).
  - intros (ys & Hf & ->) Hlast. specialize (Hlast eq_refl).
    apply last_Some in Hlast as (body & ->).
    rewrite removelast_last in Hb.
    rewrite rstrip_lf_snoc in Hf by done.
    exists (ys ++ [Lit LF]). split; [|by rewrite render_snoc].
    rewrite scan_app_lf. apply Forall2_app; [done|]. by repeat constructor.
  - intros -> _. exists (scan line). split; [|by rewrite render_scan].
    unfold frame_eq. induction (scan line) as [|x xs IH]; constructor; [|done].
    by destruct x.
Qed.

Lemma well_split_bodies ls :
  well_split ls → Forall (λ l, Forall (λ c, c ≠ LF) (removelast l)) ls.
Proof.
  induction ls as [|l ls IH]; [done|]. simpl.
  destruct ls as [|l' ls].
  - intros [_ H]. by repeat constructor.
  - intros [(body & -> & Hb) Hw]. constructor; [|by apply IH].
    by rewrite removelast_last.
Qed.

Lemma Forall2_line_image_kept lines records :
  well_split lines → Forall2 line_image lines records →
  Forall2 line_kept lines records.
Proof.
  intros Hw H. apply well_split_bodies in Hw.
  induction H as [|l r ls rs Hlr _ IH]; [constructor|].
  apply Forall_cons in Hw as [Hl Hw].
  constructor; [by apply line_image_kept|by apply IH].
Qed.

Section Frame.

Variable google : nat → list N → list N → list N + list N.
Variable clock : nat → Q.
Variable LANGUAGES : list N → option (list N).

(** C1, as amended. When a run of [main] with a cache file that is absent,
    corrupt or an object of strings ends normally, the output file read as
    Latin-1 is the concatenation of one record for each line read from the
    input, in order (the lines as the text layer gives them, every line end
    read as a line feed). For every line but a last line that has a quote
    and no line end, of which nothing is said, the record is the line with
    only the contents of its matches replaced: every character outside the
    matches and both quotes of every match are as in the line. When no
    record has a line end inside, the records are the lines of the output
    file, which then has as many lines as the input. *)
Theorem output_keeps_the_frame path dest debug f c w w' :
  files w !! path = Some f →
  as_cache (cache_file_value (files w) (cache_path_for path dest)) = Some c →
  main google clock LANGUAGES path dest debug w = (Ok (), w') →
  ∃ out records,
    files w' !! choose_output_path path dest = Some (File true out)
    ∧ map Byte.to_N out = concat records
    ∧ Forall2 line_kept (input_lines (content f)) records
    ∧ (Forall (λ r, no_break (removelast r)) records →
       input_lines out = records
       ∧ length (input_lines out) = length (input_lines (content f))).
Proof.
  intros Hf0 Hc0 Hrun. apply main_cases in Hrun.
  destruct (paths_ne path dest) as (_ & _ & _ & N4 & N5 & _).
  inversion Hrun as [| | |f' c' rl wl r' w0 Hf Hr Hc Hl Hfin]; subst.
  assert (f' = f) as -> by congruence.
  apply process_lines_spec in Hl as (tr & Hstep & Himg & Ho).
  destruct rl as [st|[| |e]];
    [|destruct (on_interrupt_raises (cache_path_for path dest)
                  (choose_output_path path dest)
                  (closed (choose_output_path path dest) wl)) as (e & w1 & He);
      rewrite He in Hfin; discriminate
     |by destruct Hfin|by destruct Hfin].
  destruct Ho as [Hlen _].
  destruct Hstep as (_ & Hbuf & _).
  unfold finish in Hfin. revert Hfin. mrun.
  destruct (save_cache _ _ _) as [[[]|e] w2] eqn:Es; [|done].
  apply save_cache_inv in Es as (bs & Hbs & ->). intros [= <-].
  rewrite Hlen, firstn_all in Himg.
  assert (Forall2 line_image (input_lines (content f)) (map keep (writes_of tr))) as Hk.
  { apply Forall2_line_image_keep; [apply input_lines_small|done]. }
  exists (latin1_bytes (concat (writes_of tr))), (map keep (writes_of tr)).
  split.
  { simpl. rewrite lookup_insert_ne by done. rewrite lookup_delete_ne by done.
    unfold write_content. rewrite lookup_insert_eq. by rewrite Hbuf. }
  split; [by rewrite <-keep_concat|].
  split; [apply Forall2_line_image_kept; [apply well_split_iter_lines|done]|].
  intros Hb.
  assert (input_lines (latin1_bytes (concat (writes_of tr))) = map keep (writes_of tr)) as E.
  { eapply records_are_lines; [|done..]. by rewrite <-keep_concat. }
  split; [done|]. rewrite E. symmetry. by eapply Forall2_length.
Qed.

End Frame.

(** Two runs that end normally and do not keep the frame: the carriage
    returns of the input are not in the output; a cached text of two lines
    makes two lines out of one. *)
Lemma frame_is_not_always_kept :
  (output_of crlf_input ∅
   = (Ok (), Some (File true (latin1_bytes (u "a" ++ [LF] ++ u "b" ++ [LF]))))
   ∧ ¬ frame_kept crlf_input (latin1_bytes (u "a" ++ [LF] ++ u "b" ++ [LF])))
  ∧ (output_of plain_input {[ u "hi" := u "ho" ++ [LF] ++ u "la" ]}
     = (Ok (), Some (File true
          (latin1_bytes (u "say " ++ quoted (u "ho" ++ [LF] ++ u "la") ++ [LF]))))
     ∧ ¬ frame_kept plain_input
           (latin1_bytes (u "say " ++ quoted (u "ho" ++ [LF] ++ u "la") ++ [LF]))).
Proof.
  split; (split; [vm_compute; reflexivity|]); unfold frame_kept.
  - intros H.
    assert (raw_lines crlf_input = [u "a" ++ [CR; LF]; u "b" ++ [CR; LF]]) as E1
      by (vm_compute; reflexivity).
    assert (raw_lines (latin1_bytes (u "a" ++ [LF] ++ u "b" ++ [LF]))
            = [u "a" ++ [LF]; u "b" ++ [LF]]) as E2 by (vm_compute; reflexivity).
    rewrite E1, E2 in H. apply Forall2_cons in H as [H _].
    apply only_fragments_differ_no_quote in H; [|by vm_compute]. discriminate.
  - intros H. apply Forall2_length in H. vm_compute in H. discriminate.
Qed.

(** A last line with a match and no line end is written with a line end,
    where a last line without a quote is written as it is. *)
Lemma unterminated_last_line :
  output_of open_input {[ u "hi" := u "hola" ]}
  = (Ok (), Some (File true (latin1_bytes (u "say " ++ quoted (u "hola") ++ [LF]))))
  ∧ output_of (latin1_bytes (u "say hi")) ∅
    = (Ok (), Some (File true (latin1_bytes (u "say hi")))).
Proof. split; vm_compute; reflexivity. Qed.

Lemma output_keeps_the_frame_witness :
  let w := idle_world demo_files in
  let run := main offline frozen no_names demo_path (u "es") false w in
  ∃ out records,
    files run.2 !! choose_output_path demo_path (u "es") = Some (File true out)
    ∧ map Byte.to_N out = concat records
    ∧ Forall2 line_kept (input_lines (latin1_bytes demo_input)) records
    ∧ (Forall (λ r, no_break (removelast r)) records →
       input_lines out = records
       ∧ length (input_lines out) = length (input_lines (latin1_bytes demo_input))).
Proof.
  intros w run.
  apply (output_keeps_the_frame offline frozen no_names demo_path (u "es") false
           (File true (latin1_bytes demo_input)) demo_cache w run.2).
  - vm_compute. reflexivity.
  - vm_compute. reflexivity.
  - vm_compute. reflexivity.
Defined.

(** ** An interruption under a cache that cannot be written *)

(** C8. The run of [main] on an input of one line, [say] and [hi] between
    quotes, with a cache file that gives [hi] a lone surrogate, written as
    an escape, and an operator interruption delivered after that line: the interruption is
    reported and the flush of the handler raises [UnicodeEncodeError], so
    that the run ends with that exception, not with [SystemExit 1]; the
    output path is not reported and the cache file is not replaced. *)
Lemma interruption_with_unencodable_cache :
  let w := set_sigint (Some 1%nat) (idle_world surrogate_files) in
  let run := main offline frozen no_names demo_path (u "es") false w in
  let cache_file := cache_path_for demo_path (u "es") in
  is_Some (sigint w) ∧ sigint run.2 = None
  ∧ cache run.2 = {[ u "hi" := [55296] ]}
  ∧ run.1 = Raise (Exception (u "UnicodeEncodeError"))
  ∧ run.1 ≠ Raise (SystemExit 1)
  ∧ trace run.2
    = EvStdout MsgBanner
      :: header no_names demo_path (u "es") {[ u "hi" := [55296] ]}
      ++ [EvWrite (u "say " ++ quoted [55296] ++ [LF]);
          EvStdout MsgInterrupted;
          EvWriteFile (tmp_path cache_file)]
  ∧ files run.2 !! cache_file = Some (File true surrogate_cache_file).
Proof.
  intros w run cache_file.
  assert (run.1 = Raise (Exception (u "UnicodeEncodeError"))) as H
    by (vm_compute; reflexivity).
  split; [by eexists|]. split; [vm_compute; reflexivity|].
  split; [vm_compute; reflexivity|].
  split; [exact H|]. split; [rewrite H; discriminate|].
  split; vm_compute; reflexivity.
Qed.

(** ** Calls of the translator *)

Lemma calls_step_refl text dest w : calls_step text dest 0 w w.
Proof.
  split; [done|]. split; [simpl; lia|]. exists []. by rewrite app_nil_r.
Qed.

Lemma calls_step_trans text dest n1 n2 w1 w2 w3 :
  calls_step text dest n1 w1 w2 → calls_step text dest n2 w2 w3 →
  calls_step text dest (n1 + n2) w1 w3.
Proof.
  intros (C1 & N1 & tr1 & T1 & E1) (C2 & N2 & tr2 & T2 & E2).
  split; [congruence|]. split; [lia|].
  exists (tr1 ++ tr2). split; [by rewrite T2, T1, app_assoc|].
  unfold calls_of in *. by rewrite omap_app, E1, E2, replicate_add.
Qed.

Lemma calls_step_emit text dest e w :
  (∀ t d, e ≠ EvTranslate t d) →
  calls_step text dest 0 w (set_trace (trace w ++ [e]) w).
Proof.
  intros He. split; [done|]. split; [simpl; lia|].
  exists [e]. split; [done|]. destruct e; try done. exfalso. by eapply He.
Qed.

Lemma calls_step_checkpoint text dest w r w' :
  checkpoint w = (r, w') →
  calls_step text dest 0 w w' ∧ (r = Ok () ∨ r = Raise KeyboardInterrupt).
Proof.
  unfold checkpoint. destruct (sigint w) as [[|n]|]; intros [= <- <-];
    (split; [|by auto]); (split; [done|]); (split; [simpl; lia|]);
    exists []; by rewrite app_nil_r.
Qed.

Section Calls.

Variable google : nat → list N → list N → list N + list N.

Lemma translator_translate_calls text dest w r w' :
  translator_translate google text dest w = (r, w') →
  (r = Raise KeyboardInterrupt ∧ calls_step text dest 0 w w')
  ∨ (calls_step text dest 1 w w'
     ∧ match r with Ok _ | Raise (Exception _) => True | Raise _ => False end).
Proof.
  unfold translator_translate. intros H.
  apply bind_inv in H as [([] & w1 & Hc & H)|(e & Hc & ->)].
  - apply (calls_step_checkpoint text dest) in Hc as [(C1 & N1 & tr1 & T1 & E1) _].
    right. revert H. mrun.
    destruct (google (translate_calls w1) text dest); intros [= <- <-];
      (split; [|done]); (split; [done|]); (split; [simpl; lia|]);
      exists (tr1 ++ [EvTranslate text dest]); simpl;
      (split; [by rewrite T1, app_assoc|]);
      unfold calls_of in *; rewrite omap_app, E1; simpl;
      replace (translate_calls w1 - translate_calls w)%nat with 0%nat by lia; done.
  - apply (calls_step_checkpoint text dest) in Hc as [Hs [[=]|[= ->]]]. by left.
Qed.

Lemma retry_loop_calls text dest attempts : ∀ w r w',
  retry_loop google attempts text dest w = (r, w') →
  ∃ n, (n ≤ length attempts)%nat ∧ calls_step text dest n w w'
       ∧ match r with Ok _ | Raise KeyboardInterrupt => True | Raise _ => False end.
Proof.
  induction attempts as [|a attempts IH]; intros w r w'; simpl.
  - mrun. intros [= <- <-]. exists 0%nat. split; [done|]. split; [|done].
    by apply calls_step_emit.
  - unfold try_except_Exception.
    destruct (translator_translate google text dest w) as [r1 w1] eqn:Et.
    apply translator_translate_calls in Et as [[-> Hs]|[Hs Hr]].
    + intros [= <- <-]. exists 0%nat. split; [lia|]. by split.
    + destruct r1 as [t|[| |e]]; try done.
      * intros [= <- <-]. exists 1%nat. split; [lia|]. by split.
      * intros H.
        apply bind_inv in H as [([] & w2 & He & H)|(e' & He & ->)]; [|by revert He; mrun].
        revert He. mrun. intros [= <-].
        apply bind_inv in H as [([] & w3 & Hsl & H)|(e' & Hsl & ->)].
        -- unfold time_sleep in Hsl.
           apply bind_inv in Hsl as [([] & w4 & Hc & Hsl)|(e' & Hc & [=])].
           apply (calls_step_checkpoint text dest) in Hc as [Hc _].
           revert Hsl. mrun. intros [= <-].
           apply IH in H as (n & Hn & Hstep & Ho).
           exists (1 + 0 + 0 + 0 + n)%nat. split; [simpl; lia|]. split; [|done].
           eapply calls_step_trans; [|exact Hstep].
           eapply calls_step_trans; [|by apply calls_step_emit].
           eapply calls_step_trans; [|exact Hc].
           eapply calls_step_trans; [exact Hs|]. by apply calls_step_emit.
        -- unfold time_sleep in Hsl.
           apply bind_inv in Hsl as [([] & w4 & Hc & Hsl)|(e'' & Hc & [= ->])];
             [by revert Hsl; mrun|].
           apply (calls_step_checkpoint text dest) in Hc as [Hc [[=]|[= ->]]].
           exists (1 + 0 + 0)%nat. split; [simpl; lia|]. split; [|done].
           eapply calls_step_trans; [|exact Hc].
           eapply calls_step_trans; [exact Hs|]. by apply calls_step_emit.
Qed.

Lemma calls_step_traced text dest debug lineno source out w :
  calls_step text dest 0 w (traced debug lineno source text out w).
Proof.
  unfold traced. destruct debug; [by apply calls_step_emit|apply calls_step_refl].
Qed.

(** One match: at most [RETRY_LIMIT] calls, none unless the text is not
    inert and not in the cache; on return, the text put between the quotes
    is the value the cache now has for the match, unless it is inert; an
    interruption leaves the cache as it was. *)
Lemma repl_calls dest debug lineno inner w r w' :
  _repl google dest debug lineno inner w = (r, w') →
  ∃ n, (n ≤ RETRY_LIMIT)%nat
       ∧ (n ≠ 0%nat → is_inert inner = false ∧ cache w !! inner = None)
       ∧ cache w ⊆ cache w'
       ∧ translate_calls w' = (translate_calls w + n)%nat
       ∧ (∃ tr, trace w' = trace w ++ tr ∧ calls_of tr = replicate n (inner, dest))
       ∧ match r with
         | Ok p => ∃ out, p = (quoted out, bool_decide (out ≠ inner))
                    ∧ if is_inert inner then out = inner ∧ cache w' = cache w
                      else cache w' !! inner = Some out
         | Raise KeyboardInterrupt => cache w' = cache w
         | Raise _ => False
         end.
Proof.
  intros Hrun. destruct (is_inert inner) eqn:Hi.
  { rewrite repl_inert in Hrun by done. injection Hrun as <- <-.
    exists 0%nat. split; [lia|]. split; [done|]. split; [done|].
    split; [lia|]. split; [exists []; by rewrite app_nil_r|].
    exists inner. split; [|done]. by rewrite bool_decide_eq_false_2 by (by intros []). }
  destruct (cache w !! inner) as [out|] eqn:Hc.
  { rewrite (repl_hit _ _ _ _ _ out) in Hrun by done. injection Hrun as <- <-.
    destruct (calls_step_traced inner dest debug lineno FromCache out w)
      as (C & Nn & tr & T & E).
    exists 0%nat. split; [lia|]. split; [done|]. split; [by rewrite C|].
    split; [done|]. split; [by exists tr|].
    exists out. split; [done|]. by rewrite C. }
  destruct (translate_text_frag google inner dest w) as [[out|e] w1] eqn:Ht.
  - rewrite (repl_miss _ _ _ _ _ _ out w1) in Hrun by done. injection Hrun as <- <-.
    apply retry_loop_calls in Ht as (n & Hn & (C1 & N1 & tr1 & T1 & E1) & _).
    rewrite length_seq in Hn.
    set (w2 := set_cache (<[inner := out]> (cache w1)) w1).
    destruct (calls_step_traced inner dest debug lineno FromGoogle out w2)
      as (C & Nn & tr & T & E).
    exists n. split; [done|]. split; [done|].
    split; [rewrite C; simpl; rewrite C1; by apply insert_subseteq|].
    split; [rewrite Nn; simpl; lia|].
    split.
    { exists (tr1 ++ tr). split; [rewrite T; simpl; by rewrite T1, app_assoc|].
      unfold calls_of in *. rewrite omap_app, E1, E. simpl. by rewrite app_nil_r. }
    exists out. split; [done|]. rewrite C. simpl. apply lookup_insert_eq.
  - rewrite (repl_miss_raise _ _ _ _ _ _ e w1) in Hrun by done. injection Hrun as <- <-.
    apply retry_loop_calls in Ht as (n & Hn & (C1 & N1 & tr1 & T1 & E1) & Ho).
    rewrite length_seq in Hn.
    exists n. split; [done|]. split; [done|]. split; [by rewrite C1|].
    split; [done|]. split; [by exists tr1|]. by destruct e.
Qed.

Lemma run_calls_refl dest fs w : run_calls dest fs w w.
Proof.
  split; [done|]. exists []. rewrite app_nil_r. simpl.
  split; [done|]. split; [lia|]. split; [lia|done].
Qed.

Lemma run_calls_trans dest fs1 fs2 w1 w2 w3 :
  run_calls dest fs1 w1 w2 → run_calls dest fs2 w2 w3 →
  run_calls dest (fs1 ++ fs2) w1 w3.
Proof.
  intros (C1 & tr1 & T1 & N1 & L1 & F1) (C2 & tr2 & T2 & N2 & L2 & F2).
  split; [by etrans|]. exists (tr1 ++ tr2).
  split; [by rewrite T2, T1, app_assoc|].
  rewrite calls_of_app, !length_app.
  split; [lia|]. split; [lia|].
  apply Forall_app. split.
  - eapply Forall_impl; [exact F1|]. intros c (? & ? & ?).
    split; [done|]. split; [|done]. apply elem_of_app. by left.
  - eapply Forall_impl; [exact F2|]. intros c (? & ? & ?).
    split; [done|]. split; [|done]. apply elem_of_app. by right.
Qed.

Lemma run_calls_repl dest debug lineno inner w r w' :
  _repl google dest debug lineno inner w = (r, w') →
  run_calls dest [inner] w w'.
Proof.
  intros H. apply repl_calls in H as (n & Hn & Hz & Hc & Hcalls & (tr & T & E) & _).
  split; [done|]. exists tr. rewrite E, length_replicate.
  split; [done|]. split; [done|]. split; [simpl; unfold RETRY_LIMIT in *; lia|].
  apply Forall_forall. intros c Hin. apply elem_of_replicate in Hin as [-> Hnz].
  simpl. split; [done|]. split; [by left|]. by apply Hz.
Qed.

(** A whole line, by its segments. *)
Lemma sub_segments_calls dest debug lineno xs : ∀ w r w',
  sub_segments (_repl google dest debug lineno) xs w = (r, w') →
  run_calls dest (frags_of xs) w w'
  ∧ match r with
    | Ok (t, chg) =>
        warm_segs (cache w') xs
        ∧ (chg = false → t = render xs)
        ∧ (chg = true → ∃ inner out, inner ∈ frags_of xs ∧ is_inert inner = false
                          ∧ cache w' !! inner = Some out ∧ out ≠ inner)
    | Raise KeyboardInterrupt => True
    | Raise _ => False
    end.
Proof.
  induction xs as [|[c|inner] xs IH]; intros w r w'; simpl.
  - intros [= <- <-]. split; [apply run_calls_refl|].
    split; [by intros ? ?%elem_of_nil|]. by split.
  - intros H. apply bind_inv in H as [([t chg] & w1 & H1 & H)|(e & H1 & ->)].
    + injection H as <- <-. apply IH in H1 as [Hstep (Hw & Hf & Ht)].
      split; [done|]. split.
      { intros i Hin. apply elem_of_cons in Hin as [[=]|Hin]. by apply Hw. }
      split; [|done]. intros ->. unfold render. simpl. f_equal. by apply Hf.
    + by apply IH in H1.
  - intros H. apply bind_inv in H as [([s chg1] & w1 & H1 & H)|(e & H1 & ->)]; cycle 1.
    { pose proof (run_calls_repl _ _ _ _ _ _ _ H1) as Hstep.
      apply repl_calls in H1 as (n & _ & _ & _ & _ & _ & Ho).
      split; [|by destruct e].
      apply (run_calls_trans _ [inner] (frags_of xs) _ _ w') in Hstep;
        [done|apply run_calls_refl]. }
    pose proof (run_calls_repl _ _ _ _ _ _ _ H1) as Hstep1.
    apply repl_calls in H1 as (n & _ & _ & _ & _ & _ & out & [= -> ->] & Hout).
    apply bind_inv in H as [([t chg2] & w2 & H2 & H)|(e & H2 & ->)]; cycle 1.
    { apply IH in H2 as [Hstep2 Ho]. split; [|done].
      by apply (run_calls_trans _ [inner] (frags_of xs) _ w1). }
    injection H as <- <-. apply IH in H2 as [Hstep2 (Hw & Hf & Ht)].
    split; [by apply (run_calls_trans _ [inner] (frags_of xs) _ w1)|].
    assert (cache w1 ⊆ cache w2) as Hsub by apply Hstep2.
    split; [|split].
    + intros i Hin Hi. apply elem_of_cons in Hin as [[= ->]|Hin]; [|by apply Hw].
      rewrite Hi in Hout. exists out. by eapply lookup_weaken.
    + intros Hb. apply orb_false_iff in Hb as [Hb1 ->].
      apply bool_decide_eq_false in Hb1. apply dec_stable in Hb1. subst out.
      by rewrite (Hf eq_refl).
    + intros Hb. apply orb_true_iff in Hb as [Hb1| ->].
      * apply bool_decide_eq_true in Hb1. exists inner, out.
        split; [by left|].
        destruct (is_inert inner) eqn:Hi; [by destruct Hout|].
        split; [done|]. split; [|done]. by eapply lookup_weaken.
      * destruct (Ht eq_refl) as (i & o & Hin & Hi & Hl & Hne).
        exists i, o. split; [by right|]. done.
Qed.

End Calls.

(** ** Parts of the loop that do not call the translator *)

Lemma no_calls_refl w : no_calls w w.
Proof. apply calls_step_refl. Qed.

Lemma no_calls_trans w1 w2 w3 : no_calls w1 w2 → no_calls w2 w3 → no_calls w1 w3.
Proof. intros H1 H2. by apply (calls_step_trans [] [] 0 0 w1 w2 w3). Qed.

Lemma no_calls_run dest fs w w' : no_calls w w' → run_calls dest fs w w'.
Proof.
  intros (C & Nn & tr & T & E). split; [by rewrite C|].
  exists tr. rewrite E. simpl. split; [done|]. split; [done|]. split; [lia|done].
Qed.

Lemma no_calls_checkpoint w r w' : checkpoint w = (r, w') → no_calls w w'.
Proof. intros H. by apply (calls_step_checkpoint [] []) in H as [? _]. Qed.

Lemma no_calls_emit e w :
  (∀ t d, e ≠ EvTranslate t d) → no_calls w (set_trace (trace w ++ [e]) w).
Proof. apply calls_step_emit. Qed.

Lemma no_calls_fout_write s w r w' : fout_write s w = (r, w') → no_calls w w' ∧ r = Ok ().
Proof.
  unfold fout_write. mrun. intros [= <- <-]. split; [|done].
  split; [done|]. split; [simpl; lia|]. by exists [EvWrite s].
Qed.

Lemma no_calls_save_cache cache_file m w r w' :
  save_cache cache_file m w = (r, w') → no_calls w w'.
Proof.
  unfold save_cache.
  destruct (write_chunks (dump_chunks (map_to_list m)) []) as [[[]|e] bs]; mrun;
    intros [= <- <-]; (split; [done|]); (split; [simpl; lia|]).
  - exists [EvWriteFile (tmp_path cache_file);
            EvReplace (tmp_path cache_file) cache_file].
    simpl. by rewrite <-app_assoc.
  - by exists [EvWriteFile (tmp_path cache_file)].
Qed.

Section LoopCalls.

Variable google : nat → list N → list N → list N + list N.
Variable clock : nat → Q.

Lemma no_calls_periodic_save cache_file last w r w' :
  periodic_save clock cache_file last w = (r, w') → no_calls w w'.
Proof.
  unfold periodic_save, time_time. mrun.
  destruct (Qle_bool _ _).
  - match goal with |- context [save_cache ?a ?b ?c] =>
      destruct (save_cache a b c) as [[[]|e] w1] eqn:Es end;
      intros [= <- <-]; apply no_calls_save_cache in Es;
      (eapply no_calls_trans; [|exact Es]);
      (split; [done|]); (split; [simpl; lia|]); exists []; simpl; by rewrite app_nil_r.
  - intros [= <- <-]. split; [done|]. split; [simpl; lia|].
    exists []. simpl. by rewrite app_nil_r.
Qed.

Lemma no_calls_report_progress debug total changed w r w' :
  report_progress debug total changed w = (r, w') → no_calls w w' ∧ r = Ok ().
Proof.
  unfold report_progress. destruct (_ && _); mrun; intros [= <- <-].
  - split; [|done]. by apply no_calls_emit.
  - split; [apply no_calls_refl|done].
Qed.

Lemma has_quote_false s : has_quote s = false ↔ Forall (λ c, c ≠ QUOTE) s.
Proof.
  unfold has_quote. induction s as [|c s IH]; simpl; [done|].
  rewrite orb_false_iff, IH, Forall_cons.
  change (match c with 0 => false | N.pos p => (34 =? p)%positive end)
    with (N.eqb QUOTE c).
  rewrite N.eqb_neq. split; intros [? ?]; split; congruence.
Qed.

Lemma frags_of_no_quote s : has_quote s = false → frags_of (scan (rstrip_lf s)) = [].
Proof.
  intros H. rewrite scan_no_quote.
  - unfold frags_of. induction (rstrip_lf s); [done|]. simpl. done.
  - apply has_quote_false. apply rstrip_lf_Forall. by apply has_quote_false.
Qed.

(** One line of the loop. *)
Lemma write_line_calls dest debug lineno line w r w' :
  write_line google dest debug lineno line w = (r, w') →
  run_calls dest (frags_of (scan (rstrip_lf line))) w w'
  ∧ match r with
    | Ok chg =>
        (has_quote line = true → warm_segs (cache w') (scan (rstrip_lf line)))
        ∧ (has_quote line = false → chg = false)
    | Raise KeyboardInterrupt => True
    | Raise _ => False
    end.
Proof.
  unfold write_line. destruct (has_quote line) eqn:Hq.
  - intros H. apply bind_inv in H as [([t chg] & w1 & H1 & H)|(e & H1 & ->)].
    + unfold translate_line in H1.
      assert (has_quote (rstrip_lf line) = true ∨ has_quote (rstrip_lf line) = false)
        as [Hq'|Hq'] by (destruct (has_quote (rstrip_lf line)); auto).
      * rewrite Hq' in H1. simpl in H1.
        apply sub_segments_calls in H1 as [Hstep (Hw & _)].
        apply bind_inv in H as [([] & w2 & H2 & H)|(e & H2 & ->)].
        -- injection H as <- <-. apply no_calls_fout_write in H2 as [H2 _].
           assert (cache w2 = cache w1) as Hc by apply H2.
           split; [|by rewrite Hc].
           rewrite <-(app_nil_r (frags_of _)).
           eapply run_calls_trans; [exact Hstep|by apply no_calls_run].
        -- by apply no_calls_fout_write in H2 as [_ [=]].
      * rewrite Hq' in H1. simpl in H1. injection H1 as <- <- <-.
        apply bind_inv in H as [([] & w2 & H2 & H)|(e & H2 & ->)].
        -- injection H as <- <-. apply no_calls_fout_write in H2 as [H2 _].
           split; [by apply no_calls_run|]. split; [|done]. intros _.
           rewrite scan_no_quote by done. intros i Hin.
           apply list_elem_of_fmap in Hin as (c & [=] & _).
        -- by apply no_calls_fout_write in H2 as [_ [=]].
    + unfold translate_line in H1.
      destruct (has_quote (rstrip_lf line)); simpl in H1; [|done].
      apply sub_segments_calls in H1 as [Hstep Ho]. split; [done|]. by destruct e.
  - rewrite frags_of_no_quote by done. intros H.
    apply bind_inv in H as [([] & w2 & H2 & H)|(e & H2 & ->)].
    + injection H as <- <-. apply no_calls_fout_write in H2 as [H2 _].
      split; [by apply no_calls_run|]. done.
    + by apply no_calls_fout_write in H2 as [_ [=]].
Qed.

Lemma process_line_calls dest cache_file debug lineno line st w r w' :
  process_line google clock dest cache_file debug lineno line st w = (r, w') →
  run_calls dest (frags_of (scan (rstrip_lf line))) w w'
  ∧ match r with
    | Ok st' =>
        (has_quote line = true → warm_segs (cache w') (scan (rstrip_lf line)))
        ∧ total_lines st' = S (total_lines st)
        ∧ (changed_lines st' ≤ S (changed_lines st))%nat
        ∧ (has_quote line = false → changed_lines st' = changed_lines st)
    | _ => True
    end.
Proof.
  unfold process_line. intros H.
  assert (∀ w1 w2, run_calls dest (frags_of (scan (rstrip_lf line))) w w1 →
            no_calls w1 w2 → run_calls dest (frags_of (scan (rstrip_lf line))) w w2)
    as Hext.
  { intros w1 w2 H1 H2. rewrite <-(app_nil_r (frags_of _)).
    eapply run_calls_trans; [exact H1|by apply no_calls_run]. }
  apply bind_inv in H as [(chg & w1 & H1 & H)|(e & H1 & ->)]; cycle 1.
  { apply write_line_calls in H1 as [? _]. done. }
  apply write_line_calls in H1 as [Hstep1 [Hw Hchg]].
  apply bind_inv in H as [([] & w2 & H2 & H)|(e & H2 & ->)]; cycle 1.
  { apply no_calls_checkpoint in H2. split; [by eapply Hext|done]. }
  apply no_calls_checkpoint in H2.
  apply bind_inv in H as [(last & w3 & H3 & H)|(e & H3 & ->)]; cycle 1.
  { apply no_calls_periodic_save in H3.
    split; [|done]. eapply Hext; [|exact H3]. by eapply Hext. }
  apply no_calls_periodic_save in H3.
  apply bind_inv in H as [([] & w4 & H4 & H)|(e & H4 & ->)]; cycle 1.
  { by apply no_calls_report_progress in H4 as [_ [=]]. }
  apply no_calls_report_progress in H4 as [H4 _]. injection H as <- <-.
  split; [eapply Hext; [|exact H4]; eapply Hext; [|exact H3]; by eapply Hext|].
  assert (cache w4 = cache w1) as Hc.
  { destruct H2 as [C2 _], H3 as [C3 _], H4 as [C4 _]. congruence. }
  rewrite Hc. split; [done|]. simpl. split; [done|].
  split; [destruct chg; lia|]. intros Hq. by rewrite (Hchg Hq).
Qed.

Lemma warm_segs_mono m m' xs : m ⊆ m' → warm_segs m xs → warm_segs m' xs.
Proof.
  intros Hsub H i Hin Hi. destruct (H i Hin Hi) as [v Hv].
  exists v. by eapply lookup_weaken.
Qed.

Lemma process_lines_calls dest cache_file debug lines : ∀ lineno st w r w',
  process_lines google clock dest cache_file debug lineno lines st w = (r, w') →
  run_calls dest (frags_in lines) w w'
  ∧ match r with
    | Ok st' => warm (cache w') lines
                ∧ total_lines st' = (total_lines st + length lines)%nat
                ∧ (changed_lines st' ≤ changed_lines st
                     + length (List.filter has_quote lines))%nat
    | _ => True
    end.
Proof.
  induction lines as [|line lines IH]; intros lineno st w r w'; simpl.
  - intros [= <- <-]. split; [apply run_calls_refl|]. split; [|lia].
    by intros ? ?%elem_of_nil.
  - intros H. unfold frags_in. simpl. fold (frags_in lines).
    apply bind_inv in H as [([] & w1 & H1 & H)|(e & H1 & ->)]; cycle 1.
    { apply no_calls_checkpoint in H1. split; [by apply no_calls_run|done]. }
    apply no_calls_checkpoint in H1.
    apply bind_inv in H as [(st1 & w2 & H2 & H)|(e & H2 & ->)]; cycle 1.
    { apply process_line_calls in H2 as [Hstep _]. split; [|done].
      apply (run_calls_trans dest [] _ w w1 w') ; [by apply no_calls_run|].
      rewrite <-(app_nil_r (frags_of _ ++ _)), <-app_assoc.
      eapply run_calls_trans; [exact Hstep|apply run_calls_refl]. }
    apply process_line_calls in H2 as [Hstep2 (Hw2 & Ht2 & Hc2 & Hq2)].
    apply IH in H as [Hstep3 Ho].
    split.
    { apply (run_calls_trans dest [] _ w w1 w'); [by apply no_calls_run|].
      by eapply run_calls_trans. }
    destruct r as [st'|]; [|done]. destruct Ho as (Hw3 & Ht3 & Hc3).
    split; [|split; [lia|]]; cycle 1.
    { destruct (has_quote line) eqn:Hq; simpl; [lia|].
      rewrite (Hq2 eq_refl) in Hc3. lia. }
    intros l Hl Hq. apply elem_of_cons in Hl as [->|Hl]; [|by apply Hw3].
    eapply warm_segs_mono; [|by apply Hw2]. apply Hstep3.
Qed.

End LoopCalls.

(** ** The branches of [main] *)

(** What the two ways out of the loop do: no call, and no file touched but
    the cache file and its temporary. *)
Lemma finish_step cache_file out_path st w r w' :
  finish cache_file out_path st w = (r, w') →
  no_calls w w'
  ∧ (∀ p, p ≠ cache_file → p ≠ tmp_path cache_file → files w' !! p = files w !! p).
Proof.
  unfold finish. mrun.
  destruct (save_cache cache_file (cache w) w) as [[[]|e] w1] eqn:Es;
    intros [= <- <-]; pose proof (no_calls_save_cache _ _ _ _ _ Es) as Hn;
    apply (save_cache_step cache_file) in Es as (tr & (_ & _ & Hf & _) & _).
  - split; [|done]. eapply no_calls_trans; [exact Hn|].
    destruct Hn as (C & _). split; [done|]. split; [simpl; lia|].
    exists [EvStdout MsgRule; EvStdout (MsgDone out_path);
            EvStdout (MsgLines (total_lines st) (changed_lines st));
            EvStdout (MsgEntries (size (cache w))); EvStdout MsgRule].
    simpl. by rewrite <-!app_assoc.
  - done.
Qed.

Lemma on_interrupt_step {A} cache_file out_path w (r : res A) w' :
  on_interrupt cache_file out_path w = (r, w') →
  no_calls w w'
  ∧ (∀ p, p ≠ cache_file → p ≠ tmp_path cache_file → files w' !! p = files w !! p).
Proof.
  unfold on_interrupt. mrun.
  match goal with |- context [save_cache ?a ?b ?c] =>
    destruct (save_cache a b c) as [[[]|e] w1] eqn:Es end;
    intros [= <- <-]; pose proof (no_calls_save_cache _ _ _ _ _ Es) as Hn;
    apply (save_cache_step cache_file) in Es as (tr & (_ & _ & Hf & _) & _).
  - split; [|done].
    eapply no_calls_trans; [|by apply no_calls_emit].
    eapply no_calls_trans; [|exact Hn]. by apply (no_calls_emit _ w).
  - split; [|done]. eapply no_calls_trans; [|exact Hn]. by apply (no_calls_emit _ w).
Qed.

Section MainRuns.

Variable google : nat → list N → list N → list N + list N.
Variable clock : nat → Q.
Variable LANGUAGES : list N → option (list N).

Lemma main_no_input path dest debug w :
  files w !! path = None →
  main google clock LANGUAGES path dest debug w
  = (Raise (SystemExit 1),
     set_trace (trace w ++ [EvStdout MsgBanner; EvStderr (MsgFileNotFound path)]) w).
Proof.
  intros Hf. unfold main. mrun. unfold is_file. rewrite Hf. simpl.
  by rewrite <-app_assoc.
Qed.

Lemma main_loop path dest debug f c w :
  files w !! path = Some f →
  as_cache (cache_file_value (files w) (cache_path_for path dest)) = Some c →
  main google clock LANGUAGES path dest debug w
  = if readable f then
      let out_path := choose_output_path path dest in
      let cache_file := cache_path_for path dest in
      let '(rl, wl) :=
        process_lines google clock dest cache_file debug 1
          (input_lines (content f)) (Counters 0 0 (clock (clock_reads w)))
          (opened out_path (at_loop LANGUAGES path dest c w)) in
      match rl with
      | Ok st => finish cache_file out_path st (closed out_path wl)
      | Raise KeyboardInterrupt => on_interrupt cache_file out_path (closed out_path wl)
      | Raise e => (Raise e, closed out_path wl)
      end
    else (Raise (Exception (u "PermissionError")), at_loop LANGUAGES path dest c w).
Proof.
  intros Hf Hc. destruct (paths_ne path dest) as (N1 & _).
  unfold main. mrun. unfold is_file. rewrite Hf. simpl.
  rewrite load_cache_run. simpl. rewrite Hc. simpl. rewrite at_loop_eq.
  unfold run_loop, try_except_KeyboardInterrupt.
  destruct (readable f) eqn:Hr.
  - rewrite (with_files_run _ _ _ f) by done.
    destruct (process_lines _ _ _ _ _ _ _ _ _) as [rl wl].
    destruct rl as [st|[| |e]]; try done.
    destruct (on_interrupt_raises (cache_path_for path dest)
                (choose_output_path path dest)
                (closed (choose_output_path path dest) wl)) as (e & w1 & He).
    by rewrite !He.
  - by rewrite (with_files_unreadable _ _ _ f) by done.
Qed.

Lemma no_calls_at_loop path dest c w :
  calls_step [] [] 0 (set_cache c w) (at_loop LANGUAGES path dest c w).
Proof.
  split; [done|]. split; [simpl; lia|].
  exists (EvStdout MsgBanner :: header LANGUAGES path dest c). done.
Qed.

End MainRuns.

(** ** Whole runs: calls, cache and counters *)

Lemma silent_refl w : silent w w.
Proof. split; [done|]. exists []. by rewrite app_nil_r. Qed.

Lemma no_calls_silent w w' : no_calls w w' → silent w w'.
Proof. intros (_ & Hn & tr & T & E). split; [lia|]. by exists tr. Qed.

Lemma silent_calls_from dest fs w w' : silent w w' → calls_from dest fs w w'.
Proof.
  intros (Hn & tr & T & E). exists tr. rewrite E. simpl.
  split; [done|]. split; [lia|]. split; [lia|done].
Qed.

Lemma calls_from_silent_l dest fs w1 w2 w3 :
  silent w1 w2 → calls_from dest fs w2 w3 → calls_from dest fs w1 w3.
Proof.
  intros (Hn & tr1 & T1 & E1) (tr2 & T2 & N2 & L2 & F2).
  exists (tr1 ++ tr2). rewrite calls_of_app, E1. simpl.
  split; [by rewrite T2, T1, app_assoc|]. split; [lia|]. done.
Qed.

Lemma calls_from_silent_r dest fs w1 w2 w3 :
  calls_from dest fs w1 w2 → silent w2 w3 → calls_from dest fs w1 w3.
Proof.
  intros (tr1 & T1 & N1 & L1 & F1) (Hn & tr2 & T2 & E2).
  exists (tr1 ++ tr2). rewrite calls_of_app, E2, app_nil_r.
  split; [by rewrite T2, T1, app_assoc|]. split; [lia|]. done.
Qed.

Lemma run_calls_from dest fs w w' : run_calls dest fs w w' → calls_from dest fs w w'.
Proof. by intros [_ H]. Qed.

Section Runs.

Variable google : nat → list N → list N → list N + list N.
Variable clock : nat → Q.
Variable LANGUAGES : list N → option (list N).

Lemma silent_at_loop path dest c w :
  silent w (opened (choose_output_path path dest) (at_loop LANGUAGES path dest c w)).
Proof.
  split; [done|]. exists (EvStdout MsgBanner :: header LANGUAGES path dest c). done.
Qed.

(** A run that reaches the loop, cut at the end of the loop. *)
Lemma main_through_loop path dest debug f c w r w' :
  files w !! path = Some f → readable f = true →
  as_cache (cache_file_value (files w) (cache_path_for path dest)) = Some c →
  main google clock LANGUAGES path dest debug w = (r, w') →
  let out_path := choose_output_path path dest in
  let cache_file := cache_path_for path dest in
  ∃ rl wl,
    process_lines google clock dest cache_file debug 1
      (input_lines (content f)) (Counters 0 0 (clock (clock_reads w)))
      (opened out_path (at_loop LANGUAGES path dest c w)) = (rl, wl)
    ∧ no_calls (closed out_path wl) w'
    ∧ (∀ p, p ≠ cache_file → p ≠ tmp_path cache_file →
         files w' !! p = files (closed out_path wl) !! p)
    ∧ match rl with
      | Ok st => finish cache_file out_path st (closed out_path wl) = (r, w')
      | Raise KeyboardInterrupt => ∃ e, r = Raise e
      | Raise e => r = Raise e
      end.
Proof.
  intros Hf Hr Hc Hrun out_path cache_file.
  rewrite (main_loop _ _ _ _ _ _ f c) in Hrun by done. rewrite Hr in Hrun.
  cbv zeta in Hrun. fold out_path cache_file in Hrun.
  destruct (process_lines _ _ _ _ _ _ _ _ _) as [rl wl] eqn:Hl.
  exists rl, wl. split; [done|].
  destruct rl as [st|[| |e]].
  - destruct (finish_step _ _ _ _ _ _ Hrun) as [H1 H2]. done.
  - destruct (on_interrupt_step _ _ _ _ _ Hrun) as [H1 H2].
    split; [done|]. split; [done|].
    destruct (on_interrupt_raises cache_file out_path (closed out_path wl))
      as (e & w1 & He). rewrite He in Hrun. injection Hrun as <- _. by exists e.
  - injection Hrun as <- <-. split; [apply no_calls_refl|done].
  - injection Hrun as <- <-. split; [apply no_calls_refl|done].
Qed.

Lemma run_calls_of_main path dest debug f c w r w' :
  files w !! path = Some f →
  as_cache (cache_file_value (files w) (cache_path_for path dest)) = Some c →
  main google clock LANGUAGES path dest debug w = (r, w') →
  calls_from dest (frags_in (input_lines (content f))) w w'.
Proof.
  intros Hf Hc Hrun.
  destruct (readable f) eqn:Hr; cycle 1.
  { rewrite (main_loop _ _ _ _ _ _ f c) in Hrun by done. rewrite Hr in Hrun.
    injection Hrun as <- <-. apply silent_calls_from.
    split; [done|]. exists (EvStdout MsgBanner :: header LANGUAGES path dest c). done. }
  destruct (main_through_loop _ _ _ _ _ _ _ _ Hf Hr Hc Hrun)
    as (rl & wl & Hl & Hn & _).
  apply process_lines_calls in Hl as [Hstep _].
  eapply calls_from_silent_l; [apply silent_at_loop|].
  eapply calls_from_silent_r; [|apply no_calls_silent, Hn].
  apply run_calls_from in Hstep. exact Hstep.
Qed.

End Runs.

(** ** Whole runs: what they leave behind *)

Lemma latin1_bytes_decode bs : latin1_bytes (map Byte.to_N bs) = bs.
Proof.
  induction bs as [|b bs IH]; [done|].
  change (map Byte.to_N (b :: bs)) with ([Byte.to_N b] ++ map Byte.to_N bs).
  rewrite latin1_bytes_app, IH, latin1_bytes_eq. simpl.
  by rewrite Byte.of_to_N.
Qed.

Lemma frags_in_no_quote lines :
  Forall (λ l, has_quote l = false) lines → frags_in lines = [].
Proof.
  unfold frags_in. induction 1 as [|l ls Hl _ IH]; simpl; [done|].
  by rewrite frags_of_no_quote, IH.
Qed.

Lemma line_image_no_quote lines records :
  Forall (λ l, has_quote l = false) lines →
  Forall2 line_image lines records → records = lines.
Proof.
  intros Hq H. induction H as [|l r ls rs Hlr _ IH]; [done|].
  apply Forall_cons in Hq as [Hl Hq]. unfold line_image in Hlr.
  rewrite Hl in Hlr. subst r. by rewrite IH.
Qed.

Section Outcomes.

Variable google : nat → list N → list N → list N + list N.
Variable clock : nat → Q.
Variable LANGUAGES : list N → option (list N).

(** A run that ends normally, cut at its parts. *)
Lemma main_ok_inv path dest debug f c w w' :
  files w !! path = Some f →
  as_cache (cache_file_value (files w) (cache_path_for path dest)) = Some c →
  main google clock LANGUAGES path dest debug w = (Ok (), w') →
  let out_path := choose_output_path path dest in
  let cache_file := cache_path_for path dest in
  ∃ st wl tr bs,
    readable f = true
    ∧ process_lines google clock dest cache_file debug 1
        (input_lines (content f)) (Counters 0 0 (clock (clock_reads w)))
        (opened out_path (at_loop LANGUAGES path dest c w)) = (Ok st, wl)
    ∧ loop_step cache_file tr
        (opened out_path (at_loop LANGUAGES path dest c w)) wl
    ∧ Forall2 line_image (input_lines (content f)) (writes_of tr)
    ∧ utf8_encode (json_dumps (cache wl)) = Some bs
    ∧ w' = set_files (<[cache_file := File true bs]>
                        (delete (tmp_path cache_file) (files (closed out_path wl))))
             (set_trace
                (trace wl ++ [EvWriteFile (tmp_path cache_file);
                              EvReplace (tmp_path cache_file) cache_file;
                              EvStdout MsgRule;
                              EvStdout (MsgDone out_path);
                              EvStdout (MsgLines (total_lines st) (changed_lines st));
                              EvStdout (MsgEntries (size (cache wl)));
                              EvStdout MsgRule]) (closed out_path wl)).
Proof.
  intros Hf Hc Hrun out_path cache_file.
  destruct (readable f) eqn:Hr; cycle 1.
  { rewrite (main_loop _ _ _ _ _ _ f c) in Hrun by done. by rewrite Hr in Hrun. }
  destruct (main_through_loop _ _ _ _ _ _ _ _ _ _ _ Hf Hr Hc Hrun)
    as (rl & wl & Hl & _ & _ & Hfin).
  fold out_path cache_file in Hl, Hfin.
  destruct rl as [st|[| |e]]; [| |done|done]; cycle 1.
  { by destruct Hfin. }
  pose proof Hl as Hl'.
  apply process_lines_spec in Hl' as (tr & Hstep & Himg & Hlen & _).
  rewrite Hlen, firstn_all in Himg.
  pose proof Hfin as Hfin'. unfold finish in Hfin'. revert Hfin'. mrun.
  destruct (save_cache _ _ _) as [[[]|e] w2] eqn:Es; [|done].
  apply save_cache_inv in Es as (bs & Hbs & _). intros _.
  rewrite (finish_run _ _ _ _ bs) in Hfin by done. injection Hfin as <-.
  exists st, wl, tr, bs. done.
Qed.

End Outcomes.

(** ** Properties of whole runs *)

Section RunProperties.

Variable google : nat → list N → list N → list N + list N.
Variable clock : nat → Q.
Variable LANGUAGES : list N → option (list N).

(** X4. In every run of [main] on an input that exists, with a cache file
    that is absent, corrupt or an object of strings, and however the run
    ends, every call of the translator is for the destination code and on
    the text of a match of an input line that is not inert, and there are
    at most [RETRY_LIMIT] calls for each match of the input. *)
Theorem calls_of_a_run path dest debug f c w r w' :
  files w !! path = Some f →
  as_cache (cache_file_value (files w) (cache_path_for path dest)) = Some c →
  main google clock LANGUAGES path dest debug w = (r, w') →
  ∃ tr, trace w' = trace w ++ tr
    ∧ translate_calls w' = (translate_calls w + length (calls_of tr))%nat
    ∧ (length (calls_of tr)
       ≤ RETRY_LIMIT * length (frags_in (input_lines (content f))))%nat
    ∧ Forall (λ c, c.2 = dest ∧ c.1 ∈ frags_in (input_lines (content f))
                   ∧ is_inert c.1 = false) (calls_of tr).
Proof. intros Hf Hc Hrun. by eapply run_calls_of_main. Qed.

(** X5. When a run of [main] that started from a cache file that is
    absent, corrupt or an object of strings ends normally, the cache it
    leaves has every entry that was loaded at the start, unchanged, and an
    entry for every match of the input that is not inert; every text in it
    can be encoded as UTF-8, and the cache file is a readable file that
    loads back as that mapping. *)
Theorem run_leaves_a_warm_cache path dest debug f c w w' :
  files w !! path = Some f →
  as_cache (cache_file_value (files w) (cache_path_for path dest)) = Some c →
  main google clock LANGUAGES path dest debug w = (Ok (), w') →
  let cache_file := cache_path_for path dest in
  c ⊆ cache w'
  ∧ warm (cache w') (input_lines (content f))
  ∧ encodable_cache (cache w')
  ∧ (∃ bs, files w' !! cache_file = Some (File true bs))
  ∧ as_cache (cache_file_value (files w') cache_file) = Some (cache w').
Proof.
  intros Hf Hc Hrun cache_file.
  apply (main_ok_inv _ _ _ _ _ _ _ _ _ _ Hf Hc) in Hrun
    as (st & wl & tr & bs & Hr & Hl & Hstep & Himg & Hbs & ->).
  fold cache_file in Hc, Hl, Hstep.
  apply process_lines_calls in Hl as [[Hsub _] (Hw & _)].
  simpl.
  assert (<[cache_file:=File true bs]>
            (delete (tmp_path cache_file)
               (write_content (choose_output_path path dest) (out_buffer wl) (files wl)))
          !! cache_file = Some (File true bs)) as Hcf by apply lookup_insert_eq.
  split; [done|]. split; [done|].
  split; [apply encodable_json_dumps; by rewrite Hbs|].
  split; [by exists bs|]. by eapply cache_file_value_written.
Qed.

(** X6. When a run of [main] with a cache file that is absent, corrupt or
    an object of strings ends normally, its summary reports as lines
    processed the number of lines of the input, as changed lines at most
    the number of input lines that have a quote, and as cache entries the
    size of the cache it leaves. *)
Theorem summary_counts_the_lines path dest debug f c w w' :
  files w !! path = Some f →
  as_cache (cache_file_value (files w) (cache_path_for path dest)) = Some c →
  main google clock LANGUAGES path dest debug w = (Ok (), w') →
  ∃ pre changed,
    trace w'
    = pre ++ [EvStdout MsgRule;
              EvStdout (MsgDone (choose_output_path path dest));
              EvStdout (MsgLines (length (input_lines (content f))) changed);
              EvStdout (MsgEntries (size (cache w')));
              EvStdout MsgRule]
    ∧ (changed ≤ length (List.filter has_quote (input_lines (content f))))%nat.
Proof.
  intros Hf Hc Hrun.
  apply (main_ok_inv _ _ _ _ _ _ _ _ _ _ Hf Hc) in Hrun
    as (st & wl & tr & bs & Hr & Hl & Hstep & Himg & Hbs & ->).
  apply process_lines_calls in Hl as [_ (_ & Ht & Hch)]. simpl in Ht, Hch.
  exists (trace wl ++ [EvWriteFile (tmp_path (cache_path_for path dest));
                       EvReplace (tmp_path (cache_path_for path dest))
                         (cache_path_for path dest)]),
    (changed_lines st).
  split; [|done]. simpl. rewrite Ht, <-app_assoc. done.
Qed.

(** X7. When the input has no quote, the cache file is absent, corrupt or
    an object of strings, and the run ends normally, the translator is not
    called and the output file is the input with every line end read as a
    line feed; without a carriage return in the input the output file is
    the input, byte for byte. *)
Theorem input_without_quotes_is_copied path dest debug f c w w' :
  files w !! path = Some f →
  as_cache (cache_file_value (files w) (cache_path_for path dest)) = Some c →
  has_quote (map Byte.to_N (content f)) = false →
  main google clock LANGUAGES path dest debug w = (Ok (), w') →
  translate_calls w' = translate_calls w
  ∧ files w' !! choose_output_path path dest
    = Some (File true (latin1_bytes (universal_newlines (map Byte.to_N (content f)))))
  ∧ (Forall (λ c, c ≠ CR) (map Byte.to_N (content f)) →
     files w' !! choose_output_path path dest = Some (File true (content f))).
Proof.
  intros Hf Hc Hq Hrun.
  assert (Forall (λ l, has_quote l = false) (input_lines (content f))) as Hlines.
  { eapply Forall_impl; [|intros l Hl; apply has_quote_false; exact Hl].
    apply input_lines_Forall. apply universal_newlines_Forall; [done|].
    by apply has_quote_false. }
  destruct (run_calls_of_main google clock LANGUAGES _ _ _ _ _ _ _ _ Hf Hc Hrun)
    as (tr0 & _ & Hn & Hlen & _).
  rewrite frags_in_no_quote in Hlen by done. simpl in Hlen.
  destruct (paths_ne path dest) as (_ & _ & _ & N4 & N5 & _).
  apply (main_ok_inv _ _ _ _ _ _ _ _ _ _ Hf Hc) in Hrun
    as (st & wl & tr & bs & Hr & Hl & Hstep & Himg & Hbs & ->).
  apply line_image_no_quote in Himg; [|done].
  destruct Hstep as (_ & Hbuf & _). simpl in Hbuf.
  assert (files
            (set_files
               (<[cache_path_for path dest:=File true bs]>
                  (delete (tmp_path (cache_path_for path dest))
                     (files (closed (choose_output_path path dest) wl))))
               (set_trace
                  (trace wl ++ [EvWriteFile (tmp_path (cache_path_for path dest));
                     EvReplace (tmp_path (cache_path_for path dest))
                       (cache_path_for path dest);
                     EvStdout MsgRule;
                     EvStdout (MsgDone (choose_output_path path dest));
                     EvStdout (MsgLines (total_lines st) (changed_lines st));
                     EvStdout (MsgEntries (size (cache wl)));
                     EvStdout MsgRule])
                  (closed (choose_output_path path dest) wl)))
          !! choose_output_path path dest
          = Some (File true
               (latin1_bytes (universal_newlines (map Byte.to_N (content f))))))
    as Hout.
  { simpl. rewrite lookup_insert_ne by done. rewrite lookup_delete_ne by done.
    unfold write_content. rewrite lookup_insert_eq, Hbuf, Himg.
    unfold input_lines. by rewrite concat_iter_lines. }
  split; [simpl in *; lia|]. split; [exact Hout|].
  intros Hcr. rewrite Hout, universal_newlines_id by done.
  by rewrite latin1_bytes_decode.
Qed.

(** X8. A run of [main] on an input that exists, with a cache file that is
    absent, corrupt or an object of strings, leaves every file as it was,
    however it ends, but the output file, the cache file and the temporary
    file of the cache; in particular the input file is as it was. *)
Theorem run_leaves_other_files_alone path dest debug f c w r w' :
  files w !! path = Some f →
  as_cache (cache_file_value (files w) (cache_path_for path dest)) = Some c →
  main google clock LANGUAGES path dest debug w = (r, w') →
  (∀ p, p ≠ choose_output_path path dest → p ≠ cache_path_for path dest →
        p ≠ tmp_path (cache_path_for path dest) →
        files w' !! p = files w !! p)
  ∧ files w' !! path = Some f.
Proof.
  intros Hf Hc Hrun.
  assert (∀ p, p ≠ choose_output_path path dest → p ≠ cache_path_for path dest →
               p ≠ tmp_path (cache_path_for path dest) →
               files w' !! p = files w !! p) as H.
  { intros p P1 P2 P3.
    destruct (readable f) eqn:Hr; cycle 1.
    { rewrite (main_loop _ _ _ _ _ _ f c) in Hrun by done. rewrite Hr in Hrun.
      by injection Hrun as _ <-. }
    destruct (main_through_loop _ _ _ _ _ _ _ _ _ _ _ Hf Hr Hc Hrun)
      as (rl & wl & Hl & _ & Hfr & _).
    apply process_lines_spec in Hl as (tr & (_ & _ & Hfl & _) & _).
    rewrite Hfr by done. simpl. unfold write_content.
    rewrite lookup_insert_ne by done. rewrite Hfl by done. simpl.
    unfold write_content. by rewrite lookup_insert_ne. }
  split; [exact H|].
  destruct (paths_ne path dest) as (N1 & N2 & N3 & _). rewrite <-Hf. by apply H.
Qed.


End RunProperties.

Lemma calls_of_a_run_witness :
  let w := idle_world (files_with plain_input ∅) in
  let run := main (flaky 1 (u "hola")) frozen no_names demo_path (u "es") false w in
  ∃ tr, trace run.2 = trace w ++ tr
    ∧ translate_calls run.2 = (translate_calls w + length (calls_of tr))%nat
    ∧ (length (calls_of tr)
       ≤ RETRY_LIMIT * length (frags_in (input_lines plain_input)))%nat
    ∧ Forall (λ c, c.2 = u "es" ∧ c.1 ∈ frags_in (input_lines plain_input)
                   ∧ is_inert c.1 = false) (calls_of tr).
Proof.
  intros w run.
  apply (calls_of_a_run (flaky 1 (u "hola")) frozen no_names demo_path (u "es") false
           (File true plain_input) ∅ w run.1 run.2).
  - vm_compute. reflexivity.
  - vm_compute. reflexivity.
  - apply surjective_pairing.
Defined.

Lemma run_leaves_a_warm_cache_witness :
  let w := idle_world (files_with plain_input ∅) in
  let w' := (main (flaky 1 (u "hola")) frozen no_names demo_path (u "es") false w).2 in
  let cache_file := cache_path_for demo_path (u "es") in
  ∅ ⊆ cache w'
  ∧ warm (cache w') (input_lines plain_input)
  ∧ encodable_cache (cache w')
  ∧ (∃ bs, files w' !! cache_file = Some (File true bs))
  ∧ as_cache (cache_file_value (files w') cache_file) = Some (cache w').
Proof.
  intros w w'.
  apply (run_leaves_a_warm_cache (flaky 1 (u "hola")) frozen no_names demo_path
           (u "es") false (File true plain_input) ∅ w w').
  - vm_compute. reflexivity.
  - vm_compute. reflexivity.
  - vm_compute. reflexivity.
Defined.

Lemma summary_counts_the_lines_witness :
  let w := idle_world demo_files in
  let w' := (main offline frozen no_names demo_path (u "es") false w).2 in
  ∃ pre changed,
    trace w'
    = pre ++ [EvStdout MsgRule;
              EvStdout (MsgDone (choose_output_path demo_path (u "es")));
              EvStdout (MsgLines (length (input_lines (latin1_bytes demo_input))) changed);
              EvStdout (MsgEntries (size (cache w')));
              EvStdout MsgRule]
    ∧ (changed ≤ length (List.filter has_quote (input_lines (latin1_bytes demo_input))))%nat.
Proof.
  intros w w'.
  apply (summary_counts_the_lines offline frozen no_names demo_path (u "es") false
           (File true (latin1_bytes demo_input)) demo_cache w w').
  - vm_compute. reflexivity.
  - vm_compute. reflexivity.
  - vm_compute. reflexivity.
Defined.

Lemma input_without_quotes_is_copied_witness :
  let w := idle_world (files_with bare_input ∅) in
  let w' := (main offline frozen no_names demo_path (u "es") false w).2 in
  translate_calls w' = translate_calls w
  ∧ files w' !! choose_output_path demo_path (u "es")
    = Some (File true (latin1_bytes (universal_newlines (map Byte.to_N bare_input))))
  ∧ (Forall (λ c, c ≠ CR) (map Byte.to_N bare_input) →
     files w' !! choose_output_path demo_path (u "es") = Some (File true bare_input)).
Proof.
  intros w w'.
  apply (input_without_quotes_is_copied offline frozen no_names demo_path (u "es")
           false (File true bare_input) ∅ w w').
  - vm_compute. reflexivity.
  - vm_compute. reflexivity.
  - vm_compute. reflexivity.
  - vm_compute. reflexivity.
Defined.

Lemma run_leaves_other_files_alone_witness :
  let w := set_sigint (Some 2%nat) (idle_world demo_files) in
  let run := main offline frozen no_names demo_path (u "es") false w in
  (∀ p, p ≠ choose_output_path demo_path (u "es") →
        p ≠ cache_path_for demo_path (u "es") →
        p ≠ tmp_path (cache_path_for demo_path (u "es")) →
        files run.2 !! p = files w !! p)
  ∧ files run.2 !! demo_path = Some (File true (latin1_bytes demo_input)).
Proof.
  intros w run.
  apply (run_leaves_other_files_alone offline frozen no_names demo_path (u "es")
           false (File true (latin1_bytes demo_input)) demo_cache w run.1 run.2).
  - vm_compute. reflexivity.
  - vm_compute. reflexivity.
  - apply surjective_pairing.
Defined.


(** ** Properties of [translate_line] *)

Lemma frags_of_scan_clean s :
  Forall (Forall (λ c, c ≠ QUOTE ∧ c ≠ LF)) (frags_of (scan s)).
Proof.
  induction s as [s IH] using str_length_ind.
  destruct s as [|c s]; [by rewrite scan_nil|].
  rewrite scan_cons.
  destruct (if c =? QUOTE then match_body s else None) as [[inner rest]|] eqn:E.
  - destruct (c =? QUOTE); [|done].
    apply match_body_spec in E as [-> Hin].
    unfold frags_of. simpl. constructor; [done|].
    apply IH. simpl. rewrite length_app. simpl. lia.
  - unfold frags_of. simpl. apply IH. simpl. lia.
Qed.

Lemma frags_of_map_Lit s : frags_of (map Lit s) = [].
Proof. unfold frags_of. by induction s. Qed.

Section LineProperties.

Variable google : nat → list N → list N → list N + list N.

Lemma translate_line_inv line dest debug lineno w r w' :
  translate_line google line dest debug lineno w = (r, w') →
  run_calls dest (frags_of (scan line)) w w'
  ∧ match r with
    | Ok (t, chg) =>
        warm_segs (cache w') (scan line)
        ∧ (chg = false → t = line)
        ∧ (chg = true → ∃ inner out, inner ∈ frags_of (scan line)
                          ∧ is_inert inner = false
                          ∧ cache w' !! inner = Some out ∧ out ≠ inner)
    | Raise KeyboardInterrupt => True
    | Raise _ => False
    end.
Proof.
  unfold translate_line. destruct (has_quote line) eqn:Hq; simpl.
  - intros H. apply sub_segments_calls in H as [Hstep Ho]. split; [done|].
    destruct r as [[t chg]|e]; [|done]. destruct Ho as (Hw & Hf & Ht).
    split; [done|]. split; [|done]. intros Hc. rewrite (Hf Hc). apply render_scan.
  - intros [= <- <-]. split; [apply run_calls_refl|].
    split; [|done]. rewrite scan_no_quote by done.
    intros i Hin. by apply list_elem_of_fmap in Hin as (c & [=] & _).
Qed.

(** X1. Whatever line [translate_line] is given and however it ends,
    every call of the translator it makes is for the destination code,
    on the exact text of a match of the line that is not inert (a text
    without a quote and without a line feed), and it makes at most
    [RETRY_LIMIT] calls for each match of the line. *)
Theorem translate_line_calls line dest debug lineno w r w' :
  translate_line google line dest debug lineno w = (r, w') →
  ∃ tr, trace w' = trace w ++ tr
    ∧ translate_calls w' = (translate_calls w + length (calls_of tr))%nat
    ∧ (length (calls_of tr) ≤ RETRY_LIMIT * length (frags_of (scan line)))%nat
    ∧ Forall (λ c, c.2 = dest ∧ c.1 ∈ frags_of (scan line)
                   ∧ is_inert c.1 = false
                   ∧ Forall (λ ch, ch ≠ QUOTE ∧ ch ≠ LF) c.1) (calls_of tr).
Proof.
  intros H. apply translate_line_inv in H as [(_ & tr & T & Nn & L & F) _].
  exists tr. split; [done|]. split; [done|]. split; [done|].
  eapply Forall_impl; [exact F|]. intros c (Hd & Hin & Hi).
  split; [done|]. split; [done|]. split; [done|].
  pose proof (frags_of_scan_clean line) as Hclean.
  rewrite Forall_forall in Hclean. by apply Hclean.
Qed.

(** X2. When [translate_line] returns, its flag tells whether a text was
    replaced by another: with the flag unset the line returned is the line
    given, character for character; with the flag set the line has a match
    that is not inert and whose cache entry is a different text. *)
Theorem translate_line_changed line dest debug lineno w new_line chg w' :
  translate_line google line dest debug lineno w = (Ok (new_line, chg), w') →
  (chg = false → new_line = line)
  ∧ (chg = true → ∃ inner out, inner ∈ frags_of (scan line)
                    ∧ is_inert inner = false
                    ∧ cache w' !! inner = Some out ∧ out ≠ inner).
Proof. intros H. by apply translate_line_inv in H as [_ (_ & ? & ?)]. Qed.

(** X3. With the debug trace off, no failure of the translator gets out of
    [translate_line]: whatever the translator answers or raises at each
    call, the line is returned, unless an operator interruption was pending
    and is delivered, and then [KeyboardInterrupt] is what is raised. When
    the line is returned, the cache has kept its entries and has an entry
    for every match of the line that is not inert. *)
Theorem translate_line_survives_failures line dest lineno w r w' :
  translate_line google line dest false lineno w = (r, w') →
  match r with
  | Ok _ => cache w ⊆ cache w' ∧ warm_segs (cache w') (scan line)
  | Raise e => e = KeyboardInterrupt ∧ is_Some (sigint w) ∧ sigint w' = None
  end
  ∧ (sigint w = None → ∃ p, r = Ok p).
Proof.
  intros H. pose proof H as H'.
  apply translate_line_inv in H as [[Hsub _] Ho].
  apply spec_translate_line in H' as [Hq Hout].
  destruct r as [[t chg]|[| |e]]; try done.
  - split; [|by eauto]. by destruct Ho as (? & _).
  - simpl in Hout. split; [done|]. intros Hs. destruct Hout as [[n Hn] _]. congruence.
Qed.

End LineProperties.

Lemma translate_line_calls_witness :
  let line := u "say " ++ quoted (u "hi") ++ u " to " ++ quoted (u " ") in
  let w := idle_world ∅ in
  let run := translate_line (flaky 2 (u "hola")) line (u "es") false None w in
  ∃ tr, trace run.2 = trace w ++ tr
    ∧ translate_calls run.2 = (translate_calls w + length (calls_of tr))%nat
    ∧ (length (calls_of tr) ≤ RETRY_LIMIT * length (frags_of (scan line)))%nat
    ∧ Forall (λ c, c.2 = u "es" ∧ c.1 ∈ frags_of (scan line)
                   ∧ is_inert c.1 = false
                   ∧ Forall (λ ch, ch ≠ QUOTE ∧ ch ≠ LF) c.1) (calls_of tr).
Proof.
  intros line w run.
  apply (translate_line_calls (flaky 2 (u "hola")) line (u "es") false None w run.1 run.2).
  apply surjective_pairing.
Defined.

Lemma translate_line_changed_witness :
  let line := u "say " ++ quoted (u "hi") in
  let w := idle_world ∅ in
  let w' := (translate_line (flaky 0 (u "hola")) line (u "es") false None w).2 in
  (true = false → u "say " ++ quoted (u "hola") = line)
  ∧ (true = true → ∃ inner out, inner ∈ frags_of (scan line)
                    ∧ is_inert inner = false
                    ∧ cache w' !! inner = Some out ∧ out ≠ inner).
Proof.
  intros line w w'.
  apply (translate_line_changed (flaky 0 (u "hola")) line (u "es") false None w
           (u "say " ++ quoted (u "hola")) true w').
  vm_compute. reflexivity.
Defined.

Lemma translate_line_survives_failures_witness :
  let line := u "say " ++ quoted (u "hi") in
  let w := idle_world ∅ in
  let run := translate_line offline line (u "es") false None w in
  match run.1 with
  | Ok _ => cache w ⊆ cache run.2 ∧ warm_segs (cache run.2) (scan line)
  | Raise e => e = KeyboardInterrupt ∧ is_Some (sigint w) ∧ sigint run.2 = None
  end
  ∧ (sigint w = None → ∃ p, run.1 = Ok p).
Proof.
  intros line w run.
  apply (translate_line_survives_failures offline line (u "es") None w run.1 run.2).
  apply surjective_pairing.
Defined.

(** ** Properties of the flush *)

(** X10. [save_cache] replaces the cache file in one step or not at all.
    It returns exactly when every key and value of the mapping can be
    encoded as UTF-8; the cache file is then a readable file that loads
    back as the mapping, and the temporary file is gone. Otherwise it
    raises [UnicodeEncodeError] and the cache file is as it was before.
    Either way no file is touched but these two, and the cache in memory is
    as it was. *)
Theorem save_cache_is_atomic (cache_file : list N) (m : gmap (list N) (list N))
    (w : world) (r : res unit) (w' : world) :
  path_name cache_file ≠ [] →
  save_cache cache_file m w = (r, w') →
  (∀ p, p ≠ cache_file → p ≠ tmp_path cache_file → files w' !! p = files w !! p)
  ∧ cache w' = cache w
  ∧ match r with
    | Ok _ => encodable_cache m
              ∧ (∃ bs, files w' !! cache_file = Some (File true bs))
              ∧ as_cache (cache_file_value (files w') cache_file) = Some m
              ∧ files w' !! tmp_path cache_file = None
    | Raise e => e = Exception (u "UnicodeEncodeError")
                 ∧ ¬ encodable_cache m
                 ∧ files w' !! cache_file = files w !! cache_file
    end.
Proof.
  intros _ Hrun. pose proof (tmp_path_ne cache_file) as Hne.
  pose proof Hrun as Hstep.
  apply (save_cache_step cache_file) in Hstep as (tr & (_ & _ & Hf & _) & _ & Hc & Ho).
  split; [done|]. split; [done|].
  destruct r as [[]|e].
  - apply save_cache_inv in Hrun as (bs & Hbs & ->).
    split; [apply encodable_json_dumps; by rewrite Hbs|].
    assert (files (flushed cache_file bs w) !! cache_file = Some (File true bs)) as Hcf.
    { unfold flushed. simpl. apply lookup_insert_eq. }
    split; [by exists bs|].
    split; [by eapply cache_file_value_written|].
    unfold flushed. simpl.
    rewrite lookup_insert_ne by done. apply lookup_delete_eq.
  - destruct e as [| |what]; try done.
    assert (¬ encodable_cache m) as Hnot.
    { intros Hm. apply json_dumps_encodable in Hm as [bs Hbs]. congruence. }
    unfold save_cache in Hrun.
    destruct (write_chunks (dump_chunks (map_to_list m)) []) as [[[]|e] bs] eqn:Ew.
    + apply write_chunks_ok in Ew as (bs' & Hbs & _).
      unfold json_dumps in Ho. congruence.
    + revert Hrun. mrun. intros [= -> <-]. simpl.
      split; [|split; [done|]].
      * clear -Ew. revert Ew. generalize (@nil byte) as acc.
        induction (dump_chunks (map_to_list m)) as [|c cs IH]; intros acc; simpl; [done|].
        destruct (utf8_encode c); [apply IH|]. by intros [= <- _].
      * unfold write_content. by rewrite lookup_insert_ne.
Qed.

Lemma save_cache_is_atomic_witness :
  let run := save_cache (u "f.cache_es.json") demo_cache (idle_world ∅) in
  (∀ p, p ≠ u "f.cache_es.json" → p ≠ tmp_path (u "f.cache_es.json") →
        files run.2 !! p = files (idle_world ∅) !! p)
  ∧ cache run.2 = cache (idle_world ∅)
  ∧ match run.1 with
    | Ok _ => encodable_cache demo_cache
              ∧ (∃ bs, files run.2 !! u "f.cache_es.json" = Some (File true bs))
              ∧ as_cache (cache_file_value (files run.2) (u "f.cache_es.json"))
                = Some demo_cache
              ∧ files run.2 !! tmp_path (u "f.cache_es.json") = None
    | Raise e => e = Exception (u "UnicodeEncodeError")
                 ∧ ¬ encodable_cache demo_cache
                 ∧ files run.2 !! u "f.cache_es.json"
                   = files (idle_world ∅) !! u "f.cache_es.json"
    end.
Proof.
  intros run.
  apply (save_cache_is_atomic (u "f.cache_es.json") demo_cache (idle_world ∅) run.1 run.2).
  - vm_compute. discriminate.
  - apply surjective_pairing.
Defined.

(** X13. The text [json.dump] writes for a mapping is read back by
    [json.load] as that mapping, whatever its keys and values hold: quotes,
    backslashes, control characters, characters of any plane, lone
    surrogates. It has no carriage return of its own, those of the texts
    being escaped, so that reading it through the text layer, which turns
    carriage returns into line feeds, gives the same text. *)
Theorem json_text_round_trip (m : gmap (list N) (list N)) :
  universal_newlines (json_dumps m) = json_dumps m
  ∧ json_loads (universal_newlines (json_dumps m)) ≫= as_cache = Some m.
Proof.
  assert (universal_newlines (json_dumps m) = json_dumps m) as E
    by apply universal_newlines_id, json_dumps_no_cr.
  split; [done|]. rewrite E. apply loads_dumps.
Qed.

(** ** Properties of [normalize_lang] *)

Lemma contains_nil s : contains s [] = true.
Proof. by destruct s. Qed.

Lemma find_elem_of {A} (f : A → bool) l x : List.find f l = Some x → x ∈ l ∧ f x = true.
Proof.
  induction l as [|a l IH]; simpl; [done|].
  destruct (f a) eqn:E.
  - intros [= ->]. split; [by left|done].
  - intros H. destruct (IH H). split; [by right|done].
Qed.

Lemma filter_elem_of {A} (f : A → bool) l x : x ∈ List.filter f l → x ∈ l.
Proof. intros H. apply list_elem_of_In in H. apply filter_In in H as [H _]. by apply list_elem_of_In. Qed.

Section LanguageProperties.

Variable lower : list N → list N.
Variable languages : list (list N * list N).

(** X11. What [normalize_lang] returns is always a code of [LANGUAGES],
    and it is a fixed point: given back to [normalize_lang] it is returned
    as it is, the codes being, as they are in [LANGUAGES], in lower case
    and without white space around. *)
Theorem normalize_lang_returns_a_code inp code :
  normalize_lang lower languages inp = inl code →
  code ∈ languages.*1
  ∧ (lower (strip code) = code → normalize_lang lower languages code = inl code).
Proof.
  unfold normalize_lang at 1. intros H.
  assert (code ∈ languages.*1) as Hin.
  { destruct (bool_decide (lower (strip inp) ∈ languages.*1)) eqn:Hk.
    - injection H as <-. by apply bool_decide_eq_true in Hk.
    - destruct (List.find _ languages) as [[c n]|] eqn:Hf.
      + injection H as ->. apply find_elem_of in Hf as [Hf _].
        apply list_elem_of_fmap. by exists (code, n).
      + destruct (List.filter _ languages) as [|[c n] [|? ?]] eqn:Hm; simpl in H; try done.
        injection H as ->.
        assert ((code, n) ∈ List.filter
                  (λ kv, contains (lower kv.2) (lower (strip inp))) languages) as Hx
          by (rewrite Hm; by left).
        apply filter_elem_of in Hx. apply list_elem_of_fmap. by exists (code, n). }
  split; [done|]. intros Hl. unfold normalize_lang. rewrite Hl.
  by rewrite bool_decide_eq_true_2.
Qed.

(** X12. An input that is empty or all white space is not refused as
    unrecognized: the empty text occurs in every name, so with two
    languages or more [normalize_lang] raises the [ValueError] for an
    ambiguous name, listing every code of [LANGUAGES]. *)
Theorem normalize_lang_blank inp :
  strip inp = [] → lower [] = [] →
  [] ∉ languages.*1 →
  Forall (λ kv, lower kv.2 ≠ []) languages →
  (2 ≤ length languages)%nat →
  normalize_lang lower languages inp = inr (Ambiguous (languages.*1)).
Proof.
  intros Hs Hl Hk Hn Hlen. unfold normalize_lang. rewrite Hs, Hl.
  rewrite bool_decide_eq_false_2 by done.
  assert (List.find (λ kv, bool_decide ([] = lower kv.2)) languages = None) as ->.
  { clear -Hn. induction Hn as [|kv l Hkv _ IH]; simpl; [done|].
    rewrite bool_decide_eq_false_2 by done. exact IH. }
  assert (List.filter (λ kv, contains (lower kv.2) []) languages = languages) as ->.
  { clear. induction languages as [|kv l IH]; simpl; [done|].
    by rewrite contains_nil, IH. }
  destruct languages as [|a [|b l]]; simpl in *; try lia. done.
Qed.

End LanguageProperties.

Lemma normalize_lang_returns_a_code_witness :
  u "es" ∈ some_languages.*1
  ∧ (ascii_lower (strip (u "es")) = u "es" →
     normalize_lang ascii_lower some_languages (u "es") = inl (u "es")).
Proof.
  apply (normalize_lang_returns_a_code ascii_lower some_languages (u " Spanish ") (u "es")).
  vm_compute. reflexivity.
Defined.

Lemma normalize_lang_blank_witness :
  normalize_lang ascii_lower some_languages (u "  ")
  = inr (Ambiguous (some_languages.*1)).
Proof.
  apply (normalize_lang_blank ascii_lower some_languages (u "  ")).
  - vm_compute. reflexivity.
  - reflexivity.
  - intros H. unfold some_languages in H. simpl in H.
    repeat (apply elem_of_cons in H as [H|H]; [by vm_compute in H|]).
    by apply elem_of_nil in H.
  - repeat constructor; vm_compute; discriminate.
  - vm_compute. lia.
Defined.

(** ** Properties of the derived paths *)

Lemma rfind_tail_None d s : rfind_tail d s = None → Forall (λ c, c ≠ d) s.
Proof.
  induction s as [|c s IH]; simpl; [done|].
  destruct (rfind_tail d s); [done|].
  destruct (N.eqb_spec c d); [done|]. intros _. constructor; auto.
Qed.

Lemma rfind_tail_app_clean d s t :
  Forall (λ c, c ≠ d) t →
  rfind_tail d (s ++ t) = (λ x, x ++ t) <$> rfind_tail d s.
Proof.
  intros Ht. induction s as [|c s IH]; simpl.
  - induction Ht as [|c t Hc _ IH]; simpl; [done|].
    rewrite IH. simpl. by rewrite (proj2 (N.eqb_neq c d)).
  - rewrite IH. destruct (rfind_tail d s); simpl; [done|].
    by destruct (c =? d).
Qed.

Lemma rfind_tail_app_last d s e :
  Forall (λ c, c ≠ d) e → rfind_tail d (s ++ d :: e) = Some (d :: e).
Proof.
  intros He. induction s as [|c s IH]; simpl.
  - pose proof (rfind_tail_app_clean d [] e He) as H. simpl in H.
    rewrite H. by rewrite N.eqb_refl.
  - by rewrite IH.
Qed.

Lemma path_name_no_slash p : Forall (λ c, c ≠ SLASH) (path_name p).
Proof.
  unfold path_name. destruct (rfind_tail SLASH p) as [t|] eqn:E.
  - apply rfind_tail_head in E as (t' & -> & Ht). done.
  - apply rfind_tail_None in E. destruct p as [|c [|c' p]]; try done.
    by destruct (c =? DOT).
Qed.

Lemma path_name_app p t :
  Forall (λ c, c ≠ SLASH) t → (1 < length t)%nat →
  ∃ x, path_name (p ++ t) = x ++ t.
Proof.
  intros Ht Hlen. unfold path_name. rewrite rfind_tail_app_clean by done.
  destruct (rfind_tail SLASH p) as [x|] eqn:E; simpl.
  - apply rfind_tail_head in E as (t' & -> & _). by exists t'.
  - exists p. destruct (p ++ t) as [|a [|b l]] eqn:El; try done.
    apply (f_equal length) in El. rewrite length_app in El. simpl in El. lia.
Qed.

Lemma path_suffix_in_name p : path_suffix p `suffix_of` path_name p.
Proof.
  unfold path_suffix. destruct (rfind_tail DOT (path_name p)) as [t|] eqn:E.
  - destruct (_ && _)%nat; [|apply suffix_nil]. by apply rfind_tail_suffix in E.
  - apply suffix_nil.
Qed.

Lemma path_suffix_long p :
  path_suffix p = [] ∨ (1 < length (path_suffix p))%nat.
Proof.
  unfold path_suffix. destruct (rfind_tail DOT (path_name p)) as [t|]; [|by left].
  destruct ((length t <? length (path_name p))%nat && (1 <? length t)%nat) eqn:E;
    [|by left].
  right. apply andb_true_iff in E as [_ E]. by apply Nat.ltb_lt in E.
Qed.

(** X14. For a path with a name and a destination code without a slash,
    the input path, the output path, the cache path and the path of the
    temporary file of the cache are four different paths, and the output
    path has the extension of the input path, or [.a2l] when the input
    path has none. *)
Theorem derived_paths path dest :
  path_name path ≠ [] → Forall (λ c, c ≠ SLASH) dest →
  NoDup [path; choose_output_path path dest; cache_path_for path dest;
         tmp_path (cache_path_for path dest)]
  ∧ path_suffix (choose_output_path path dest)
    = match path_suffix path with [] => u ".a2l" | e => e end.
Proof.
  intros _ Hd. split; [apply paths_distinct|].
  unfold choose_output_path.
  destruct (with_suffix_split path) as (base & Hp & Hw). rewrite Hw, app_nil_r.
  set (ext := match path_suffix path with [] => u ".a2l" | e => e end).
  assert (∃ e, ext = DOT :: e ∧ Forall (λ c, c ≠ DOT) e ∧ e ≠ []
               ∧ Forall (λ c, c ≠ SLASH) ext) as (e & He & Hdot & Hne & Hsl).
  { unfold ext. destruct (path_suffix path) as [|c t] eqn:E.
    - exists (u "a2l"). split; [done|].
      split; [by repeat constructor|]. split; [done|]. by repeat constructor.
    - destruct (path_suffix_shape path) as [E'|(t' & E' & Ht)];
        rewrite E in E'; [done|]. injection E' as -> ->.
      exists t'. split; [done|]. split; [done|]. split.
      + destruct (path_suffix_long path) as [E'|E']; rewrite E in E'; [done|].
        intros ->. simpl in E'. lia.
      + destruct (path_suffix_in_name path) as [k Hk]. rewrite E in Hk.
        pose proof (path_name_no_slash path) as Hn. rewrite Hk in Hn.
        by apply Forall_app in Hn as [_ Hn]. }
  destruct (path_name_app base (u ".translated_" ++ dest ++ ext)) as [x Hx].
  { apply Forall_app. split; [by repeat constructor|]. by apply Forall_app. }
  { rewrite length_app. simpl. lia. }
  unfold path_suffix. rewrite Hx.
  rewrite He. rewrite !app_assoc. rewrite rfind_tail_app_last by done.
  rewrite !length_app. simpl.
  assert (length e ≠ 0%nat) by (by destruct e).
  replace (S (length e) <? _)%nat with true by (symmetry; apply Nat.ltb_lt; lia).
  replace (1 <? S (length e))%nat with true by (symmetry; apply Nat.ltb_lt; lia).
  done.
Qed.

Lemma derived_paths_witness :
  NoDup [u "maps/ecu.a2l"; choose_output_path (u "maps/ecu.a2l") (u "es");
         cache_path_for (u "maps/ecu.a2l") (u "es");
         tmp_path (cache_path_for (u "maps/ecu.a2l") (u "es"))]
  ∧ path_suffix (choose_output_path (u "maps/ecu.a2l") (u "es"))
    = match path_suffix (u "maps/ecu.a2l") with [] => u ".a2l" | e => e end.
Proof.
  apply (derived_paths (u "maps/ecu.a2l") (u "es")).
  - vm_compute. discriminate.
  - repeat constructor; vm_compute; discriminate.
Defined.

(** ** Properties of the pattern, and of the output of any run *)

Lemma match_body_None s :
  match_body s = None → Forall (λ c, c ≠ LF) s → count_quotes s = 0%nat.
Proof.
  unfold count_quotes. induction s as [|c s IH]; simpl; [done|].
  intros H Hlf. apply Forall_cons in Hlf as [Hc Hlf].
  change (match c with 0 => false | N.pos p => (34 =? p)%positive end)
    with (N.eqb QUOTE c).
  rewrite N.eqb_sym.
  destruct (c =? QUOTE); [done|].
  rewrite (proj2 (N.eqb_neq c LF)) in H by done.
  destruct (match_body s) as [[i r]|]; [done|]. by apply IH.
Qed.

Lemma count_quotes_app s t : count_quotes (s ++ t) = (count_quotes s + count_quotes t)%nat.
Proof. unfold count_quotes. by rewrite List.filter_app, length_app. Qed.

Lemma count_quotes_clean s : Forall (λ c, c ≠ QUOTE ∧ c ≠ LF) s → count_quotes s = 0%nat.
Proof.
  unfold count_quotes. induction 1 as [|c s [Hc _] _ IH]; simpl; [done|].
  change (match c with 0 => false | N.pos p => (34 =? p)%positive end)
    with (N.eqb QUOTE c).
  by rewrite N.eqb_sym, (proj2 (N.eqb_neq c QUOTE)).
Qed.

Lemma count_quotes_cons c s :
  count_quotes (c :: s) = ((if N.eqb c QUOTE then 1 else 0) + count_quotes s)%nat.
Proof.
  unfold count_quotes. simpl.
  change (match c with 0 => false | N.pos p => (34 =? p)%positive end)
    with (N.eqb QUOTE c).
  rewrite N.eqb_sym. by destruct (c =? QUOTE).
Qed.

Lemma match_body_clean inner rest :
  Forall (λ c, c ≠ QUOTE ∧ c ≠ LF) inner →
  match_body (inner ++ QUOTE :: rest) = Some (inner, rest).
Proof.
  induction 1 as [|c inner [Hq Hl] _ IH]; simpl; [done|].
  rewrite (proj2 (N.eqb_neq c QUOTE)), (proj2 (N.eqb_neq c LF)) by done.
  by rewrite IH.
Qed.

Lemma match_body_no_quote s :
  Forall (λ c, c ≠ QUOTE) s → match_body s = None.
Proof.
  induction 1 as [|c s Hq _ IH]; simpl; [done|].
  rewrite (proj2 (N.eqb_neq c QUOTE)) by done. rewrite IH.
  by destruct (c =? LF).
Qed.

Lemma match_body_broken mid rest :
  Forall (λ c, c ≠ QUOTE) mid → match_body (mid ++ LF :: rest) = None.
Proof.
  induction 1 as [|c s Hq _ IH]; simpl; [done|].
  rewrite (proj2 (N.eqb_neq c QUOTE)) by done. rewrite IH.
  by destruct (c =? LF).
Qed.

Lemma scan_lits pre t :
  Forall (λ c, c ≠ QUOTE) pre → scan (pre ++ t) = map Lit pre ++ scan t.
Proof.
  induction 1 as [|c pre Hq _ IH]; [done|].
  change ((c :: pre) ++ t) with (c :: (pre ++ t)).
  rewrite scan_cons, (proj2 (N.eqb_neq c QUOTE)) by done. by rewrite IH.
Qed.

(** X16. The pattern cuts a text without losing anything: putting every
    match back between its quotes gives the text, and no match has a quote
    or a line feed inside. The quotes pair up from the left: the first
    quote of a text is matched with the next one when no line feed comes
    in between, and cutting goes on after that second quote; a quote
    followed by a line feed before any other quote is left as it is, and
    cutting goes on after the line feed; a last quote without another one
    after it is left as it is, as is a text without a quote. So a text
    without a line feed, as are the lines [main] passes, has half as many
    matches as quotes, rounded down. *)
Theorem pattern_pairs_the_quotes s :
  render (scan s) = s
  ∧ Forall (Forall (λ c, c ≠ QUOTE ∧ c ≠ LF)) (frags_of (scan s))
  ∧ (Forall (λ c, c ≠ LF) s →
     length (frags_of (scan s)) = (count_quotes s / 2)%nat)
  ∧ (∀ pre inner rest,
       s = pre ++ QUOTE :: inner ++ QUOTE :: rest →
       Forall (λ c, c ≠ QUOTE) pre → Forall (λ c, c ≠ QUOTE ∧ c ≠ LF) inner →
       scan s = map Lit pre ++ Frag inner :: scan rest)
  ∧ (∀ pre mid rest,
       s = pre ++ QUOTE :: mid ++ LF :: rest →
       Forall (λ c, c ≠ QUOTE) pre → Forall (λ c, c ≠ QUOTE) mid →
       scan s = map Lit (pre ++ QUOTE :: mid ++ [LF]) ++ scan rest)
  ∧ (∀ pre post,
       s = pre ++ QUOTE :: post →
       Forall (λ c, c ≠ QUOTE) pre → Forall (λ c, c ≠ QUOTE) post →
       scan s = map Lit s)
  ∧ (Forall (λ c, c ≠ QUOTE) s → scan s = map Lit s).
Proof.
  split; [apply render_scan|]. split; [apply frags_of_scan_clean|].
  split.
  { induction s as [s IH] using str_length_ind. intros Hlf.
    destruct s as [|c s]; [by rewrite scan_nil|].
    apply Forall_cons in Hlf as [Hc Hlf].
    rewrite scan_cons, count_quotes_cons.
    destruct (N.eqb_spec c QUOTE) as [->|Hq].
    - destruct (match_body s) as [[inner rest]|] eqn:E.
      + apply match_body_spec in E as [-> Hin].
        apply Forall_app in Hlf as [_ Hlf]. apply Forall_cons in Hlf as [_ Hlf].
        change (frags_of (Frag inner :: scan rest)) with (inner :: frags_of (scan rest)).
        simpl length.
        rewrite (IH rest); [|simpl; rewrite length_app; simpl; lia|exact Hlf].
        rewrite count_quotes_app, (count_quotes_clean inner Hin), count_quotes_cons.
        rewrite N.eqb_refl.
        change (1 + (0 + (1 + count_quotes rest)))%nat
          with (1 * 2 + count_quotes rest)%nat.
        by rewrite Nat.div_add_l.
      + change (frags_of (Lit QUOTE :: scan s)) with (frags_of (scan s)).
        rewrite (IH s); [|simpl; lia|exact Hlf].
        by rewrite (match_body_None s E Hlf).
    - change (frags_of (Lit c :: scan s)) with (frags_of (scan s)).
      rewrite (IH s); [done|simpl; lia|exact Hlf]. }
  split.
  { intros pre inner rest -> Hpre Hin.
    rewrite scan_lits by done. f_equal.
    by rewrite scan_cons, N.eqb_refl, match_body_clean. }
  split.
  { intros pre mid rest -> Hpre Hmid.
    rewrite scan_lits by done. rewrite map_app, <-app_assoc. f_equal.
    rewrite scan_cons, N.eqb_refl, match_body_broken by done.
    rewrite scan_lits by done.
    rewrite scan_cons. change (LF =? QUOTE) with false. cbv iota.
    change (QUOTE :: mid ++ [LF]) with ([QUOTE] ++ mid ++ [LF]).
    rewrite !map_app, <-!app_assoc. done. }
  split.
  { intros pre post -> Hpre Hpost.
    rewrite scan_lits by done. rewrite map_app. f_equal.
    rewrite scan_cons, N.eqb_refl, match_body_no_quote by done.
    change (map Lit (QUOTE :: post)) with (Lit QUOTE :: map Lit post). f_equal.
    apply scan_no_quote. by apply has_quote_false. }
  intros Hs. apply scan_no_quote. by apply has_quote_false.
Qed.

Section AnyOutcome.

Variable google : nat → list N → list N → list N + list N.
Variable clock : nat → Q.
Variable LANGUAGES : list N → option (list N).


End AnyOutcome.


(** ** Memoisation *)

Lemma calls_on_app t tr1 tr2 :
  calls_on t (tr1 ++ tr2) = (calls_on t tr1 + calls_on t tr2)%nat.
Proof. unfold calls_on. by rewrite calls_of_app, List.filter_app, length_app. Qed.

Lemma calls_on_none t tr : calls_of tr = [] → calls_on t tr = 0%nat.
Proof. unfold calls_on. by intros ->. Qed.

Lemma calls_on_replicate t text dest n tr :
  calls_of tr = replicate n (text, dest) →
  calls_on t tr = if bool_decide (text = t) then n else 0%nat.
Proof.
  unfold calls_on. intros ->. induction n as [|n IH]; simpl.
  - by destruct (bool_decide _).
  - destruct (bool_decide (text = t)); simpl; by rewrite IH.
Qed.

Lemma memo_refl ok w : memo ok w w.
Proof.
  split; [done|]. exists []. rewrite app_nil_r. split; [done|].
  intros t. unfold calls_on. simpl. split; [lia|done].
Qed.

Lemma memo_no_calls ok w w' : no_calls w w' → memo ok w w'.
Proof.
  intros (C & _ & tr & T & E). split; [by rewrite C|].
  exists tr. split; [done|]. intros t. rewrite (calls_on_none t tr) by done.
  split; [lia|done].
Qed.

Lemma memo_cut w w' : memo true w w' → memo false w w'.
Proof.
  intros (C & tr & T & H). split; [done|]. exists tr. split; [done|].
  intros t. destruct (H t) as [H1 H2]. split; [done|].
  intros Hn. destruct (H2 Hn) as [? _]. done.
Qed.

Lemma memo_trans ok w1 w2 w3 : memo true w1 w2 → memo ok w2 w3 → memo ok w1 w3.
Proof.
  intros (C1 & tr1 & T1 & H1) (C2 & tr2 & T2 & H2).
  split; [by etrans|]. exists (tr1 ++ tr2).
  split; [by rewrite T2, T1, app_assoc|].
  intros t. rewrite calls_on_app.
  destruct (H1 t) as [L1 Z1], (H2 t) as [L2 Z2].
  destruct (decide (calls_on t tr1 = 0%nat)) as [E1|E1].
  - rewrite E1. simpl. split; [done|]. intros Hn.
    destruct (Z2 Hn) as [Hnone Hsome]. split; [|done].
    destruct (cache w1 !! t) as [v|] eqn:Ev; [|done].
    by rewrite (lookup_weaken _ _ _ _ Ev C1) in Hnone.
  - destruct (Z1 E1) as [Hnone Hsome]. destruct (Hsome eq_refl) as [v Hv].
    destruct (decide (calls_on t tr2 = 0%nat)) as [E2|E2].
    + rewrite E2, Nat.add_0_r. split; [done|]. intros _. split; [done|].
      intros _. exists v. by eapply lookup_weaken.
    + destruct (Z2 E2) as [Hnone2 _]. congruence.
Qed.

Section Memo.

Variable google : nat → list N → list N → list N + list N.
Variable clock : nat → Q.
Variable LANGUAGES : list N → option (list N).

Lemma memo_repl dest debug lineno inner w r w' :
  _repl google dest debug lineno inner w = (r, w') → memo (is_ok r) w w'.
Proof.
  intros H. apply repl_calls in H as (n & Hn & Hz & Hc & _ & (tr & T & E) & Ho).
  split; [done|]. exists tr. split; [done|]. intros t.
  rewrite (calls_on_replicate t inner dest n tr E).
  destruct (bool_decide (inner = t)) eqn:Eb; [|split; [lia|done]].
  apply bool_decide_eq_true in Eb as <-. split; [done|]. intros Hnz.
  destruct (Hz Hnz) as [Hi Hnone]. split; [done|].
  destruct r as [p|e]; [|done]. intros _.
  destruct Ho as (out & _ & Ho). rewrite Hi in Ho. by exists out.
Qed.

Lemma memo_sub_segments dest debug lineno xs : ∀ w r w',
  sub_segments (_repl google dest debug lineno) xs w = (r, w') →
  memo (is_ok r) w w'.
Proof.
  induction xs as [|[c|inner] xs IH]; intros w r w'; simpl.
  - intros [= <- <-]. apply memo_refl.
  - intros H. apply bind_inv in H as [([t chg] & w1 & H1 & H)|(e & H1 & ->)].
    + injection H as <- <-. by apply IH in H1.
    + by apply IH in H1.
  - intros H. apply bind_inv in H as [([s chg1] & w1 & H1 & H)|(e & H1 & ->)];
      [|by apply memo_repl in H1].
    apply memo_repl in H1.
    apply bind_inv in H as [([t chg2] & w2 & H2 & H)|(e & H2 & ->)].
    + injection H as <- <-. apply IH in H2. by eapply memo_trans.
    + apply IH in H2. by eapply memo_trans.
Qed.

Lemma memo_write_line dest debug lineno line w r w' :
  write_line google dest debug lineno line w = (r, w') → memo (is_ok r) w w'.
Proof.
  unfold write_line, translate_line.
  destruct (has_quote line); [destruct (has_quote (rstrip_lf line)); simpl|].
  - intros H. apply bind_inv in H as [([t chg] & w1 & H1 & H)|(e & H1 & ->)];
      [|by apply memo_sub_segments in H1].
    apply memo_sub_segments in H1.
    apply bind_inv in H as [([] & w2 & H2 & H)|(e & H2 & ->)].
    + injection H as <- <-. apply no_calls_fout_write in H2 as [H2 _].
      eapply memo_trans; [exact H1|by apply memo_no_calls].
    + by apply no_calls_fout_write in H2 as [_ [=]].
  - intros H. apply bind_inv in H as [([t chg] & w1 & [= <- <- <-] & H)|(e & [=] & _)].
    apply bind_inv in H as [([] & w2 & H2 & H)|(e & H2 & ->)].
    + injection H as <- <-. apply no_calls_fout_write in H2 as [H2 _].
      by apply memo_no_calls.
    + by apply no_calls_fout_write in H2 as [_ [=]].
  - intros H. apply bind_inv in H as [([] & w2 & H2 & H)|(e & H2 & ->)].
    + injection H as <- <-. apply no_calls_fout_write in H2 as [H2 _].
      by apply memo_no_calls.
    + by apply no_calls_fout_write in H2 as [_ [=]].
Qed.

Lemma memo_process_line dest cache_file debug lineno line st w r w' :
  process_line google clock dest cache_file debug lineno line st w = (r, w') →
  memo (is_ok r) w w'.
Proof.
  unfold process_line. intros H.
  apply bind_inv in H as [(chg & w1 & H1 & H)|(e & H1 & ->)];
    [|by apply memo_write_line in H1].
  apply memo_write_line in H1. simpl in H1.
  eapply memo_trans; [exact H1|]. apply memo_no_calls.
  apply bind_inv in H as [([] & w2 & H2 & H)|(e & H2 & ->)];
    [|by apply no_calls_checkpoint in H2].
  apply no_calls_checkpoint in H2.
  eapply no_calls_trans; [exact H2|].
  apply bind_inv in H as [(last & w3 & H3 & H)|(e & H3 & ->)];
    [|by apply no_calls_periodic_save in H3].
  apply no_calls_periodic_save in H3.
  eapply no_calls_trans; [exact H3|].
  apply bind_inv in H as [([] & w4 & H4 & H)|(e & H4 & ->)];
    [|by apply no_calls_report_progress in H4 as [? _]].
  apply no_calls_report_progress in H4 as [H4 _]. by injection H as <- <-.
Qed.

Lemma memo_process_lines dest cache_file debug lines : ∀ lineno st w r w',
  process_lines google clock dest cache_file debug lineno lines st w = (r, w') →
  memo (is_ok r) w w'.
Proof.
  induction lines as [|line lines IH]; intros lineno st w r w'; simpl.
  - intros [= <- <-]. apply memo_refl.
  - intros H.
    apply bind_inv in H as [([] & w1 & H1 & H)|(e & H1 & ->)];
      [|apply no_calls_checkpoint in H1; by apply memo_no_calls].
    apply no_calls_checkpoint in H1.
    eapply memo_trans; [by apply memo_no_calls|].
    apply bind_inv in H as [(st1 & w2 & H2 & H)|(e & H2 & ->)];
      [|by apply memo_process_line in H2].
    apply memo_process_line in H2. apply IH in H. by eapply memo_trans.
Qed.

(** X17. A run of [main] memoises: however often a text occurs in the
    input and however the run ends, the translator is called on it at most
    [RETRY_LIMIT] times in the whole run, and not at all when the text is
    in the cache loaded from the cache file. *)
Theorem no_text_is_sent_twice path dest debug f c w r w' :
  files w !! path = Some f →
  as_cache (cache_file_value (files w) (cache_path_for path dest)) = Some c →
  main google clock LANGUAGES path dest debug w = (r, w') →
  ∃ tr, trace w' = trace w ++ tr
    ∧ ∀ t, (calls_on t tr ≤ RETRY_LIMIT)%nat
           ∧ (is_Some (c !! t) → calls_on t tr = 0%nat).
Proof.
  intros Hf Hc Hrun.
  destruct (readable f) eqn:Hr; cycle 1.
  { rewrite (main_loop _ _ _ _ _ _ f c) in Hrun by done. rewrite Hr in Hrun.
    injection Hrun as <- <-.
    exists (EvStdout MsgBanner :: header LANGUAGES path dest c).
    split; [done|]. intros t. split; [by vm_compute; lia|done]. }
  destruct (main_through_loop _ _ _ _ _ _ _ _ _ _ _ Hf Hr Hc Hrun)
    as (rl & wl & Hl & (_ & _ & tr2 & T2 & E2) & _).
  apply memo_process_lines in Hl as (_ & tr1 & T1 & H1).
  exists ((EvStdout MsgBanner :: header LANGUAGES path dest c) ++ tr1 ++ tr2).
  split.
  { rewrite T2. simpl. rewrite T1. simpl. by rewrite <-!app_assoc. }
  intros t. rewrite !calls_on_app, (calls_on_none t tr2 E2), Nat.add_0_r.
  change (calls_on t (EvStdout MsgBanner :: header LANGUAGES path dest c)) with 0%nat.
  simpl. destruct (H1 t) as [L Z]. split; [done|].
  intros [v Hv]. destruct (decide (calls_on t tr1 = 0%nat)) as [E|E]; [done|].
  destruct (Z E) as [Hnone _]. simpl in Hnone. congruence.
Qed.

End Memo.

Lemma no_text_is_sent_twice_witness :
  let input := latin1_bytes (u "a " ++ quoted (u "hi") ++ [LF] ++ u "b " ++ quoted (u "hi") ++ [LF]) in
  let w := idle_world (files_with input ∅) in
  let run := main (flaky 1 (u "hola")) frozen no_names demo_path (u "es") false w in
  ∃ tr, trace run.2 = trace w ++ tr
    ∧ ∀ t, (calls_on t tr ≤ RETRY_LIMIT)%nat
           ∧ (is_Some ((∅ : gmap (list N) (list N)) !! t) → calls_on t tr = 0%nat).
Proof.
  intros input w run.
  apply (no_text_is_sent_twice (flaky 1 (u "hola")) frozen no_names demo_path (u "es")
           false (File true input) ∅ w run.1 run.2).
  - vm_compute. reflexivity.
  - vm_compute. reflexivity.
  - apply surjective_pairing.
Defined.
